(** * LLM-Chatbot: the request classifier, the retry policy, the request
      dispatcher and the client session manager, embedded from the
      TypeScript sources and checked against the specification.

    Server side: the route handler of [POST /api/chat]
    ([retryWithBackoff], [sanitizePrompt], [generateText], [generateImage],
    [generateSpeech], [determineResponseType], [POST]).  Client side:
    [lib/hooks/use-chat.ts] ([generateChatTitle], [createNewChat],
    [removeChat], [sendMessage]).

    The definitions come first, the properties after them. *)

From Stdlib Require Import List Bool Arith NArith ZArith Lia String Ascii.

From Stdlib Require Import Sorted Permutation.

From Equations Require Import Equations.

Import ListNotations.

Set Implicit Arguments.

(* ===================================================================== *)
(** * JavaScript strings *)
(* ===================================================================== *)

(** A JavaScript string is a sequence of UTF-16 code units. *)
Module JsString.

Definition code_unit := N.

Definition jsstring := list code_unit.
Bind Scope N_scope with code_unit.

Local Open Scope N_scope.

(** String literals of the sources are written [js "..."]. *)
Definition js (s : string) : jsstring :=
  map N_of_ascii (list_ascii_of_string s).

Definition cu_eqb (a b : code_unit) : bool := N.eqb a b.

Fixpoint str_eqb (a b : jsstring) : bool :=
  match a, b with
  | [], [] => true
  | x :: a', y :: b' => cu_eqb x y && str_eqb a' b'
  | _, _ => false
  end.

Definition in_range (lo hi c : code_unit) : bool :=
  (N.leb lo c && N.leb c hi)%bool.

Definition is_upper (c : code_unit) : bool := in_range 65 90 c.

Definition is_lower (c : code_unit) : bool := in_range 97 122 c.

Definition is_digit (c : code_unit) : bool := in_range 48 57 c.

(** [\w] without the unicode flag: [A-Za-z0-9_]. *)
Definition is_word_char (c : code_unit) : bool :=
  is_upper c || is_lower c || is_digit c || cu_eqb c 95.

(** LineTerminator: LF, CR, LS, PS.  The regular-expression dot matches
    every code unit but these. *)
Definition is_line_terminator (c : code_unit) : bool :=
  cu_eqb c 10 || cu_eqb c 13 || cu_eqb c 8232 || cu_eqb c 8233.

(** WhiteSpace and LineTerminator, the set of [\s] and of
    [String.prototype.trim]. *)
Definition is_space (c : code_unit) : bool :=
  in_range 9 13 c || cu_eqb c 32 || cu_eqb c 160 || cu_eqb c 5760
  || in_range 8192 8202 c || cu_eqb c 8232 || cu_eqb c 8233
  || cu_eqb c 8239 || cu_eqb c 8287 || cu_eqb c 12288 || cu_eqb c 65279.

(** [String.prototype.toLowerCase], one code unit at a time.  The ASCII
    capitals, the two characters outside ASCII whose lower case falls into
    ASCII (KELVIN SIGN and LATIN CAPITAL LETTER I WITH DOT ABOVE) and the
    Latin-1 capitals are mapped; every other code unit is kept, its lower
    case being a code unit outside ASCII again. *)
Definition lower_cu (c : code_unit) : list code_unit :=
  if is_upper c then [c + 32]
  else if cu_eqb c 8490 then [107]
  else if cu_eqb c 304 then [105; 775]
  else if in_range 192 222 c && negb (cu_eqb c 215) then [c + 32]
  else [c].

Definition toLowerCase (s : jsstring) : jsstring := flat_map lower_cu s.

Fixpoint dropWhile (f : code_unit -> bool) (s : jsstring) : jsstring :=
  match s with
  | [] => []
  | c :: s' => if f c then dropWhile f s' else s
  end.

(** [String.prototype.trim] *)
Definition trim (s : jsstring) : jsstring :=
  rev (dropWhile is_space (rev (dropWhile is_space s))).

(** [s.slice(0, n)] for [0 <= n] *)
Definition slice0 (n : nat) (s : jsstring) : jsstring := firstn n s.

(** [s.split(' ')]: the fields between single spaces; never empty. *)
Fixpoint split_on (sep : code_unit) (s : jsstring) : list jsstring :=
  match s with
  | [] => [[]]
  | c :: s' =>
      if cu_eqb c sep then [] :: split_on sep s'
      else match split_on sep s' with
           | [] => [[c]]
           | f :: fs => (c :: f) :: fs
           end
  end.

(** [s.startsWith(w)] *)
Fixpoint startsWith (w s : jsstring) : bool :=
  match w, s with
  | [], _ => true
  | a :: w', c :: s' => cu_eqb a c && startsWith w' s'
  | _ :: _, [] => false
  end.

(** [fields.join(sep)] *)
Fixpoint join (sep : jsstring) (fields : list jsstring) : jsstring :=
  match fields with
  | [] => []
  | [f] => f
  | f :: fs => f ++ sep ++ join sep fs
  end.

Definition is_high_surrogate (c : code_unit) : bool := in_range 55296 56319 c.

Definition is_low_surrogate (c : code_unit) : bool := in_range 56320 57343 c.

Definition is_surrogate (c : code_unit) : bool :=
  is_high_surrogate c || is_low_surrogate c.

(** The conversion of a string to a USVString, which [FormData.append]
    applies to its arguments: a surrogate pair is kept, a surrogate
    without its partner becomes U+FFFD. *)
Fixpoint toUSVString (s : jsstring) : jsstring :=
  match s with
  | [] => []
  | c :: rest =>
      match rest with
      | d :: s' =>
          if is_high_surrogate c && is_low_surrogate d
          then c :: d :: toUSVString s'
          else (if is_surrogate c then 65533 else c) :: toUSVString rest
      | [] => [if is_surrogate c then 65533 else c]
      end
  end.

(** The newlines of a form value as [multipart/form-data] encodes them:
    a CR that no LF follows and a LF that no CR precedes become CR LF. *)
Fixpoint normalize_newlines (s : jsstring) : jsstring :=
  match s with
  | [] => []
  | c :: rest =>
      if cu_eqb c 13 then
        13 :: 10 ::
          match rest with
          | d :: s' =>
              if cu_eqb d 10 then normalize_newlines s'
              else normalize_newlines rest
          | [] => []
          end
      else if cu_eqb c 10 then 13 :: 10 :: normalize_newlines rest
      else c :: normalize_newlines rest
  end.

End JsString.

Import JsString.

(* ===================================================================== *)
(** * Regular expressions *)
(* ===================================================================== *)

(** The fragment of the regular-expression syntax that the sources use,
    all under the [i] flag: a pattern is a sequence of atoms, matched by
    backtracking in the order ECMAScript prescribes. *)
Module RegExp.

Inductive atom :=
| Bol                               (* ^ *)
| Bnd                               (* \b *)
| Lit (w : jsstring)                (* literal text *)
| Alt (ws : list jsstring)          (* (w1|w2|...) *)
| AnyPlus                           (* .+ *)
| AnyPlusLazy.                      (* .+? *)

Definition pattern := list atom.

(** Canonicalize of the [i] flag without the [u] flag: a code unit
    outside ASCII never folds onto an ASCII one. *)
Definition canonicalize (c : code_unit) : code_unit :=
  if is_lower c then (c - 32)%N else c.

(** Consume the literal [w] at the head of [s]; returns the last code unit
    consumed (or [prev]) and the rest. *)
Fixpoint eat (w : jsstring) (prev : option code_unit) (s : jsstring)
  : option (option code_unit * jsstring) :=
  match w with
  | [] => Some (prev, s)
  | pc :: w' =>
      match s with
      | [] => None
      | c :: s' =>
          if cu_eqb (canonicalize c) (canonicalize pc)
          then eat w' (Some c) s' else None
      end
  end.

Definition is_word_at (c : option code_unit) : bool :=
  match c with Some c => is_word_char c | None => false end.

(** [match_at p prev s]: the length of the match of [p] at the head of
    [s], where [prev] is the code unit before the position. *)
Fixpoint match_at (p : pattern) (prev : option code_unit) (s : jsstring)
  {struct p} : option nat :=
  match p with
  | [] => Some 0
  | a :: p' =>
      match a with
      | Bol =>
          match prev with None => match_at p' prev s | Some _ => None end
      | Bnd =>
          if xorb (is_word_at prev) (is_word_at (hd_error s))
          then match_at p' prev s else None
      | Lit w =>
          match eat w prev s with
          | Some (prev', s') =>
              option_map (Nat.add (List.length w)) (match_at p' prev' s')
          | None => None
          end
      | Alt ws =>
          (fix alternatives (ws : list jsstring) : option nat :=
             match ws with
             | [] => None
             | w :: ws' =>
                 match eat w prev s with
                 | Some (prev', s') =>
                     match match_at p' prev' s' with
                     | Some n => Some (List.length w + n)
                     | None => alternatives ws'
                     end
                 | None => alternatives ws'
                 end
             end) ws
      | AnyPlus =>
          (fix greedy (s : jsstring) : option nat :=
             match s with
             | [] => None
             | c :: s' =>
                 if is_line_terminator c then None
                 else match greedy s' with
                      | Some n => Some (S n)
                      | None => option_map S (match_at p' (Some c) s')
                      end
             end) s
      | AnyPlusLazy =>
          (fix lazy (s : jsstring) : option nat :=
             match s with
             | [] => None
             | c :: s' =>
                 if is_line_terminator c then None
                 else match match_at p' (Some c) s' with
                      | Some n => Some (S n)
                      | None => option_map S (lazy s')
                      end
             end) s
      end
  end.

(** The first position at which [p] matches, and the length there. *)
Fixpoint search (p : pattern) (prev : option code_unit) (s : jsstring)
  : option (nat * nat) :=
  match match_at p prev s with
  | Some n => Some (0, n)
  | None =>
      match s with
      | [] => None
      | c :: s' =>
          option_map (fun r => (S (fst r), snd r)) (search p (Some c) s')
      end
  end.

(** [RegExp.prototype.test] *)
Definition test (p : pattern) (s : jsstring) : bool :=
  match search p None s with Some _ => true | None => false end.

(** [String.prototype.match] without the [g] flag: [match[0]]. *)
Definition match0 (p : pattern) (s : jsstring) : option jsstring :=
  match search p None s with
  | Some (i, n) => Some (firstn n (skipn i s))
  | None => None
  end.

End RegExp.

Import RegExp.

(* ===================================================================== *)
(** * The intent classifier *)
(* ===================================================================== *)

Inductive ResponseType := image | audio | text.

Definition group (ws : list string) : atom := Alt (map js ws).

Definition imagePatterns : list pattern :=
  [ [Bnd; group ["draw"; "create"; "generate"; "make"]; Bnd; AnyPlus; Bnd;
     group ["picture"; "image"; "photo"; "artwork"; "visual"; "drawing";
            "illustration"]; Bnd];
    [Bnd; group ["show"; "display"; "visualize"]; Bnd; AnyPlus; Bnd;
     group ["as"; "in"; "with"]; Bnd; AnyPlus; Bnd;
     group ["image"; "picture"; "photo"; "drawing"]; Bnd];
    [Bnd; group ["picture"; "image"; "photo"; "drawing"; "artwork"]; Bnd;
     AnyPlus; Bnd; group ["of"; "showing"; "depicting"]; Bnd] ]%string.

Definition audioPatterns : list pattern :=
  [ [Bnd; group ["speak"; "say"; "pronounce"; "read"; "narrate"]; Bnd;
     AnyPlus];
    [Bnd; group ["convert"; "transform"]; Bnd; AnyPlus; Bnd;
     group ["to"; "into"]; Bnd; AnyPlus; Bnd;
     group ["speech"; "audio"; "voice"]; Bnd];
    [Bnd; group ["generate"; "create"; "make"]; Bnd; AnyPlus; Bnd;
     group ["audio"; "speech"; "voice"; "sound"]; Bnd];
    [Lit (js "how does"); AnyPlus; Lit (js "sound"); Bnd];
    [Bnd; group ["tell"; "read"]; AnyPlus; Bnd;
     group ["me"; "us"; "out loud"]; Bnd] ]%string.

(** [for (const pattern of patterns) if (pattern.test(s)) return hit],
    falling through to [next]. *)
Fixpoint for_patterns (patterns : list pattern) (s : jsstring)
  (hit next : ResponseType) : ResponseType :=
  match patterns with
  | [] => next
  | pattern :: rest =>
      if test pattern s then hit else for_patterns rest s hit next
  end.

Definition determineResponseType (prompt : jsstring) : ResponseType :=
  let normalizedPrompt := toLowerCase prompt in
  for_patterns audioPatterns normalizedPrompt audio
    (for_patterns imagePatterns normalizedPrompt image text).

(** Some pattern of the group matches the string. *)
Definition matches_any (patterns : list pattern) (s : jsstring) : bool :=
  existsb (fun p => test p s) patterns.

(* ===================================================================== *)
(** * The server: errors, effects and the retry policy *)
(* ===================================================================== *)

Module ERROR_MESSAGES.

Definition MISSING_API_KEY := js "Missing OpenAI API key in server configuration.".

Definition INVALID_REQUEST := js "Invalid request format or empty message.".

Definition PROCESSING_ERROR := js "An error occurred while processing your request.".

Definition NO_RESPONSE := js "Unable to generate a response. Please try again.".

Definition MODEL_ERROR :=
  js "The language model is currently unavailable. Please try again later.".

Definition RATE_LIMIT := js "Rate limit exceeded. Please try again in a moment.".

Definition INVALID_API_KEY :=
  js "Invalid API key. Please check your OpenAI API key configuration.".

Definition CONTENT_POLICY :=
  js "Your request could not be processed due to content policy restrictions.".

Definition INVALID_HISTORY := js "Invalid conversation history format.".

End ERROR_MESSAGES.

Module RETRY_OPTIONS.

Definition maxRetries : nat := 3.

Definition initialDelay : Z := 1000.

Definition maxDelay : Z := 5000.

End RETRY_OPTIONS.

(** What a [catch] clause can receive: an [OpenAI.APIError] (with its
    optional HTTP status and provider code), another [Error], or a thrown
    value that is no [Error]. *)
Inductive JsError :=
| APIError (status : option Z) (code : option jsstring) (message : jsstring)
| Error (message : jsstring)
| Thrown.

Inductive result (A : Type) :=
| Ok (a : A)
| Throw (e : JsError).

Arguments Ok {A} a.
Arguments Throw {A} e.

(** [interface Message] of the route *)
Inductive Role := user | assistant | system.

Record Message := { role : Role; content : jsstring }.

(** The calls to the provider. *)
Inductive ApiRequest :=
| ChatCompletionsCreate (messages : list Message) (max_tokens : Z)
| ImagesGenerate (prompt : jsstring)
| AudioSpeechCreate (input : jsstring).

(** What the route does to the outside, in order. *)
Inductive event :=
| Wait (ms : Z)                    (* setTimeout of [wait] *)
| Call (request : ApiRequest)       (* a request sent to the provider *)
| ConsoleError (label : jsstring).  (* console.error *)

Definition opt_Z_eqb (a : option Z) (b : Z) : bool :=
  match a with Some a => Z.eqb a b | None => false end.

Definition opt_str_eqb (a : option jsstring) (b : jsstring) : bool :=
  match a with Some a => str_eqb a b | None => false end.

(** The errors that [retryWithBackoff] throws instead of retrying:
    [if (error instanceof OpenAI.APIError) { ... }]. *)
Definition nonRetryable (error : JsError) : option JsError :=
  match error with
  | APIError status code _ =>
      if opt_Z_eqb status 401 then Some (Error ERROR_MESSAGES.INVALID_API_KEY)
      else if opt_Z_eqb status 429 then Some (Error ERROR_MESSAGES.RATE_LIMIT)
      else if opt_str_eqb code (js "content_policy_violation")
           then Some (Error ERROR_MESSAGES.CONTENT_POLICY)
      else None
  | _ => None
  end.

(** [Math.min(initialDelay * Math.pow(2, retryCount), maxDelay)] *)
Definition delay (retryCount : nat) : Z :=
  Z.min (RETRY_OPTIONS.initialDelay * 2 ^ Z.of_nat retryCount)
        RETRY_OPTIONS.maxDelay.

Section Effects.

(** The state of the world outside the route (the provider). *)
Variable W : Type.

(** An asynchronous computation: from a world to a result, the world
    after it and the events it caused. *)
Definition M (A : Type) : Type := W -> result A * W * list event.

Definition ret {A} (a : A) : M A := fun w => (Ok a, w, []).

Definition throw {A} (e : JsError) : M A := fun w => (Throw e, w, []).

Definition bind {A B} (m : M A) (f : A -> M B) : M B :=
  fun w =>
    match m w with
    | (Ok a, w1, l1) => let '(r, w2, l2) := f a w1 in (r, w2, l1 ++ l2)
    | (Throw e, w1, l1) => (Throw e, w1, l1)
    end.

(** [try { m } catch (error) { handler(error) }] *)
Definition try_catch {A} (m : M A) (handler : JsError -> M A) : M A :=
  fun w =>
    match m w with
    | (Ok a, w1, l1) => (Ok a, w1, l1)
    | (Throw e, w1, l1) =>
        let '(r, w2, l2) := handler e w1 in (r, w2, l1 ++ l2)
    end.

Definition emit (ev : event) : M unit := fun w => (Ok tt, w, [ev]).

Definition wait (ms : Z) : M unit := emit (Wait ms).

Definition console_error (label : string) : M unit :=
  emit (ConsoleError (js label)).

(** [retryWithBackoff]: [await wait(delay)] shows as the event
    [Wait (delay retryCount)] between the attempts. *)
Equations? retryWithBackoff {T} (operation : M T) (retryCount : nat) (w : W)
  : result T * W * list event
  by wf (RETRY_OPTIONS.maxRetries - retryCount) lt :=
retryWithBackoff operation retryCount w with operation w := {
  | (Ok v, w1, l1) := (Ok v, w1, l1);
  | (Throw error, w1, l1)
      with le_lt_dec RETRY_OPTIONS.maxRetries retryCount := {
      | left _ := (Throw error, w1, l1);
      | right _ with nonRetryable error := {
          | Some specific := (Throw specific, w1, l1);
          | None :=
              let '(r, w2, l2) :=
                retryWithBackoff operation (S retryCount) w1 in
              (r, w2, l1 ++ Wait (delay retryCount) :: l2) } } }.
Proof.
  unfold RETRY_OPTIONS.maxRetries in *.
  do 3 (destruct retryCount as [| retryCount]; [lia |]). lia.
Qed.

End Effects.

Arguments ret {W A} a.
Arguments throw {W A} e.
Arguments emit {W} ev.
Arguments wait {W} ms.
Arguments console_error {W} label.

(* --------------------------------------------------------------------- *)
(** ** Runs of the wrapper: vocabulary *)
(* --------------------------------------------------------------------- *)

(** An error that the wrapper answers by waiting and trying again. *)
Definition retryable (f : JsError * list event) : Prop :=
  nonRetryable (fst f) = None.

(** [fails op w fs w']: called again and again from the world [w], the
    operation fails [length fs] times in a row, with the errors and events
    listed in [fs], and leaves the world [w']. *)
Inductive fails {W T} (op : M W T)
  : W -> list (JsError * list event) -> W -> Prop :=
| fails_nil w : fails op w [] w
| fails_cons w e l w1 fs w' :
    op w = (Throw e, w1, l) ->
    fails op w1 fs w' ->
    fails op w ((e, l) :: fs) w'.

(** The delay the specification asks for before retry [n] (0-indexed). *)
Definition backoff (n : nat) : Z := Z.min (1000 * 2 ^ Z.of_nat n) 5000.

(** The events of failed attempts, with a wait after each; [n] numbers the
    first retry. *)
Fixpoint retry_log (n : nat) (fs : list (JsError * list event))
  : list event :=
  match fs with
  | [] => []
  | (_, l) :: fs' => l ++ Wait (backoff n) :: retry_log (S n) fs'
  end.

(** The delays waited for, in order. *)
Fixpoint waits (l : list event) : list Z :=
  match l with
  | [] => []
  | Wait ms :: l' => ms :: waits l'
  | _ :: l' => waits l'
  end.

(** Sample operations and errors.  An operation that answers its [w]-th
    call (counted from 0) with the [w]-th entry of a script, and with
    [last] after the script. *)
Definition scripted {T} (script : list (result T)) (last : result T)
  : M nat T :=
  fun w => (nth w script last, S w, []).

Definition boom : JsError := Error (js "socket hang up").

Definition unauthorized : JsError :=
  APIError (Some 401%Z) (Some (js "invalid_api_key"))
           (js "Incorrect API key provided.").

Definition rate_limited : JsError :=
  APIError (Some 429%Z) (Some (js "rate_limit_exceeded"))
           (js "Rate limit reached.").

Definition policy_violation : JsError :=
  APIError (Some 400%Z) (Some (js "content_policy_violation"))
           (js "Your request was rejected by the safety system.").

(* ===================================================================== *)
(** * JSON *)
(* ===================================================================== *)

Module JSON.

#[warnings="-register-all"]
Inductive json :=
| JNull
| JBool (b : bool)
| JNumber (literal : jsstring)
| JString (s : jsstring)
| JArray (items : list json)
| JObject (members : list (jsstring * json)).

Local Open Scope N_scope.

Definition is_json_ws (c : code_unit) : bool :=
  cu_eqb c 32 || cu_eqb c 9 || cu_eqb c 10 || cu_eqb c 13.

Definition skip_ws (s : jsstring) : jsstring := dropWhile is_json_ws s.

(** Strip the literal [w] from the head of [s], case-sensitively. *)
Fixpoint expect (w s : jsstring) : option jsstring :=
  match w, s with
  | [], _ => Some s
  | a :: w', c :: s' => if cu_eqb a c then expect w' s' else None
  | _ :: _, [] => None
  end.

Definition hex_value (c : code_unit) : option N :=
  if is_digit c then Some (c - 48)
  else if in_range 97 102 c then Some (c - 87)
  else if in_range 65 70 c then Some (c - 55)
  else None.

Definition hex4 (s : jsstring) : option (code_unit * jsstring) :=
  match s with
  | a :: b :: c :: d :: r =>
      match hex_value a, hex_value b, hex_value c, hex_value d with
      | Some a, Some b, Some c, Some d =>
          Some (((a * 16 + b) * 16 + c) * 16 + d, r)
      | _, _, _, _ => None
      end
  | _ => None
  end.

(** The characters of a string after its opening quote. *)
Fixpoint string_chars (fuel : nat) (s : jsstring)
  : option (jsstring * jsstring) :=
  match fuel with
  | O => None
  | S fuel' =>
      match s with
      | [] => None
      | 34 :: r => Some ([], r)
      | 92 :: e :: r =>
          let continue_with c r :=
            match string_chars fuel' r with
            | Some (cs, r') => Some (c :: cs, r')
            | None => None
            end in
          match e with
          | 34 => continue_with 34 r
          | 92 => continue_with 92 r
          | 47 => continue_with 47 r
          | 98 => continue_with 8 r
          | 102 => continue_with 12 r
          | 110 => continue_with 10 r
          | 114 => continue_with 13 r
          | 116 => continue_with 9 r
          | 117 =>
              match hex4 r with
              | Some (c, r') => continue_with c r'
              | None => None
              end
          | _ => None
          end
      | c :: r =>
          if c <? 32 then None
          else match string_chars fuel' r with
               | Some (cs, r') => Some (c :: cs, r')
               | None => None
               end
      end
  end.

Fixpoint span (f : code_unit -> bool) (s : jsstring) : jsstring * jsstring :=
  match s with
  | c :: s' => if f c then let '(a, b) := span f s' in (c :: a, b)
               else ([], s)
  | [] => ([], [])
  end.

(** A number literal: an optional minus sign, an integer part without
    leading zeros, an optional fraction, an optional exponent. *)
Definition number_literal (s : jsstring) : option (jsstring * jsstring) :=
  let '(sign, s1) :=
    match s with 45 :: r => ([45], r) | _ => ([], s) end in
  let '(int, s2) := span is_digit s1 in
  match int with
  | [] => None
  | d :: ds =>
      if cu_eqb d 48 && negb (match ds with [] => true | _ => false end)
      then None
      else
        let frac :=
          match s2 with
          | 46 :: r =>
              match span is_digit r with
              | ([], _) => None
              | (fs, r') => Some (46 :: fs, r')
              end
          | _ => Some ([], s2)
          end in
        match frac with
        | None => None
        | Some (fr, s3) =>
            let exp :=
              match s3 with
              | e :: r =>
                  if cu_eqb e 101 || cu_eqb e 69 then
                    let '(sg, r1) :=
                      match r with
                      | 43 :: r' => ([43], r')
                      | 45 :: r' => ([45], r')
                      | _ => ([], r)
                      end in
                    match span is_digit r1 with
                    | ([], _) => None
                    | (es, r2) => Some (e :: sg ++ es, r2)
                    end
                  else Some ([], s3)
              | [] => Some ([], s3)
              end in
            match exp with
            | None => None
            | Some (ex, s4) => Some (sign ++ int ++ fr ++ ex, s4)
            end
        end
  end.

(** The recursive-descent parser; [fuel] bounds the nesting of calls. *)
Fixpoint value (fuel : nat) (s : jsstring) {struct fuel}
  : option (json * jsstring) :=
  match fuel with
  | O => None
  | S fuel' =>
      match skip_ws s with
      | [] => None
      | 110 :: r => option_map (pair JNull) (expect (js "ull") r)
      | 116 :: r => option_map (pair (JBool true)) (expect (js "rue") r)
      | 102 :: r => option_map (pair (JBool false)) (expect (js "alse") r)
      | 34 :: r =>
          match string_chars (S (List.length r)) r with
          | Some (cs, r') => Some (JString cs, r')
          | None => None
          end
      | 91 :: r =>
          match skip_ws r with
          | 93 :: r' => Some (JArray [], r')
          | _ =>
              match elements fuel' r with
              | Some (vs, r') => Some (JArray vs, r')
              | None => None
              end
          end
      | 123 :: r =>
          match skip_ws r with
          | 125 :: r' => Some (JObject [], r')
          | _ =>
              match members fuel' r with
              | Some (ms, r') => Some (JObject ms, r')
              | None => None
              end
          end
      | c :: r =>
          match number_literal (c :: r) with
          | Some (n, r') => Some (JNumber n, r')
          | None => None
          end
      end
  end
with elements (fuel : nat) (s : jsstring) {struct fuel}
  : option (list json * jsstring) :=
  match fuel with
  | O => None
  | S fuel' =>
      match value fuel' s with
      | Some (v, r) =>
          match skip_ws r with
          | 93 :: r' => Some ([v], r')
          | 44 :: r' =>
              match elements fuel' r' with
              | Some (vs, r'') => Some (v :: vs, r'')
              | None => None
              end
          | _ => None
          end
      | None => None
      end
  end
with members (fuel : nat) (s : jsstring) {struct fuel}
  : option (list (jsstring * json) * jsstring) :=
  match fuel with
  | O => None
  | S fuel' =>
      match skip_ws s with
      | 34 :: r =>
          match string_chars (S (List.length r)) r with
          | Some (key, r1) =>
              match skip_ws r1 with
              | 58 :: r2 =>
                  match value fuel' r2 with
                  | Some (v, r3) =>
                      match skip_ws r3 with
                      | 125 :: r4 => Some ([(key, v)], r4)
                      | 44 :: r4 =>
                          match members fuel' r4 with
                          | Some (ms, r5) => Some ((key, v) :: ms, r5)
                          | None => None
                          end
                      | _ => None
                      end
                  | None => None
                  end
              | _ => None
              end
          | None => None
          end
      | _ => None
      end
  end.

(** [JSON.parse(text)]; [None] when it throws a SyntaxError.  Two nested
    calls of the parser consume at least one code unit, which bounds the
    fuel. *)
Definition parse (text : jsstring) : option json :=
  match value (2 * List.length text + 2) text with
  | Some (v, r) =>
      match skip_ws r with
      | [] => Some v
      | _ :: _ => None
      end
  | None => None
  end.

End JSON.

Import JSON.

(** JSON texts are written with apostrophes for the double quotes. *)
Definition jsq (s : string) : jsstring :=
  map (fun c => if cu_eqb c 39 then 34%N else c) (js s).

(* ===================================================================== *)
(** * Numbers: from a literal of JSON to the Number and to its text *)
(* ===================================================================== *)

Module JsNumber.

Local Open Scope Z_scope.

(** A Number that a JSON literal denotes: a double [m * 2^e], signed, or
    an infinity.  The representation is canonical: [2^52 <= m < 2^53] and
    [-1074 <= e <= 971] for a normal number, [0 < m < 2^52] and
    [e = -1074] for a subnormal one, [m = 0] and [e = 0] for a zero. *)
Inductive number :=
| Finite (negative : bool) (m e : Z)
| Infinite (negative : bool).

(** The value of a sequence of decimal digits. *)
Definition digits_value (ds : jsstring) : Z :=
  fold_left (fun acc c => 10 * acc + Z.of_N (c - 48)) ds 0.

(** The mathematical value of a number literal of JSON, as
    [(negative, m, e)] for [m * 10^e]. *)
Definition mathematical_value (literal : jsstring) : bool * Z * Z :=
  let '(negative, s1) :=
    match literal with
    | 45%N :: r => (true, r)
    | _ => (false, literal)
    end in
  let '(int, s2) := span is_digit s1 in
  let '(frac, s3) :=
    match s2 with
    | 46%N :: r => span is_digit r
    | _ => ([], s2)
    end in
  let exponent :=
    match s3 with
    | _ :: 45%N :: ds => - digits_value ds
    | _ :: 43%N :: ds => digits_value ds
    | _ :: ds => digits_value ds
    | [] => 0
    end in
  (negative, digits_value (int ++ frac),
   exponent - Z.of_nat (List.length frac)).

(** The integer nearest to [a / b], the even one of two. *)
Definition round_half_even (a b : Z) : Z :=
  let q := a / b in
  match Z.compare (2 * (a mod b)) b with
  | Lt => q
  | Gt => q + 1
  | Eq => if Z.even q then q else q + 1
  end.

(** [a * 2^k], [a * 10^k] over [b], for any sign of [k], as a fraction. *)
Definition scale (base : Z) (a b k : Z) : Z * Z :=
  if 0 <=? k then (a * base ^ k, b) else (a, b * base ^ (- k)).

(** [a / b < base^k] *)
Definition below (base : Z) (a b k : Z) : bool :=
  let '(c, d) := scale base 1 1 k in a * d <? b * c.

(** The least [k] from [k0] on with [a / b < base^k]. *)
Fixpoint least_power (fuel : nat) (base a b k0 : Z) : Z :=
  match fuel with
  | O => k0
  | S fuel' =>
      if below base a b k0 then k0 else least_power fuel' base a b (k0 + 1)
  end.

(** The Number value for the positive fraction [a / b]:
    roundTiesToEven. *)
Definition number_value (negative : bool) (a b : Z) : number :=
  if a =? 0 then Finite negative 0 0
  else
    (* 2^(l-1) <= a / b < 2^l *)
    let l := least_power 3 2 a b (Z.log2 a - Z.log2 b) in
    let e := Z.max (l - 53) (-1074) in
    let '(c, d) := scale 2 a b (- e) in
    let m := round_half_even c d in
    let '(m, e) := if m =? 2 ^ 53 then (2 ^ 52, e + 1) else (m, e) in
    if 971 <? e then Infinite negative
    else if m =? 0 then Finite negative 0 0
    else Finite negative m e.

(** The Number that [JSON.parse] makes of a number literal. *)
Definition value (literal : jsstring) : number :=
  let '(negative, m, e) := mathematical_value literal in
  let '(a, b) := scale 10 m 1 e in
  number_value negative a b.

(** [+0] or [-0] *)
Definition is_zero (x : number) : bool :=
  match x with
  | Finite _ m _ => m =? 0
  | Infinite _ => false
  end.

Definition number_eqb (x y : number) : bool :=
  match x, y with
  | Finite s m e, Finite s' m' e' => Bool.eqb s s' && (m =? m') && (e =? e')
  | Infinite s, Infinite s' => Bool.eqb s s'
  | _, _ => false
  end.

(** The decimal digits of [s], [k] of them. *)
Fixpoint decimal_digits (k : nat) (s : Z) : jsstring :=
  match k with
  | O => []
  | S k' => decimal_digits k' (s / 10) ++ [Z.to_N (48 + s mod 10)]
  end.

(** The digits of a natural number, at least one. *)
Fixpoint count_digits (fuel : nat) (s : Z) : nat :=
  match fuel with
  | O => 1
  | S fuel' => if s <? 10 then 1 else S (count_digits fuel' (s / 10))
  end.

Definition natural (s : Z) : jsstring :=
  decimal_digits (count_digits (Z.to_nat (Z.log2 s)) s) s.

(** The integers [n], [k], [s] of Number::toString for the positive
    double [m * 2^e]: [k] is as small as possible with
    [10^(k-1) <= s < 10^k] and [s * 10^(n-k)] a decimal that reads back as
    the double; of two such [s], the one closer to the double, the even one
    in a tie.  [n0] is such that [10^(n0-1) <= m * 2^e < 10^n0]. *)
Fixpoint shortest (fuel : nat) (k : Z) (m e n0 : Z) : Z * Z * Z :=
  let '(a, b) := scale 2 m 1 e in
  let '(c, d) := scale 10 a b (k - n0) in
  let lo := c / d in
  let hi := lo + 1 in
  let reads_back s :=
    let '(p, q) := scale 10 s 1 (n0 - k) in
    number_eqb (number_value false p q) (Finite false m e) in
  let result s := if s =? 10 ^ k then (n0 + 1, 1, 1) else (n0, k, s) in
  match fuel with
  | O => result lo
  | S fuel' =>
      if c mod d =? 0 then result lo
      else
        match reads_back lo, reads_back hi with
        | true, true =>
            match Z.compare (2 * (c mod d)) d with
            | Lt => result lo
            | Gt => result hi
            | Eq => result (if Z.even lo then lo else hi)
            end
        | true, false => result lo
        | false, true => result hi
        | false, false => shortest fuel' (k + 1) m e n0
        end
  end.

Definition zeros (n : Z) : jsstring := repeat 48%N (Z.to_nat n).

(** Number::toString with radix 10 *)
Definition toString (x : number) : jsstring :=
  match x with
  | Infinite negative =>
      (if negative then [45%N] else []) ++ js "Infinity"
  | Finite negative m e =>
      if m =? 0 then [48%N]
      else
        let '(a, b) := scale 2 m 1 e in
        let n0 :=
          least_power 4 10 a b ((Z.log2 m + e) * 30103 / 100000 - 1) in
        let '(n, k, s) := shortest 17 1 m e n0 in
        let digits := decimal_digits (Z.to_nat k) s in
        (if negative then [45%N] else []) ++
        if (k <=? n) && (n <=? 21) then digits ++ zeros (n - k)
        else if (0 <? n) && (n <=? 21)
        then firstn (Z.to_nat n) digits ++ [46%N] ++ skipn (Z.to_nat n) digits
        else if (-6 <? n) && (n <=? 0)
        then [48%N; 46%N] ++ zeros (- n) ++ digits
        else
          let exponent :=
            [101%N; if 0 <=? n - 1 then 43%N else 45%N]
            ++ natural (Z.abs (n - 1)) in
          match digits with
          | [] => exponent
          | [d] => d :: exponent
          | d :: rest => d :: 46%N :: rest ++ exponent
          end
  end.

End JsNumber.

(* ===================================================================== *)
(** * JavaScript values read from parsed JSON *)
(* ===================================================================== *)

Module JsValue.

Local Open Scope N_scope.

(** The Number of a literal is [+0] or [-0], also when the literal is
    not zero but rounds to it. *)
Definition is_zero_literal (n : jsstring) : bool :=
  JsNumber.is_zero (JsNumber.value n).

(** ToBoolean *)
Definition truthy (v : json) : bool :=
  match v with
  | JNull => false
  | JBool b => b
  | JNumber n => negb (is_zero_literal n)
  | JString [] => false
  | _ => true
  end.

(** Number::toString of the Number of a literal: the shortest decimal
    that reads back as the same double ([1.50] prints as [1.5], [1e2] as
    [100], [-0] as [0], [1e400] as [Infinity]). *)
Definition Number_toString (literal : jsstring) : jsstring :=
  JsNumber.toString (JsNumber.value literal).

Definition has_key (k : jsstring) (members : list (jsstring * json)) : bool :=
  existsb (fun m => str_eqb (fst m) k) members.

(** [String(v)]; [None] when it throws a TypeError, which it does for an
    object whose own [toString] property hides the inherited method. *)
Fixpoint String_of (v : json) : option jsstring :=
  match v with
  | JNull => Some (js "null")
  | JBool true => Some (js "true")
  | JBool false => Some (js "false")
  | JNumber n => Some (Number_toString n)
  | JString s => Some s
  | JArray items =>
      option_map (join [44])
        ((fix strings (items : list json) : option (list jsstring) :=
            match items with
            | [] => Some []
            | x :: rest =>
                let head :=
                  match x with JNull => Some [] | _ => String_of x end in
                match head, strings rest with
                | Some h, Some t => Some (h :: t)
                | _, _ => None
                end
            end) items)
  | JObject members =>
      if has_key (js "toString") members then None
      else Some (js "[object Object]")
  end.

(** [msg.name] on a parsed value: the last member of that name. *)
Definition property (name : jsstring) (msg : json) : option json :=
  match msg with
  | JObject members =>
      match filter (fun m => str_eqb (fst m) name) members with
      | [] => None
      | m :: ms => Some (snd (last ms m))
      end
  | _ => None
  end.

(** [msg && typeof msg === 'object'] *)
Definition is_object (msg : json) : bool :=
  match msg with
  | JArray _ | JObject _ => true
  | _ => false
  end.

End JsValue.

Import JsValue.

(* ===================================================================== *)
(** * The route [POST /api/chat] *)
(* ===================================================================== *)

(** [prompt.replace(/[^\w\s.,!?'-]/g, '').trim()] *)
Definition sanitizePrompt (prompt : jsstring) : jsstring :=
  trim (filter (fun c => is_word_char c || is_space c
                         || existsb (cu_eqb c) (js ".,!?'-")) prompt).

(** The entries of a multipart form: strings and files. *)
Inductive FormValue :=
| FString (s : jsstring)
| FFile (size : N).

Definition FormData := list (jsstring * FormValue).

(** [formData.get(name)] *)
Fixpoint get (name : jsstring) (formData : FormData) : option FormValue :=
  match formData with
  | [] => None
  | (k, v) :: rest => if str_eqb k name then Some v else get name rest
  end.

(** A request: its body read by [req.formData()], which throws when the
    body is no form. *)
Inductive Request :=
| Unreadable (error : JsError)
| Form (formData : FormData).

(** [process.env] *)
Record Env := { OPENAI_API_KEY : option jsstring }.

Inductive ResponseBody :=
| ErrorBody (error : jsstring)
| Generated (type : ResponseType) (content : jsstring)
            (url : option jsstring).

Record Response := { status : Z; body : ResponseBody }.

(** [msg => ({ role: ..., content: String(msg.content || '') })] *)
Definition to_message (msg : json) : option Message :=
  let role :=
    match property (js "role") msg with
    | Some (JString r) =>
        if str_eqb r (js "user") then user
        else if str_eqb r (js "assistant") then assistant else user
    | _ => user
    end in
  let content :=
    match property (js "content") msg with
    | Some v => if truthy v then String_of v else Some []
    | None => Some []
    end in
  option_map (fun c => {| role := role; content := c |}) content.

(** [array.map(f)] where [f] may throw. *)
Fixpoint map_throwing {A B} (f : A -> option B) (l : list A)
  : option (list B) :=
  match l with
  | [] => Some []
  | x :: l' =>
      match f x with
      | Some y => option_map (cons y) (map_throwing f l')
      | None => None
      end
  end.

Definition parsing_error : event := ConsoleError (js "Error parsing history:").

(** The block that fills [history] from the form field: the history and
    what it logs. *)
Definition readHistory (historyJson : option FormValue)
  : list Message * list event :=
  match historyJson with
  | Some (FString ((_ :: _) as text)) =>
      match JSON.parse text with
      | Some (JArray parsedHistory) =>
          match map_throwing to_message (filter is_object parsedHistory) with
          | Some history => (history, [])
          | None => ([], [parsing_error])
          end
      | Some _ => ([], [])
      | None => ([], [parsing_error])
      end
  | _ => ([], [])
  end.

(** [!message || typeof message !== 'string' || !message.trim()]
    fails: the text of a valid message, trimmed. *)
Definition validMessage (message : option FormValue) : option jsstring :=
  match message with
  | Some (FString m) =>
      match trim m with
      | [] => None
      | (_ :: _) as messageText => Some messageText
      end
  | _ => None
  end.

(** The provider's client: each call answers from the world and changes
    it.  A chat completion answers with
    [choices[0]?.message?.content], an image generation with
    [data[0]?.b64_json], a speech synthesis with the audio in base64. *)
Record OpenAI (W : Type) := {
  chat_completions_create :
    list Message -> Z -> W -> result (option jsstring) * W;
  images_generate : jsstring -> W -> result (option jsstring) * W;
  audio_speech_create : jsstring -> W -> result jsstring * W
}.

Declare Scope monad_scope.

Delimit Scope monad_scope with monad.

Notation "x <- m ;; k" := (bind m (fun x => k))
  (at level 61, m at next level, right associativity) : monad_scope.

Notation "m ;;; k" := (bind m (fun _ => k))
  (at level 61, right associativity) : monad_scope.

Section Route.

Variable W : Type.

Variable openai : OpenAI W.

Local Open Scope monad_scope.

(** A request to the provider, recorded as an event. *)
Definition call {A} (request : ApiRequest) (f : W -> result A * W)
  : M W A :=
  fun w => let '(r, w') := f w in (r, w', [Call request]).

Definition textInstruction : Message :=
  {| role := system;
     content := js "You are a helpful assistant. Maintain context from the conversation history and provide relevant responses based on the entire discussion." |}.

Definition speechInstruction : Message :=
  {| role := system;
     content := js "Generate a natural, conversational response that maintains context from the entire conversation history. Keep it concise and engaging." |}.

(** [if (!content) throw new Error(NO_RESPONSE)] *)
Definition required (content : option jsstring) : M W jsstring :=
  match content with
  | Some ((_ :: _) as c) => ret c
  | _ => throw (Error ERROR_MESSAGES.NO_RESPONSE)
  end.

Definition generateText (messages : list Message) : M W jsstring :=
  try_catch
    (let conversationWithContext := textInstruction :: messages in
     content <- call (ChatCompletionsCreate conversationWithContext 1000)
                  (chat_completions_create openai conversationWithContext 1000) ;;
     required content)
    (fun error =>
       console_error "Text generation error:" ;;; throw error).

Definition generateImage (prompt : jsstring) : M W jsstring :=
  try_catch
    (let safePrompt :=
       js "Create a safe, appropriate image of: " ++ sanitizePrompt prompt in
     b64 <- call (ImagesGenerate safePrompt)
              (images_generate openai safePrompt) ;;
     base64Image <- required b64 ;;
     ret (js "data:image/png;base64," ++ base64Image))
    (fun error =>
       console_error "Image generation error:" ;;;
       match error with
       | APIError _ code _ =>
           if opt_str_eqb code (js "content_policy_violation")
           then throw (Error ERROR_MESSAGES.CONTENT_POLICY)
           else throw error
       | _ => throw error
       end).

Record Speech := { speech_url : jsstring; speech_text : jsstring }.

Definition generateSpeech (messages : list Message) : M W Speech :=
  try_catch
    (let conversationWithContext := speechInstruction :: messages in
     content <- call (ChatCompletionsCreate conversationWithContext 150)
                  (chat_completions_create openai conversationWithContext 150) ;;
     speechText <- required content ;;
     let cleanText := sanitizePrompt speechText in
     mp3 <- call (AudioSpeechCreate cleanText)
              (audio_speech_create openai cleanText) ;;
     ret {| speech_url := js "data:audio/mp3;base64," ++ mp3;
            speech_text := cleanText |})
    (fun error =>
       console_error "Speech generation error:" ;;; throw error).

Definition error_response (status : Z) (message : jsstring) : Response :=
  {| status := status; body := ErrorBody message |}.

(** The [catch] of the generation block. *)
Definition generationFailure (error : JsError) : Response :=
  match error with
  | APIError error_status code _ =>
      let status :=
        match error_status with
        | Some s => if Z.eqb s 0 then 500%Z else s
        | None => 500%Z
        end in
      let errorMessage := ERROR_MESSAGES.MODEL_ERROR in
      let errorMessage :=
        if opt_Z_eqb error_status 401 then ERROR_MESSAGES.INVALID_API_KEY
        else errorMessage in
      let errorMessage :=
        if opt_Z_eqb error_status 429 then ERROR_MESSAGES.RATE_LIMIT
        else errorMessage in
      if opt_str_eqb code (js "content_policy_violation")
      then error_response 400 ERROR_MESSAGES.CONTENT_POLICY
      else error_response status errorMessage
  | Error message => error_response 500 message
  | Thrown => error_response 500 ERROR_MESSAGES.PROCESSING_ERROR
  end.

(** The generation block of the route: classify, call the routine of the
    class through the retry wrapper, build the response. *)
Definition dispatch (messageText : jsstring) (history : list Message)
  : M W Response :=
  let responseType := determineResponseType messageText in
  let history := history ++ [{| role := user; content := messageText |}] in
  try_catch
    (response <-
       match responseType with
       | image =>
           imageUrl <- retryWithBackoff (generateImage messageText) 0 ;;
           ret (Generated image (js "Here's the image you requested:")
                          (Some imageUrl))
       | audio =>
           audioResult <- retryWithBackoff (generateSpeech history) 0 ;;
           ret (Generated audio (js "Generated speech response:")
                          (Some (speech_url audioResult)))
       | text =>
           textResponse <- retryWithBackoff (generateText history) 0 ;;
           ret (Generated text textResponse None)
       end ;;
     match response with
     | Generated _ [] _ => throw (Error ERROR_MESSAGES.NO_RESPONSE)
     | _ => ret {| status := 200; body := response |}
     end)
    (fun error =>
       console_error "Generation error:" ;;;
       ret (generationFailure error)).

Definition configured (env : Env) : bool :=
  match OPENAI_API_KEY env with
  | Some (_ :: _) => true
  | _ => false
  end.

Definition POST (env : Env) (req : Request) : M W Response :=
  try_catch
    (if negb (configured env)
     then ret (error_response 500 ERROR_MESSAGES.MISSING_API_KEY)
     else
       formData <-
         match req with
         | Unreadable error => throw error
         | Form formData => ret formData
         end ;;
       let message := get (js "message") formData in
       let historyJson := get (js "history") formData in
       match validMessage message with
       | None => ret (error_response 400 ERROR_MESSAGES.INVALID_REQUEST)
       | Some messageText =>
           let '(history, logged) := readHistory historyJson in
           (fun w => (Ok tt, w, logged)) ;;;
           dispatch messageText history
       end)
    (fun error =>
       console_error "Chat API Error:" ;;;
       ret (error_response 500
              match error with
              | APIError _ _ message | Error message => message
              | Thrown => ERROR_MESSAGES.PROCESSING_ERROR
              end)).

End Route.

(** A provider that answers every call at once: a fixed reply to chat
    completions, a fixed image and a fixed recording.  Its world counts
    the calls. *)
Definition steady : OpenAI nat :=
  {| chat_completions_create := fun _ _ w => (Ok (Some (js "Hello!")), S w);
     images_generate := fun _ w => (Ok (Some (js "iVBORw0KGgo=")), S w);
     audio_speech_create := fun _ w => (Ok (js "SUQzBAA="), S w) |}.

Definition production : Env := {| OPENAI_API_KEY := Some (js "sk-test") |}.

(** A server whose key is set to the empty string. *)
Definition unconfigured : Env := {| OPENAI_API_KEY := Some [] |}.

(** [new OpenAI({ apiKey: process.env.OPENAI_API_KEY })] at the top of
    the module: the constructor throws when the variable is not set, and
    the module, with its route, is not loaded; an empty key is accepted. *)
Definition module_loads (env : Env) : bool :=
  match OPENAI_API_KEY env with
  | Some _ => true
  | None => false
  end.

(** What [req.formData()] throws for a body that it cannot read as a
    form. *)
Definition not_a_form : JsError := Error (js "Failed to parse body as FormData.").

(** The requests sent to the provider, in order. *)
Fixpoint calls (l : list event) : list ApiRequest :=
  match l with
  | [] => []
  | Call request :: l' => request :: calls l'
  | _ :: l' => calls l'
  end.

(* ===================================================================== *)
(** * The client session manager ([useChat]) *)
(* ===================================================================== *)

Module Client.

Inductive Sender := from_user | from_assistant.

Inductive MediaType := image_media | audio_media.

Record Media := { media_type : MediaType; media_url : jsstring }.

Record Message := {
  msg_id : jsstring;
  msg_role : Sender;
  msg_content : jsstring;
  msg_media : option Media
}.

(** Dates are milliseconds since the epoch ([getTime]). *)
Record Chat := {
  id : jsstring;
  title : jsstring;
  messages : list Message;
  createdAt : Z;
  updatedAt : Z
}.

(** The state of the hook: [chats], [currentChatId], [isLoading]. *)
Record State := {
  chats : list Chat;
  currentChatId : option jsstring;
  isLoading : bool
}.

Definition initial : State :=
  {| chats := []; currentChatId := None; isLoading := false |}.

(** [File | Blob] *)
Record File := { size : N; type : jsstring }.

(** [chats.find(c => c.id === chatId)] *)
Definition find_chat (chatId : jsstring) (l : list Chat) : option Chat :=
  find (fun c => str_eqb (id c) chatId) l.

Definition currentChat (st : State) : option Chat :=
  match currentChatId st with
  | Some chatId => find_chat chatId (chats st)
  | None => None
  end.

(* --------------------------------------------------------------------- *)
(** ** Titles *)
(* --------------------------------------------------------------------- *)

Definition questionWords : list string :=
  ["what"; "who"; "how"; "why"; "when"; "where"; "can"; "could"; "would";
   "will"; "should"; "is"; "are"; "do"; "does"; "did"]%string.

(** The pattern of [generateChatTitle], a question word at the start,
    [.+?] and a question mark. *)
Definition questionPattern : pattern :=
  [Bol; group questionWords; AnyPlusLazy; Lit (js "?")].

Definition ellipsis : jsstring := js "...".

Definition generateChatTitle (message : jsstring) : jsstring :=
  if Nat.ltb (List.length message) 30 then message
  else
    match match0 questionPattern message with
    | Some questionMatch => slice0 30 questionMatch ++ ellipsis
    | None => join (js " ") (firstn 4 (split_on 32 message)) ++ ellipsis
    end.

(* --------------------------------------------------------------------- *)
(** ** Updates of the chat list *)
(* --------------------------------------------------------------------- *)

(** [Array.prototype.sort] with the comparator
    [(a, b) => b.updatedAt.getTime() - a.updatedAt.getTime()]: the stable
    sort by decreasing [updatedAt]. *)
Fixpoint insert_chat (c : Chat) (l : list Chat) : list Chat :=
  match l with
  | [] => [c]
  | d :: l' =>
      if Z.leb (updatedAt d) (updatedAt c) then c :: d :: l'
      else d :: insert_chat c l'
  end.

Fixpoint sort_chats (l : list Chat) : list Chat :=
  match l with
  | [] => []
  | c :: l' => insert_chat c (sort_chats l')
  end.

(** [createNewChat]: [uuid] is the value of [crypto.randomUUID()],
    [created] and [updated] are the two readings of [new Date()].
    Returns the state after [setChats] and [setCurrentChatId]. *)
Definition createNewChat (uuid : jsstring) (created updated : Z)
  (st : State) : State :=
  let newChat :=
    {| id := uuid; title := js "New Chat"; messages := [];
       createdAt := created; updatedAt := updated |} in
  {| chats := newChat :: chats st;
     currentChatId := Some (id newChat);
     isLoading := isLoading st |}.

(** [removeChat]: the callback compares with the [currentChatId] of its
    render, the updater filters the list. *)
Definition removeChat (chatId : jsstring) (st : State) : State :=
  {| chats := filter (fun chat => negb (str_eqb (id chat) chatId)) (chats st);
     currentChatId :=
       match currentChatId st with
       | Some current => if str_eqb current chatId then None else Some current
       | None => None
       end;
     isLoading := isLoading st |}.

Definition setCurrentChatId (chatId : option jsstring) (st : State) : State :=
  {| chats := chats st; currentChatId := chatId; isLoading := isLoading st |}.

(** The first updater of [sendMessage]: append the user message to the
    chats called [chatId], title them if they were empty, stamp them with
    [now] and sort. *)
Definition appendUserMessage (chatId : jsstring) (newMessage : Message)
  (message : jsstring) (now : Z) (prev : list Chat) : list Chat :=
  let updatedChats :=
    map (fun chat =>
           if str_eqb (id chat) chatId
           then {| id := id chat;
                   title := match messages chat with
                            | [] => generateChatTitle message
                            | _ :: _ => title chat
                            end;
                   messages := messages chat ++ [newMessage];
                   createdAt := createdAt chat;
                   updatedAt := now |}
           else chat) prev in
  sort_chats updatedChats.

(** What the route answered, as the client reads it: [data.type],
    [data.content], [data.url]. *)
Record Data := {
  data_type : ResponseType;
  data_content : jsstring;
  data_url : jsstring
}.

(** The second updater of [sendMessage]: append the assistant message. *)
Definition appendAssistantMessage (chatId : jsstring) (uuid : jsstring)
  (data : Data) (now : Z) (prev : list Chat) : list Chat :=
  let updatedChats :=
    map (fun chat =>
           if str_eqb (id chat) chatId
           then
             let assistantMessage :=
               {| msg_id := uuid;
                  msg_role := from_assistant;
                  msg_content := data_content data;
                  msg_media :=
                    match data_type data with
                    | image => Some {| media_type := image_media;
                                       media_url := data_url data |}
                    | audio => Some {| media_type := audio_media;
                                       media_url := data_url data |}
                    | text => None
                    end |} in
             {| id := id chat;
                title := title chat;
                messages := messages chat ++ [assistantMessage];
                createdAt := createdAt chat;
                updatedAt := now |}
           else chat) prev in
  sort_chats updatedChats.

(* --------------------------------------------------------------------- *)
(** ** Sending *)
(* --------------------------------------------------------------------- *)

(** What the environment hands to one call of [sendMessage]: the UUID and
    the two dates of a chat created on the way, the UUID of the user
    message, the object URL of the attachment, the date of the update. *)
Record Draws := {
  chat_uuid : jsstring;
  chat_created : Z;
  chat_updated : Z;
  message_uuid : jsstring;
  object_url : jsstring;
  sent_at : Z
}.

(** [newMessage], with its [media] when a file is attached. *)
Definition newMessage (message : jsstring) (file : option File) (d : Draws)
  : Message :=
  {| msg_id := message_uuid d;
     msg_role := from_user;
     msg_content := message;
     msg_media :=
       match file with
       | Some f =>
           Some {| media_type :=
                     if startsWith (js "image/") (type f)
                     then image_media else audio_media;
                   media_url := object_url d |}
       | None => None
       end |}.

(** The [FormData] handed to [fetch]: the message as [append] stores
    it, the value that goes through [JSON.stringify], the file. *)
Record Submission := {
  form_message : jsstring;
  form_history : list (Sender * jsstring);
  form_file : option File
}.

(** How the synchronous part of [sendMessage] ends. *)
Inductive Outcome :=
| Rejected (notice : jsstring)      (* toast.error(...); return *)
| Dropped                           (* if (!chat) return *)
| Fetching (chatId : jsstring) (body : Submission).  (* await fetch(...) *)

Definition sizeLimit : N := 10 * 1024 * 1024.

(** [sendMessage] up to its first [await].  The callback reads [chats]
    and [currentChatId] of the render that made it, here [st]; what
    [setChats] and [setCurrentChatId] do goes to the returned state. *)
Definition sendMessage (st : State) (message : jsstring)
  (file : option File) (d : Draws) : State * Outcome :=
  match trim message, file with
  | [], None => (st, Rejected (js "Please enter a message or upload a file"))
  | _, _ =>
      let '(chatId, st1) :=
        match currentChatId st with
        | Some ((_ :: _) as current) => (current, st)
        | _ => (chat_uuid d,
                createNewChat (chat_uuid d) (chat_created d) (chat_updated d)
                              st)
        end in
      match find_chat chatId (chats st) with
      | None => (st1, Dropped)
      | Some chat =>
          let history :=
            map (fun msg => (msg_role msg, msg_content msg)) (messages chat) in
          let too_large :=
            match file with
            | Some f => N.ltb sizeLimit (size f)
            | None => false
            end in
          if too_large
          then (st1, Rejected (js "File size exceeds 10MB limit"))
          else
            ({| chats := appendUserMessage chatId (newMessage message file d)
                           message (sent_at d) (chats st1);
                currentChatId := currentChatId st1;
                isLoading := true |},
             Fetching chatId
               {| form_message := toUSVString message;
                  form_history := history;
                  form_file := file |})
      end
  end.

(** What [fetch] and [response.json()] come to. *)
Inductive Reply :=
| Success (data : Data)
| Failure (notice : jsstring).

(** [sendMessage] after the reply: the second updater on a success, a
    toast on a failure, [setIsLoading(false)] in both cases. *)
Definition receiveReply (chatId : jsstring) (reply : Reply)
  (uuid : jsstring) (now : Z) (st : State) : State :=
  {| chats :=
       match reply with
       | Success data => appendAssistantMessage chatId uuid data now (chats st)
       | Failure _ => chats st
       end;
     currentChatId := currentChatId st;
     isLoading := false |}.

(* --------------------------------------------------------------------- *)
(** ** The order of the chat list *)
(* --------------------------------------------------------------------- *)



(** [currentChatId] is a chat id: a send creates no chat. *)
Definition selected (st : State) : bool :=
  match currentChatId st with
  | Some (_ :: _) => true
  | _ => false
  end.

(** The claim's wording for question titles: the prefix of the message up
    to its first occurrence of [x]. *)
Fixpoint up_to_first (x : code_unit) (s : jsstring) : jsstring :=
  match s with
  | [] => []
  | c :: s' => if cu_eqb c x then [c] else c :: up_to_first x s'
  end.

Definition question_mark : code_unit := 63%N.

(** The claim's wording, amended.  The words that open a question; the
    pattern also lists [does], which [do] covers. *)
Definition question_openers : list string :=
  ["what"; "who"; "how"; "why"; "when"; "where"; "can"; "could"; "would";
   "will"; "should"; "is"; "are"; "do"; "did"]%string.

(** [message] opens with the question [question]: one of the words, in
    any case, at least one more character, and then, with no line break in
    between, the first question mark behind that character. *)
Definition opens_with_question (message question : jsstring) : Prop :=
  exists w kw c rest_of_question rest,
    In w question_openers
    /\ map canonicalize kw = map canonicalize (js w)
    /\ message = kw ++ c :: rest_of_question ++ question_mark :: rest
    /\ question = kw ++ c :: rest_of_question ++ [question_mark]
    /\ Forall (fun x => is_line_terminator x = false)
              (c :: rest_of_question)
    /\ ~ In question_mark rest_of_question.

(** One of two words begins with the other, in any case. *)
Definition comparable (a b : jsstring) : bool :=
  startsWith (map canonicalize a) (map canonicalize b)
  || startsWith (map canonicalize b) (map canonicalize a).

(** [w] is in [ws], and no alternative before it can match where [w]
    matches. *)
Fixpoint first_choice (w : jsstring) (ws : list jsstring) : bool :=
  match ws with
  | [] => false
  | x :: rest =>
      if str_eqb x w then true
      else negb (comparable x w) && first_choice w rest
  end.


(* --------------------------------------------------------------------- *)
(** ** Sample data *)
(* --------------------------------------------------------------------- *)

Definition draws0 : Draws :=
  {| chat_uuid := js "chat-1"; chat_created := 1000; chat_updated := 1000;
     message_uuid := js "msg-1"; object_url := js "blob:1";
     sent_at := 1001 |}.

Definition draws1 : Draws :=
  {| chat_uuid := js "chat-2"; chat_created := 2000; chat_updated := 2000;
     message_uuid := js "msg-2"; object_url := js "blob:2";
     sent_at := 2001 |}.

Definition one_empty_chat : State :=
  {| chats := [{| id := js "chat-1"; title := js "New Chat"; messages := [];
                  createdAt := 1000; updatedAt := 1000 |}];
     currentChatId := Some (js "chat-1");
     isLoading := false |}.

Definition big_file : File :=
  {| size := 11 * 1024 * 1024; type := js "image/png" |}.

(* --------------------------------------------------------------------- *)
(** ** Vocabulary of the further properties *)
(* --------------------------------------------------------------------- *)

(** [currentChatId || createNewChat()]: the id that a send writes to. *)
Definition sendTarget (st : State) (d : Draws) : jsstring :=
  match currentChatId st with
  | Some ((_ :: _) as current) => current
  | _ => chat_uuid d
  end.

(** [a] begins with [b]. *)
Definition begins_with (a b : jsstring) : Prop := exists rest, a = b ++ rest.

End Client.

(* ===================================================================== *)
(** * Vocabulary of the further properties *)
(* ===================================================================== *)

(** The characters that [sanitizePrompt] keeps: the complement of the
    class [[^\w\s.,!?'-]]. *)
Definition kept_by_sanitizer (c : code_unit) : bool :=
  is_word_char c || is_space c || existsb (cu_eqb c) (js ".,!?'-").

(** Neither the first nor the last code unit is white space. *)
Definition trimmed (s : jsstring) : Prop :=
  match s with [] => True | c :: _ => is_space c = false end
  /\ match rev s with [] => True | c :: _ => is_space c = false end.

(** A string that travels unchanged from [FormData.append] to
    [req.formData()]: every surrogate is part of a pair and there is no
    CR and no LF. *)
Inductive wire_safe : jsstring -> Prop :=
| wire_safe_nil : wire_safe []
| wire_safe_unit c s :
    is_surrogate c = false -> cu_eqb c 13 = false -> cu_eqb c 10 = false ->
    wire_safe s -> wire_safe (c :: s)
| wire_safe_pair h l s :
    is_high_surrogate h = true -> is_low_surrogate l = true ->
    wire_safe s -> wire_safe (h :: l :: s).

(** A code unit below the surrogates that is no CR and no LF. *)
Definition plain (c : code_unit) : bool :=
  (N.ltb c 55296) && negb (cu_eqb c 13) && negb (cu_eqb c 10).

(** The text of a form entry as the route receives it: converted by
    [append], encoded with normalized newlines as UTF-8, and decoded.  (A
    parser may drop a byte order mark at the head of a value; the route
    reads the message through [trim], which removes it in any case.) *)
Definition received (value : jsstring) : jsstring :=
  normalize_newlines (toUSVString value).

(** [error.message] as the outer [catch] of the route reads it. *)
Definition message_of (error : JsError) : jsstring :=
  match error with
  | APIError _ _ message | Error message => message
  | Thrown => ERROR_MESSAGES.PROCESSING_ERROR
  end.

(** What the wrapper makes of the result of its last attempt, made with
    [retryCount = k]: a success and an error on a spent budget pass, an
    error of the three special kinds is replaced. *)
Definition surfaced {T} (k : nat) (r : result T) : result T :=
  match r with
  | Ok v => Ok v
  | Throw e =>
      if Nat.leb RETRY_OPTIONS.maxRetries k then Throw e
      else match nonRetryable e with
           | Some specific => Throw specific
           | None => Throw e
           end
  end.

(** The time spent waiting, in milliseconds. *)
Definition total_wait (l : list event) : Z := fold_right Z.add 0%Z (waits l).

(** What the route logs with [console.error]. *)
Definition text_failed : event := ConsoleError (js "Text generation error:").
Definition image_failed : event := ConsoleError (js "Image generation error:").
Definition speech_failed : event := ConsoleError (js "Speech generation error:").
Definition generation_failed : event := ConsoleError (js "Generation error:").

(** The shape of a generated body for its class. *)
Definition well_formed (type : ResponseType) (content : jsstring)
  (url : option jsstring) : Prop :=
  content <> []
  /\ match type with
     | text => url = None
     | image =>
         content = js "Here's the image you requested:"
         /\ exists b, b <> []
                      /\ url = Some (js "data:image/png;base64," ++ b)
     | audio =>
         content = js "Generated speech response:"
         /\ exists b, url = Some (js "data:audio/mp3;base64," ++ b)
     end.

(** The requests that the route may send for a message and a history:
    a chat completion on one of its two instructions, the history and the
    user turn; an image generation on the fixed preamble and the sanitized
    message; a speech synthesis on a sanitized text. *)
Definition route_request (messageText : jsstring) (history : list Message)
  (request : ApiRequest) : Prop :=
  let turn := {| role := user; content := messageText |} in
  match request with
  | ChatCompletionsCreate messages max_tokens =>
      (messages = textInstruction :: history ++ [turn]
       /\ max_tokens = 1000%Z)
      \/ (messages = speechInstruction :: history ++ [turn]
          /\ max_tokens = 150%Z)
  | ImagesGenerate prompt =>
      prompt = js "Create a safe, appropriate image of: "
               ++ sanitizePrompt messageText
  | AudioSpeechCreate input => exists reply, input = sanitizePrompt reply
  end.

(** A provider without credit: every chat completion is answered with
    status 429. *)
Definition throttled : OpenAI nat :=
  {| chat_completions_create := fun _ _ w => (Throw rate_limited, S w);
     images_generate := fun _ w => (Throw rate_limited, S w);
     audio_speech_create := fun _ w => (Throw rate_limited, S w) |}.

(** A provider that refuses every image for its content and whose chat
    completions fail three times before they are refused. *)
Definition strict : OpenAI nat :=
  {| chat_completions_create :=
       fun _ _ w => (Throw (if Nat.ltb w 3 then boom else unauthorized), S w);
     images_generate := fun _ w => (Throw policy_violation, S w);
     audio_speech_create := fun _ w => (Throw policy_violation, S w) |}.

(** The texts of [ERROR_MESSAGES] that the route sends. *)
Definition sent_texts : list jsstring :=
  [ERROR_MESSAGES.MISSING_API_KEY; ERROR_MESSAGES.INVALID_REQUEST;
   ERROR_MESSAGES.NO_RESPONSE; ERROR_MESSAGES.MODEL_ERROR;
   ERROR_MESSAGES.RATE_LIMIT; ERROR_MESSAGES.INVALID_API_KEY;
   ERROR_MESSAGES.CONTENT_POLICY].

(** [error instanceof OpenAI.APIError] *)
Definition is_api_error (error : JsError) : Prop :=
  match error with
  | APIError _ _ _ => True
  | _ => False
  end.

(** A provider whose calls fail with API errors only. *)
Definition api_errors_only {W} (openai : OpenAI W) : Prop :=
  (forall messages max_tokens w e w',
      chat_completions_create openai messages max_tokens w = (Throw e, w') ->
      is_api_error e)
  /\ (forall prompt w e w',
      images_generate openai prompt w = (Throw e, w') -> is_api_error e)
  /\ (forall input w e w',
      audio_speech_create openai input w = (Throw e, w') -> is_api_error e).

(** An error whose text the catch blocks of the route take from the
    table: an API error, or a plain error that carries a text of the
    table. *)
Definition tabled (error : JsError) : Prop :=
  is_api_error error
  \/ exists message, error = Error message /\ In message sent_texts.

(* ===================================================================== *)
(** * From the client to the route: [JSON.stringify] and the form *)
(* ===================================================================== *)

Module Stringify.

Local Open Scope N_scope.

Definition hex_digit (d : N) : code_unit :=
  if d <? 10 then 48 + d else 87 + d.

(** UnicodeEscape: [\uXXXX] in lower-case hexadecimal. *)
Definition unicode_escape (c : code_unit) : jsstring :=
  [92; 117; hex_digit (c / 4096); hex_digit ((c / 256) mod 16);
   hex_digit ((c / 16) mod 16); hex_digit (c mod 16)].

(** One code point of QuoteJSONString that is no surrogate pair. *)
Definition escape_one (c : code_unit) : jsstring :=
  if cu_eqb c 8 then [92; 98]
  else if cu_eqb c 9 then [92; 116]
  else if cu_eqb c 10 then [92; 110]
  else if cu_eqb c 12 then [92; 102]
  else if cu_eqb c 13 then [92; 114]
  else if cu_eqb c 34 then [92; 34]
  else if cu_eqb c 92 then [92; 92]
  else if (c <? 32) || is_high_surrogate c || is_low_surrogate c
       then unicode_escape c
  else [c].

(** The characters of QuoteJSONString between the quotes: a surrogate
    pair is one code point and is copied, a lone surrogate is escaped. *)
Fixpoint quote_chars (s : jsstring) : jsstring :=
  match s with
  | [] => []
  | c :: rest =>
      match rest with
      | d :: s' =>
          if is_high_surrogate c && is_low_surrogate d
          then c :: d :: quote_chars s'
          else escape_one c ++ quote_chars rest
      | [] => escape_one c
      end
  end.

(** [JSON.stringify(s)] for a string *)
Definition quote (s : jsstring) : jsstring := 34 :: quote_chars s ++ [34].

Definition role_text (r : Client.Sender) : jsstring :=
  match r with
  | Client.from_user => js "user"
  | Client.from_assistant => js "assistant"
  end.

(** [JSON.stringify({ role, content })] *)
Definition entry (e : Client.Sender * jsstring) : jsstring :=
  jsq "{'role':" ++ quote (role_text (fst e))
  ++ jsq ",'content':" ++ quote (snd e) ++ js "}".

(** [JSON.stringify(history)] *)
Definition stringify (history : list (Client.Sender * jsstring)) : jsstring :=
  js "[" ++ join (js ",") (map entry history) ++ js "]".

End Stringify.

(** The form of [sendMessage] as [req.formData()] returns it to the
    route: [message], [history] and, with an attachment, [file].  Both
    texts are USVStrings, sent as UTF-8 with their newlines normalized. *)
Definition formData_of (b : Client.Submission) : FormData :=
  (js "message", FString (normalize_newlines (Client.form_message b)))
  :: (js "history",
      FString (normalize_newlines
                 (toUSVString
                    (Stringify.stringify (Client.form_history b)))))
  :: match Client.form_file b with
     | Some f => [(js "file", FFile (Client.size f))]
     | None => []
     end.

(** The history as the route holds it. *)
Definition route_history (h : list (Client.Sender * jsstring))
  : list Message :=
  map (fun e => {| role := match fst e with
                           | Client.from_user => user
                           | Client.from_assistant => assistant
                           end;
                   content := snd e |}) h.

(** The value that [JSON.parse] builds for an entry of the history. *)
Definition entry_value (e : Client.Sender * jsstring) : json :=
  JObject [(js "role", JString (Stringify.role_text (fst e)));
           (js "content", JString (snd e))].

(** The text of the entries of an array after its opening bracket, up to
    and with the closing bracket, and then [rest]. *)
Fixpoint entries_text (e : Client.Sender * jsstring)
  (more : list (Client.Sender * jsstring)) (rest : jsstring) : jsstring :=
  Stringify.entry e
  ++ match more with
     | [] => 93%N :: rest
     | e' :: more' => 44%N :: entries_text e' more' rest
     end.

(* ===================================================================== *)
(** * The input box ([ChatInput]), the caller of [sendMessage] *)
(* ===================================================================== *)

Module ChatInput.

(** The state of the component that matters to a send: [input],
    [mediaFile], [preview]. *)
Record InputState := {
  input : jsstring;
  mediaFile : option Client.File;
  preview : option jsstring
}.

Definition uploadLimit : N := 5 * 1024 * 1024.

(** [handleFileChange]: the file picked, if any.  The preview arrives
    later, when the reader has loaded the file.  Returns the state and the
    toast. *)
Definition handleFileChange (file : option Client.File) (st : InputState)
  : InputState * option jsstring :=
  match file with
  | None => (st, None)
  | Some f =>
      if N.ltb uploadLimit (Client.size f)
      then (st, Some (js "File size exceeds 5MB limit"))
      else ({| input := input st; mediaFile := Some f;
               preview := preview st |}, None)
  end.

(** [mediaRecorder.onstop]: the recording becomes the attachment. *)
Definition recordingStopped (blob : Client.File) (st : InputState)
  : InputState :=
  {| input := input st; mediaFile := Some blob; preview := preview st |}.

(** [clearMedia] *)
Definition clearMedia (st : InputState) : InputState :=
  {| input := input st; mediaFile := None; preview := None |}.

(** [handleSubmit]: the state after it and the arguments of [onSend],
    when it is called. *)
Definition handleSubmit (isLoading : bool) (st : InputState)
  : InputState * option (jsstring * option Client.File) :=
  let has_text := match trim (input st) with [] => false | _ :: _ => true end in
  let has_file := match mediaFile st with Some _ => true | None => false end in
  if (has_text || has_file) && negb isLoading
  then ({| input := []; mediaFile := None; preview := None |},
        Some (input st, mediaFile st))
  else (st, None).

End ChatInput.

(** The two toasts with which [sendMessage] turns a call away. *)
Definition empty_notice : jsstring :=
  js "Please enter a message or upload a file".

Definition size_notice : jsstring := js "File size exceeds 10MB limit".

(** The outcome of a send is no rejection. *)
Definition accepted (o : Client.Outcome) : Prop :=
  o = Client.Dropped \/ exists chatId body, o = Client.Fetching chatId body.

Definition small_file : Client.File :=
  {| Client.size := 2048; Client.type := js "image/png" |}.

(* ===================================================================== *)
(** * Properties of the classifier *)
(* ===================================================================== *)

Example classify_draw :
  determineResponseType (js "Draw a picture of a cat") = image.
Proof. vm_compute. reflexivity. Qed.

Example classify_say :
  determineResponseType (js "Please say hello to the world") = audio.
Proof. vm_compute. reflexivity. Qed.

Example classify_plain :
  determineResponseType (js "What is the capital of France?") = text.
Proof. vm_compute. reflexivity. Qed.

Example classify_both :
  determineResponseType (js "create a picture of the sound") = audio.
Proof. vm_compute. reflexivity. Qed.

Example classify_word_boundary :
  determineResponseType (js "essay about drawings") = text.
Proof. vm_compute. reflexivity. Qed.

Lemma for_patterns_existsb patterns s hit next :
  for_patterns patterns s hit next =
  if matches_any patterns s then hit else next.
Proof.
  unfold matches_any.
  induction patterns as [| p rest IH]; simpl; [reflexivity |].
  destruct (test p s); simpl; [reflexivity | exact IH].
Qed.

(** C1. The classifier answers [audio] when an audio pattern matches the
    lower-cased input, else [image] when an image pattern matches it, else
    [text]; hence it answers [audio] whenever both groups match and [text]
    whenever neither does. *)
Theorem determineResponseType_spec (prompt : jsstring) :
  let s := toLowerCase prompt in
  determineResponseType prompt =
    (if matches_any audioPatterns s then audio
     else if matches_any imagePatterns s then image else text)
  /\ (matches_any audioPatterns s = true ->
      matches_any imagePatterns s = true ->
      determineResponseType prompt = audio)
  /\ (matches_any audioPatterns s = false ->
      matches_any imagePatterns s = false ->
      determineResponseType prompt = text).
Proof.
  intros s.
  assert (E : determineResponseType prompt =
              if matches_any audioPatterns s then audio
              else if matches_any imagePatterns s then image else text).
  { unfold determineResponseType. fold s.
    now rewrite !for_patterns_existsb. }
  split; [exact E |].
  split; intros Ha Hi; rewrite E, Ha; [reflexivity |].
  now rewrite Hi.
Qed.

Lemma determineResponseType_spec_witness :
  matches_any audioPatterns (toLowerCase (js "create a picture of the sound")) = true
  /\ matches_any imagePatterns (toLowerCase (js "create a picture of the sound")) = true
  /\ determineResponseType (js "create a picture of the sound") = audio.
Proof.
  split; [vm_compute; reflexivity |].
  split; [vm_compute; reflexivity |].
  apply (determineResponseType_spec (js "create a picture of the sound"));
    vm_compute; reflexivity.
Defined.

(* ===================================================================== *)
(** * Properties of the retry wrapper *)
(* ===================================================================== *)

(** ** One attempt of the wrapper *)

Section RetrySteps.

Variables (W T : Type) (operation : M W T).

Lemma retry_ok retryCount w v w1 l1 :
  operation w = (Ok v, w1, l1) ->
  retryWithBackoff operation retryCount w = (Ok v, w1, l1).
Proof.
  intros H. funelim (retryWithBackoff operation retryCount w); congruence.
Qed.

Lemma retry_exhausted retryCount w error w1 l1 :
  operation w = (Throw error, w1, l1) ->
  RETRY_OPTIONS.maxRetries <= retryCount ->
  retryWithBackoff operation retryCount w = (Throw error, w1, l1).
Proof.
  intros H Hn. funelim (retryWithBackoff operation retryCount w);
    try congruence; lia.
Qed.

Lemma retry_abort retryCount w error specific w1 l1 :
  operation w = (Throw error, w1, l1) ->
  retryCount < RETRY_OPTIONS.maxRetries ->
  nonRetryable error = Some specific ->
  retryWithBackoff operation retryCount w = (Throw specific, w1, l1).
Proof.
  intros H Hn Hs. funelim (retryWithBackoff operation retryCount w);
    try congruence; lia.
Qed.

Lemma retry_again retryCount w error w1 l1 :
  operation w = (Throw error, w1, l1) ->
  retryCount < RETRY_OPTIONS.maxRetries ->
  nonRetryable error = None ->
  retryWithBackoff operation retryCount w =
  let '(r, w2, l2) := retryWithBackoff operation (S retryCount) w1 in
  (r, w2, l1 ++ Wait (delay retryCount) :: l2).
Proof.
  intros H Hn Hs.
  rewrite (retryWithBackoff_equation_1 operation retryCount w), H.
  cbn -[le_lt_dec retryWithBackoff delay].
  destruct (le_lt_dec RETRY_OPTIONS.maxRetries retryCount); [lia |].
  cbn -[le_lt_dec retryWithBackoff delay]. rewrite Hs. reflexivity.
Qed.

End RetrySteps.

Arguments retry_ok {W T} operation retryCount {w v w1 l1} _.

Arguments retry_exhausted {W T} operation retryCount {w error w1 l1} _ _.

Arguments retry_abort {W T} operation retryCount {w error specific w1 l1} _ _ _.

Arguments retry_again {W T} operation retryCount {w error w1 l1} _ _ _.

(** ** Runs of the wrapper *)

Lemma waits_app l1 l2 : waits (l1 ++ l2) = waits l1 ++ waits l2.
Proof.
  induction l1 as [| ev l1 IH]; simpl; [reflexivity |].
  destruct ev; simpl; now rewrite IH.
Qed.

Lemma waits_retry_log fs :
  Forall (fun f => waits (snd f) = []) fs ->
  forall n, waits (retry_log n fs) = map backoff (seq n (List.length fs)).
Proof.
  induction 1 as [| [e l] fs Hl _ IH]; intros n; simpl; [reflexivity |].
  simpl in Hl. rewrite waits_app, Hl. simpl. now rewrite IH.
Qed.

Lemma delay_backoff n : delay n = backoff n.
Proof. reflexivity. Qed.

Section RetryRuns.

Variables (W T : Type) (op : M W T).

Lemma retry_run fs : forall n w w1,
  n + List.length fs <= RETRY_OPTIONS.maxRetries ->
  Forall retryable fs ->
  fails op w fs w1 ->
  retryWithBackoff op n w =
  let '(r, w2, l2) := retryWithBackoff op (n + List.length fs) w1 in
  (r, w2, retry_log n fs ++ l2).
Proof.
  induction fs as [| [e l] fs' IH]; intros n w w1 Hn Hr Hf.
  - inversion Hf; subst. simpl. rewrite Nat.add_0_r.
    now destruct (retryWithBackoff op n w1) as [[r w2] l2].
  - inversion Hf as [| ? ? ? wa ? ? Hop Hrest]; subst.
    inversion Hr as [| ? ? He Hr']; subst. simpl in Hn.
    rewrite (retry_again op n Hop); [| lia | exact He].
    rewrite (IH (S n) wa w1); [| lia | exact Hr' | exact Hrest].
    simpl List.length. rewrite Nat.add_succ_r. simpl Nat.add.
    destruct (retryWithBackoff op (S (n + List.length fs')) w1)
      as [[r w2] l2].
    simpl. rewrite delay_backoff, <- app_assoc. reflexivity.
Qed.

End RetryRuns.

Arguments retry_run {W T} op {fs} n {w w1} _ _ _.

(** C2. An operation that fails [k <= 3] times with retryable errors and
    then succeeds: the wrapper returns that success after exactly [k]
    waits, the wait before retry [n] being [min (1000 * 2^n) 5000]
    milliseconds.  An operation that fails on all four attempts: the
    wrapper stops after the fourth and throws the fourth error. *)
Theorem retryWithBackoff_bounded W T (op : M W T) w fs w1 :
  Forall retryable fs ->
  fails op w fs w1 ->
  (forall v w2 l,
      List.length fs <= 3 ->
      op w1 = (Ok v, w2, l) ->
      retryWithBackoff op 0 w = (Ok v, w2, retry_log 0 fs ++ l))
  /\ (forall e w2 l,
      List.length fs = 3 ->
      op w1 = (Throw e, w2, l) ->
      retryWithBackoff op 0 w = (Throw e, w2, retry_log 0 fs ++ l))
  /\ (Forall (fun f => waits (snd f) = []) fs ->
      waits (retry_log 0 fs) =
      map (fun n => Z.min (1000 * 2 ^ Z.of_nat n) 5000)
          (seq 0 (List.length fs))).
Proof.
  intros Hr Hf. split; [| split].
  - intros v w2 l Hk Hop.
    rewrite (retry_run op 0 Hk Hr Hf). simpl Nat.add.
    now rewrite (retry_ok op _ Hop).
  - intros e w2 l Hk Hop.
    rewrite (retry_run op 0 (Nat.eq_le_incl _ _ Hk) Hr Hf). simpl Nat.add.
    rewrite (retry_exhausted op _ Hop); [reflexivity |].
    rewrite Hk. apply Nat.le_refl.
  - intros Hw. now rewrite (waits_retry_log Hw).
Qed.

Lemma retryWithBackoff_bounded_witness :
  retryWithBackoff (scripted [Throw boom; Throw boom] (Ok 7%nat)) 0 0%nat
    = (Ok 7%nat, 3%nat, [Wait 1000; Wait 2000])
  /\ retryWithBackoff (scripted [] (@Throw nat boom)) 0 0%nat
    = (Throw boom, 4%nat, [Wait 1000; Wait 2000; Wait 4000]).
Proof.
  split.
  - apply (@retryWithBackoff_bounded nat nat
             (scripted [Throw boom; Throw boom] (Ok 7%nat)) 0%nat
             [(boom, []); (boom, [])] 2%nat).
    + repeat constructor.
    + repeat (econstructor; [reflexivity |]). constructor.
    + simpl. lia.
    + reflexivity.
  - apply (@retryWithBackoff_bounded nat nat
             (scripted [] (@Throw nat boom)) 0%nat
             [(boom, []); (boom, []); (boom, [])] 3%nat).
    + repeat constructor.
    + repeat (econstructor; [reflexivity |]). constructor.
    + reflexivity.
    + reflexivity.
Defined.

Lemma nonRetryable_cases status code message :
  (status = Some 401%Z ->
   nonRetryable (APIError status code message)
   = Some (Error ERROR_MESSAGES.INVALID_API_KEY))
  /\ (status = Some 429%Z ->
      nonRetryable (APIError status code message)
      = Some (Error ERROR_MESSAGES.RATE_LIMIT))
  /\ (status <> Some 401%Z -> status <> Some 429%Z ->
      code = Some (js "content_policy_violation") ->
      nonRetryable (APIError status code message)
      = Some (Error ERROR_MESSAGES.CONTENT_POLICY)).
Proof.
  repeat split.
  - intros ->. reflexivity.
  - intros ->. reflexivity.
  - intros H1 H2 ->. unfold nonRetryable.
    assert (E1 : opt_Z_eqb status 401 = false).
    { destruct status as [z |]; simpl; [| reflexivity].
      apply Z.eqb_neq. congruence. }
    assert (E2 : opt_Z_eqb status 429 = false).
    { destruct status as [z |]; simpl; [| reflexivity].
      apply Z.eqb_neq. congruence. }
    rewrite E1, E2. reflexivity.
Qed.

(** The specific error is never the provider's own error. *)
Lemma nonRetryable_changes error specific :
  nonRetryable error = Some specific -> specific <> error.
Proof.
  destruct error as [status code message | message |]; simpl;
    try discriminate.
  destruct (opt_Z_eqb status 401); [intros [= <-]; discriminate |].
  destruct (opt_Z_eqb status 429); [intros [= <-]; discriminate |].
  destruct (opt_str_eqb code _); [intros [= <-] |]; discriminate.
Qed.

(** C3, as stated, fails: an HTTP 401 from the provider on the fourth
    attempt reaches the caller as the provider's error, not as the
    invalid-credentials error. *)
Lemma retry_401_on_last_attempt_unmapped :
  let op := scripted [Throw boom; Throw boom; Throw boom]
                     (@Throw nat unauthorized) in
  op 3%nat = (Throw unauthorized, 4%nat, [])
  /\ retryWithBackoff op 0 0%nat
     = (Throw unauthorized, 4%nat, [Wait 1000; Wait 2000; Wait 4000])
  /\ fst (fst (retryWithBackoff op 0 0%nat))
     <> Throw (Error ERROR_MESSAGES.INVALID_API_KEY).
Proof.
  cbv zeta. split; [reflexivity |]. split; [reflexivity |].
  vm_compute. discriminate.
Qed.

(** C3, amended. A provider error with status 401, status 429 or code
    content_policy_violation on one of the first three attempts ends the
    wrapper at once: no wait and no attempt follows, and the
    invalid-credentials, rate-limit or content-policy error is thrown. *)
Theorem retryWithBackoff_short_circuit W T (op : M W T) w fs w1
    status code message w2 l :
  List.length fs < 3 ->
  Forall retryable fs ->
  fails op w fs w1 ->
  op w1 = (Throw (APIError status code message), w2, l) ->
  (status = Some 401%Z ->
   retryWithBackoff op 0 w
   = (Throw (Error ERROR_MESSAGES.INVALID_API_KEY), w2, retry_log 0 fs ++ l))
  /\ (status = Some 429%Z ->
      retryWithBackoff op 0 w
      = (Throw (Error ERROR_MESSAGES.RATE_LIMIT), w2, retry_log 0 fs ++ l))
  /\ (status <> Some 401%Z -> status <> Some 429%Z ->
      code = Some (js "content_policy_violation") ->
      retryWithBackoff op 0 w
      = (Throw (Error ERROR_MESSAGES.CONTENT_POLICY), w2,
         retry_log 0 fs ++ l)).
Proof.
  intros Hk Hr Hf Hop.
  assert (Hrun : forall specific,
             nonRetryable (APIError status code message) = Some specific ->
             retryWithBackoff op 0 w
             = (Throw specific, w2, retry_log 0 fs ++ l)).
  { intros specific Hs.
    rewrite (retry_run op 0 (Nat.lt_le_incl _ _ Hk) Hr Hf). simpl Nat.add.
    now rewrite (retry_abort op _ Hop Hk Hs). }
  destruct (nonRetryable_cases status code message) as (H1 & H2 & H3).
  repeat split; intros; apply Hrun; auto.
Qed.

Lemma retryWithBackoff_short_circuit_witness :
  retryWithBackoff (scripted [Throw boom] (@Throw nat rate_limited)) 0 0%nat
  = (Throw (Error ERROR_MESSAGES.RATE_LIMIT), 2%nat, [Wait 1000]).
Proof.
  apply (@retryWithBackoff_short_circuit nat nat
           (scripted [Throw boom] (@Throw nat rate_limited)) 0%nat
           [(boom, [])] 1%nat (Some 429%Z)
           (Some (js "rate_limit_exceeded")) (js "Rate limit reached.")
           2%nat []).
  - simpl. lia.
  - repeat constructor.
  - econstructor; [reflexivity | constructor].
  - reflexivity.
  - reflexivity.
Defined.

(** C9. When the budget is spent, nothing is mapped: a provider error with
    status 401, status 429 or code content_policy_violation on the fourth
    attempt is thrown again as it is, and it differs from the specific
    error that an earlier attempt would have produced. *)
Theorem retryWithBackoff_last_attempt_rethrows W T (op : M W T) w fs w1
    error specific w2 l :
  List.length fs = 3 ->
  Forall retryable fs ->
  fails op w fs w1 ->
  op w1 = (Throw error, w2, l) ->
  nonRetryable error = Some specific ->
  retryWithBackoff op 0 w = (Throw error, w2, retry_log 0 fs ++ l)
  /\ specific <> error
  /\ retryWithBackoff op RETRY_OPTIONS.maxRetries w1 = (Throw error, w2, l)
  /\ (forall retryCount, retryCount < RETRY_OPTIONS.maxRetries ->
      retryWithBackoff op retryCount w1 = (Throw specific, w2, l)).
Proof.
  intros Hk Hr Hf Hop Hs. repeat split.
  - rewrite (retry_run op 0 (Nat.eq_le_incl _ _ Hk) Hr Hf). simpl Nat.add.
    rewrite (retry_exhausted op _ Hop); [reflexivity |].
    rewrite Hk. apply Nat.le_refl.
  - exact (@nonRetryable_changes error specific Hs).
  - apply (retry_exhausted op _ Hop). apply Nat.le_refl.
  - intros n Hn. exact (retry_abort op n Hop Hn Hs).
Qed.

Lemma retryWithBackoff_last_attempt_rethrows_witness :
  retryWithBackoff
    (scripted [Throw boom; Throw boom; Throw boom]
              (@Throw nat policy_violation)) 0 0%nat
  = (Throw policy_violation, 4%nat, [Wait 1000; Wait 2000; Wait 4000]).
Proof.
  apply (@retryWithBackoff_last_attempt_rethrows nat nat
           (scripted [Throw boom; Throw boom; Throw boom]
                     (@Throw nat policy_violation)) 0%nat
           [(boom, []); (boom, []); (boom, [])] 3%nat
           policy_violation (Error ERROR_MESSAGES.CONTENT_POLICY)
           4%nat []).
  - reflexivity.
  - repeat constructor.
  - repeat (econstructor; [reflexivity |]). constructor.
  - reflexivity.
  - reflexivity.
Defined.

(* ===================================================================== *)
(** * Properties of the route *)
(* ===================================================================== *)

(** ** Examples *)

Example parse_history_example :
  JSON.parse (jsq "[{'role': 'user', 'content': 'hi'}, null]")
  = Some (JArray [JObject [(js "role", JString (js "user"));
                           (js "content", JString (js "hi"))]; JNull]).
Proof. vm_compute. reflexivity. Qed.

Example parse_rejects_text : JSON.parse (js "not json") = None.
Proof. vm_compute. reflexivity. Qed.

Example parse_rejects_trailing_comma : JSON.parse (js "[1,]") = None.
Proof. vm_compute. reflexivity. Qed.

Example number_texts :
  map (fun literal => Number_toString (js literal))
      ["1.50"; "1e2"; "-0"; "1e21"; "0.000001"; "1e-7"; "123456789012345678";
       "0.1e1"; "1e400"; "-2.5E-3"; "4.9e-324"; "9007199254740993"]%string
  = map js
      ["1.5"; "100"; "0"; "1e+21"; "0.000001"; "1e-7"; "123456789012345680";
       "1"; "Infinity"; "-0.0025"; "5e-324"; "9007199254740992"]%string.
Proof. vm_compute. reflexivity. Qed.

Example history_numbers :
  readHistory
    (Some (FString (jsq "[{'content':1.50},{'content':1e-400},{'content':0.0},{'content':[1e2,null,[2.0]]}]")))
  = ([{| role := user; content := js "1.5" |};
      {| role := user; content := [] |};
      {| role := user; content := [] |};
      {| role := user; content := js "100,,2" |}], []).
Proof. vm_compute. reflexivity. Qed.

Example post_text :
  POST steady production
       (Form [(js "message", FString (js " hello "))]) 0%nat
  = (Ok {| status := 200; body := Generated text (js "Hello!") None |},
     1%nat,
     [Call (ChatCompletionsCreate
              [textInstruction; {| role := user; content := js "hello" |}]
              1000)]).
Proof. vm_compute. reflexivity. Qed.

Example post_image :
  POST steady production
       (Form [(js "message", FString (js "draw a picture of a cat <3"))])
       0%nat
  = (Ok {| status := 200;
           body := Generated image (js "Here's the image you requested:")
                     (Some (js "data:image/png;base64,iVBORw0KGgo=")) |},
     1%nat,
     [Call (ImagesGenerate
              (js "Create a safe, appropriate image of: draw a picture of a cat 3"))]).
Proof. vm_compute. reflexivity. Qed.

Example post_audio :
  POST steady production
       (Form [(js "message", FString (js "say hi!"));
              (js "history",
               FString (jsq "[{'role':'assistant','content':'Yes?'}, 7, {'role':'tool'}]"))])
       0%nat
  = (Ok {| status := 200;
           body := Generated audio (js "Generated speech response:")
                     (Some (js "data:audio/mp3;base64,SUQzBAA=")) |},
     2%nat,
     [Call (ChatCompletionsCreate
              [speechInstruction;
               {| role := assistant; content := js "Yes?" |};
               {| role := user; content := [] |};
               {| role := user; content := js "say hi!" |}] 150);
      Call (AudioSpeechCreate (js "Hello!"))]).
Proof. vm_compute. reflexivity. Qed.

(** ** The generation block *)

Lemma calls_app l1 l2 : calls (l1 ++ l2) = calls l1 ++ calls l2.
Proof.
  induction l1 as [| ev l1 IH]; simpl; [reflexivity |].
  destruct ev; simpl; now rewrite IH.
Qed.

(** The events of the wrapper begin with those of the first attempt. *)
Lemma retry_first_attempt W T (op : M W T) n w :
  exists l', snd (retryWithBackoff op n w) = snd (op w) ++ l'.
Proof.
  destruct (op w) as [[[v | e] w1] l1] eqn:Hop.
  - rewrite (retry_ok op n Hop). exists []. simpl. now rewrite app_nil_r.
  - destruct (le_lt_dec RETRY_OPTIONS.maxRetries n) as [Hle | Hlt].
    + rewrite (retry_exhausted op n Hop Hle). exists []. simpl.
      now rewrite app_nil_r.
    + destruct (nonRetryable e) as [specific |] eqn:Hs.
      * rewrite (retry_abort op n Hop Hlt Hs). exists []. simpl.
        now rewrite app_nil_r.
      * rewrite (retry_again op n Hop Hlt Hs).
        destruct (retryWithBackoff op (S n) w1) as [[r w2] l2].
        simpl. eauto.
Qed.

Section RouteFacts.

Variable W : Type.

Variable openai : OpenAI W.

Lemma generateText_calls messages w :
  exists request l, snd (generateText openai messages w) = Call request :: l.
Proof.
  unfold generateText, try_catch, bind, call.
  destruct (chat_completions_create _ _ _ w) as [[c | e] w1]; simpl.
  - destruct c as [[| x c] |]; simpl; eauto.
  - eauto.
Qed.

Lemma generateImage_calls prompt w :
  exists request l, snd (generateImage openai prompt w) = Call request :: l.
Proof.
  unfold generateImage, try_catch, bind, call.
  destruct (images_generate _ _ w) as [[c | e] w1]; simpl.
  - destruct c as [[| x c] |]; simpl; eauto.
  - destruct e as [s code m | m |]; simpl; eauto.
    destruct (opt_str_eqb code _); simpl; eauto.
Qed.

Lemma generateSpeech_calls messages w :
  exists request l,
    snd (generateSpeech openai messages w) = Call request :: l.
Proof.
  unfold generateSpeech, try_catch, bind, call.
  destruct (chat_completions_create _ _ _ w) as [[c | e] w1]; simpl.
  - destruct c as [[| x c] |]; simpl; eauto.
    destruct (audio_speech_create _ _ w1) as [[a | e] w2]; simpl; eauto.
  - eauto.
Qed.

(** Whatever the class of the message, the generation block sends at
    least one request to the provider. *)
Lemma dispatch_calls messageText history w :
  calls (snd (dispatch openai messageText history w)) <> [].
Proof.
  unfold dispatch, try_catch, bind.
  destruct (determineResponseType messageText).
  - destruct (retry_first_attempt
                (generateImage openai messageText) 0 w) as [l' Hl].
    destruct (generateImage_calls messageText w) as (rq & l & Hc).
    rewrite Hc in Hl.
    destruct (retryWithBackoff _ 0 w) as [[[v | e] w1] l1];
      simpl in Hl; subst l1; simpl; discriminate.
  - destruct (retry_first_attempt
                (generateSpeech openai
                   (history ++ [{| role := user; content := messageText |}]))
                0 w) as [l' Hl].
    destruct (generateSpeech_calls
                (history ++ [{| role := user; content := messageText |}]) w)
      as (rq & l & Hc).
    rewrite Hc in Hl.
    destruct (retryWithBackoff _ 0 w) as [[[v | e] w1] l1];
      simpl in Hl; subst l1; simpl; discriminate.
  - destruct (retry_first_attempt
                (generateText openai
                   (history ++ [{| role := user; content := messageText |}]))
                0 w) as [l' Hl].
    destruct (generateText_calls
                (history ++ [{| role := user; content := messageText |}]) w)
      as (rq & l & Hc).
    rewrite Hc in Hl.
    destruct (retryWithBackoff _ 0 w) as [[[v | e] w1] l1];
      simpl in Hl; subst l1; simpl.
    + destruct v; simpl; discriminate.
    + discriminate.
Qed.

(** The route never throws: the generation block answers with a
    response in every case. *)
Lemma dispatch_responds messageText history w :
  exists response, fst (fst (dispatch openai messageText history w))
                   = Ok response.
Proof.
  unfold dispatch, try_catch, bind.
  destruct (determineResponseType messageText);
    destruct (retryWithBackoff _ 0 w) as [[[v | e] w1] l1]; simpl; eauto.
  destruct v; simpl; eauto.
Qed.

(** A valid request on a configured server goes through the history
    block into the generation block. *)
Lemma POST_valid env formData m w :
  configured env = true ->
  get (js "message") formData = Some (FString m) ->
  trim m <> [] ->
  POST openai env (Form formData) w =
  let '(history, logged) := readHistory (get (js "history") formData) in
  let '(r, w', l) := dispatch openai (trim m) history w in
  (r, w', logged ++ l).
Proof.
  intros Hc Hm Ht. unfold POST, try_catch. rewrite Hc.
  unfold bind at 1. unfold ret at 1. cbv beta iota delta [negb].
  unfold ret at 1. cbv beta iota.
  unfold validMessage. rewrite Hm.
  destruct (trim m) as [| c t] eqn:Et; [congruence |].
  destruct (readHistory _) as [history logged].
  unfold bind. cbv beta iota.
  destruct (dispatch_responds (c :: t) history w) as [response Hr].
  destruct (dispatch openai (c :: t) history w) as [[r w'] l].
  simpl in Hr. subst r. reflexivity.
Qed.

End RouteFacts.

(** C8, as stated, fails twice.  On a server whose API key is the empty
    string the module loads and the route answers an empty message with
    status 500, not 400.  And with a proper key, a request whose body is
    no form, so that it has no [message] field, is answered with status
    500 by the outer [catch]. *)
Lemma POST_empty_message_unconfigured :
  module_loads unconfigured = true
  /\ POST steady unconfigured (Form [(js "message", FString [])]) 0%nat
     = (Ok {| status := 500;
              body := ErrorBody ERROR_MESSAGES.MISSING_API_KEY |}, 0%nat, [])
  /\ POST steady production (Unreadable not_a_form) 0%nat
     = (Ok {| status := 500;
              body := ErrorBody (js "Failed to parse body as FormData.") |},
        0%nat, [ConsoleError (js "Chat API Error:")]).
Proof.
  split; [reflexivity |]. split; vm_compute; reflexivity.
Qed.

(** C8, amended. On a server whose API key is not empty, a request with
    a form whose [message] entry is missing, is a file, or is empty after
    trimming is answered with status 400 and an [error] body; the world is
    untouched and no event happens, so no generation routine runs. *)
Theorem POST_invalid_message W (openai : OpenAI W) env formData w :
  configured env = true ->
  get (js "message") formData = None
  \/ (exists size, get (js "message") formData = Some (FFile size))
  \/ (exists m, get (js "message") formData = Some (FString m)
                /\ trim m = []) ->
  POST openai env (Form formData) w
  = (Ok {| status := 400;
           body := ErrorBody ERROR_MESSAGES.INVALID_REQUEST |}, w, []).
Proof.
  intros Hc Hm. unfold POST, try_catch. rewrite Hc.
  unfold bind at 1. unfold ret at 1. cbv beta iota delta [negb].
  unfold ret at 1. cbv beta iota.
  assert (Hv : validMessage (get (js "message") formData) = None).
  { destruct Hm as [-> | [[size ->] | (m & -> & Ht)]]; try reflexivity.
    unfold validMessage. now rewrite Ht. }
  rewrite Hv. reflexivity.
Qed.

Lemma POST_invalid_message_witness :
  POST steady production (Form [(js "message", FString (js "   "))]) 7%nat
  = (Ok {| status := 400;
           body := ErrorBody ERROR_MESSAGES.INVALID_REQUEST |}, 7%nat, []).
Proof.
  apply (@POST_invalid_message nat steady production
           [(js "message", FString (js "   "))] 7%nat).
  - reflexivity.
  - right. right. exists (js "   "). split; vm_compute; reflexivity.
Defined.




(* ===================================================================== *)
(** * Further properties of the server *)
(* ===================================================================== *)

Unset Implicit Arguments.

(** ** Trimming and sanitizing *)

Section DropWhile.

Variable f : code_unit -> bool.

Lemma dropWhile_split s :
  exists a, s = a ++ dropWhile f s /\ Forall (fun c => f c = true) a.
Proof.
  induction s as [| c s (a & Hs & Ha)]; simpl.
  - exists []. split; [reflexivity | constructor].
  - destruct (f c) eqn:E.
    + exists (c :: a). split; [simpl; now rewrite <- Hs | now constructor].
    + exists []. split; [reflexivity | constructor].
Qed.

Lemma dropWhile_head s :
  match dropWhile f s with [] => True | c :: _ => f c = false end.
Proof.
  induction s as [| c s IH]; simpl; [exact I |].
  destruct (f c) eqn:E; [exact IH | exact E].
Qed.

Lemma dropWhile_fixed s :
  match s with [] => True | c :: _ => f c = false end ->
  dropWhile f s = s.
Proof.
  destruct s as [| c s]; simpl; [reflexivity |]. now intros ->.
Qed.

End DropWhile.

Lemma trim_infix s : exists a b, s = a ++ trim s ++ b.
Proof.
  unfold trim.
  destruct (dropWhile_split is_space s) as (a & Hs & _).
  destruct (dropWhile_split is_space (rev (dropWhile is_space s)))
    as (b & Hr & _).
  exists a, (rev b). rewrite <- rev_app_distr, <- Hr, rev_involutive.
  exact Hs.
Qed.

Lemma trim_trimmed s : trimmed (trim s).
Proof.
  unfold trimmed, trim. rewrite rev_involutive.
  set (t := dropWhile is_space s).
  split; [| apply dropWhile_head].
  destruct (dropWhile_split is_space (rev t)) as (a & Hr & _).
  pose proof (dropWhile_head is_space s) as Ht. fold t in Ht.
  apply (f_equal (@rev _)) in Hr.
  rewrite rev_involutive, rev_app_distr in Hr.
  destruct (rev (dropWhile is_space (rev t))) as [| c r]; [exact I |].
  rewrite Hr in Ht. exact Ht.
Qed.

Lemma trim_fixed s : trimmed s -> trim s = s.
Proof.
  intros [Hh Hl]. unfold trim.
  rewrite (dropWhile_fixed is_space s Hh).
  rewrite (dropWhile_fixed is_space (rev s) Hl).
  apply rev_involutive.
Qed.

Lemma filter_fixed (g : code_unit -> bool) l :
  Forall (fun c => g c = true) l -> filter g l = l.
Proof.
  induction 1 as [| c l Hc _ IH]; simpl; [reflexivity |].
  now rewrite Hc, IH.
Qed.

(** X1. [sanitizePrompt] keeps nothing but word characters, white space
    and the punctuation [.,!?'-]; its result neither begins nor ends with
    white space; sanitizing twice is sanitizing once. *)
Theorem sanitizePrompt_clean prompt :
  Forall (fun c => kept_by_sanitizer c = true) (sanitizePrompt prompt)
  /\ trimmed (sanitizePrompt prompt)
  /\ sanitizePrompt (sanitizePrompt prompt) = sanitizePrompt prompt.
Proof.
  assert (Hk : Forall (fun c => kept_by_sanitizer c = true)
                      (sanitizePrompt prompt)).
  { unfold sanitizePrompt.
    change (fun c => is_word_char c || is_space c
                     || existsb (cu_eqb c) (js ".,!?'-"))
      with kept_by_sanitizer.
    destruct (trim_infix (filter kept_by_sanitizer prompt)) as (a & b & H).
    assert (Hf : Forall (fun c => kept_by_sanitizer c = true)
                        (filter kept_by_sanitizer prompt)).
    { apply Forall_forall. intros c Hc. now apply filter_In in Hc. }
    rewrite H in Hf. apply Forall_app in Hf as [_ Hf].
    now apply Forall_app in Hf as [Hf _]. }
  split; [exact Hk |]. split; [apply trim_trimmed |].
  unfold sanitizePrompt at 1.
  change (fun c => is_word_char c || is_space c
                   || existsb (cu_eqb c) (js ".,!?'-"))
    with kept_by_sanitizer.
  rewrite (filter_fixed _ _ Hk). apply trim_fixed. apply trim_trimmed.
Qed.

(** ** Which requests reach the provider *)

Section Gate.

Variable W : Type.
Variable openai : OpenAI W.

Lemma POST_unconfigured env req w :
  configured env = false ->
  POST openai env req w
  = (Ok (error_response 500 ERROR_MESSAGES.MISSING_API_KEY), w, []).
Proof.
  intros Hc. unfold POST, try_catch. now rewrite Hc.
Qed.

Lemma POST_unreadable env error w :
  configured env = true ->
  POST openai env (Unreadable error) w
  = (Ok (error_response 500 (message_of error)), w,
     [ConsoleError (js "Chat API Error:")]).
Proof.
  intros Hc. unfold POST, try_catch. rewrite Hc.
  destruct error; reflexivity.
Qed.

Lemma POST_invalid env formData w :
  configured env = true ->
  validMessage (get (js "message") formData) = None ->
  POST openai env (Form formData) w
  = (Ok (error_response 400 ERROR_MESSAGES.INVALID_REQUEST), w, []).
Proof.
  intros Hc Hv. unfold POST, try_catch. rewrite Hc.
  unfold bind at 1. unfold ret at 1. cbv beta iota delta [negb].
  unfold ret at 1. cbv beta iota. now rewrite Hv.
Qed.

Lemma validMessage_some message messageText :
  validMessage message = Some messageText <->
  exists m, message = Some (FString m) /\ trim m = messageText
            /\ messageText <> [].
Proof.
  unfold validMessage. split.
  - destruct message as [[m | size] |]; try discriminate.
    destruct (trim m) as [| c t] eqn:E; [discriminate |].
    intros [= <-]. exists m. repeat split; auto. discriminate.
  - intros (m & -> & Ht & Hne). rewrite Ht.
    destruct messageText; [congruence | reflexivity].
Qed.

Lemma readHistory_calls historyJson : calls (snd (readHistory historyJson)) = [].
Proof.
  unfold readHistory.
  destruct historyJson as [[[| c t] | size] |]; try reflexivity.
  destruct (JSON.parse (c :: t)) as [[] |]; try reflexivity.
  destruct (map_throwing _ _); reflexivity.
Qed.

(** X2. The provider is contacted exactly when the API key is configured
    and the form carries a text message that is not empty after trimming.
    Every other request is answered on the spot with an error body and
    status 400 or 500. *)
Theorem POST_contacts_provider_iff env req w :
  (calls (snd (POST openai env req w)) <> [] <->
   configured env = true
   /\ exists formData m,
        req = Form formData
        /\ get (js "message") formData = Some (FString m)
        /\ trim m <> [])
  /\ (calls (snd (POST openai env req w)) = [] ->
      exists status error,
        fst (POST openai env req w)
        = (Ok {| status := status; body := ErrorBody error |}, w)
        /\ (status = 400%Z \/ status = 500%Z)).
Proof.
  destruct (configured env) eqn:Hc.
  - destruct req as [error | formData].
    + rewrite (POST_unreadable env error w Hc). simpl. split.
      * split; [congruence |]. intros (_ & fd & m & H & _). discriminate.
      * intros _. exists 500%Z, (message_of error). auto.
    + destruct (validMessage (get (js "message") formData))
        as [messageText |] eqn:Hv.
      * apply validMessage_some in Hv as (m & Hm & Ht & Hne).
        subst messageText.
        assert (Hcalls : calls (snd (POST openai env (Form formData) w))
                         <> []).
        { rewrite (POST_valid openai env formData w Hc Hm Hne).
          pose proof (readHistory_calls (get (js "history") formData)) as Hl.
          destruct (readHistory _) as [history logged].
          pose proof (dispatch_calls openai (trim m) history w) as Hd.
          destruct (dispatch openai (trim m) history w) as [[r w'] l].
          simpl in *. rewrite calls_app, Hl. exact Hd. }
        split; [| intros H; now elim Hcalls].
        split; [| intros _; exact Hcalls].
        intros _. split; [reflexivity |]. now exists formData, m.
      * rewrite (POST_invalid env formData w Hc Hv). simpl. split.
        -- split; [congruence |].
           intros (_ & fd & m & [= <-] & Hm & Hne).
           rewrite Hm in Hv. unfold validMessage in Hv.
           destruct (trim m); [congruence | discriminate].
        -- intros _. exists 400%Z, ERROR_MESSAGES.INVALID_REQUEST. auto.
  - rewrite (POST_unconfigured env req w Hc). simpl. split.
    + split; [congruence |]. intros [H _]. discriminate.
    + intros _. exists 500%Z, ERROR_MESSAGES.MISSING_API_KEY. auto.
Qed.

(** X3. The route reads two entries of the form, [message] and
    [history], and nothing else: forms that agree on these two get the same
    answer, whatever file they carry. *)
Theorem POST_reads_message_and_history env formData formData' w :
  get (js "message") formData = get (js "message") formData' ->
  get (js "history") formData = get (js "history") formData' ->
  POST openai env (Form formData) w = POST openai env (Form formData') w.
Proof.
  intros Hm Hh. unfold POST, try_catch.
  destruct (negb (configured env)); [reflexivity |].
  unfold bind at 1 3. unfold ret at 1 3. cbv beta iota.
  now rewrite Hm, Hh.
Qed.

End Gate.

Lemma POST_reads_message_and_history_witness :
  POST steady production
       (Form [(js "message", FString (js "hello"));
              (js "file", FFile 4096)]) 0%nat
  = POST steady production (Form [(js "message", FString (js "hello"))])
         0%nat.
Proof.
  apply (@POST_reads_message_and_history nat steady production
           [(js "message", FString (js "hello")); (js "file", FFile 4096)]
           [(js "message", FString (js "hello"))] 0%nat);
    reflexivity.
Defined.

(** ** Every run of the wrapper *)

Section Runs.

Variables (W T : Type) (op : M W T).

Lemma retry_trace k : forall n w,
  n + k = RETRY_OPTIONS.maxRetries ->
  exists fs w1 r1 w' l1,
    List.length fs <= k
    /\ Forall retryable fs
    /\ fails op w fs w1
    /\ op w1 = (r1, w', l1)
    /\ retryWithBackoff op n w
       = (surfaced (n + List.length fs) r1, w', retry_log n fs ++ l1).
Proof.
  induction k as [| k IH]; intros n w Hn.
  - destruct (op w) as [[r1 w'] l1] eqn:Hop.
    exists [], w, r1, w', l1. simpl. rewrite Nat.add_0_r in *. subst n.
    repeat split; auto; try constructor.
    destruct r1 as [v | e]; simpl.
    + exact (retry_ok op _ Hop).
    + exact (retry_exhausted op _ Hop (Nat.le_refl _)).
  - assert (Hlt : n < RETRY_OPTIONS.maxRetries) by lia.
    destruct (op w) as [[r1 w'] l1] eqn:Hop.
    destruct r1 as [v | e].
    + exists [], w, (Ok v), w', l1. simpl.
      repeat split; auto; try constructor; try lia.
      exact (retry_ok op _ Hop).
    + destruct (nonRetryable e) as [specific |] eqn:Hs.
      * exists [], w, (Throw e), w', l1.
        split; [simpl; lia |]. split; [constructor |].
        split; [constructor |]. split; [exact Hop |].
        unfold surfaced. cbn [List.length retry_log app].
        rewrite Nat.add_0_r, Hs.
        rewrite (proj2 (Nat.leb_gt _ _) Hlt).
        exact (retry_abort op _ Hop Hlt Hs).
      * destruct (IH (S n) w') as (fs & w1 & r & w2 & l2 & Hl & Hr & Hf
                                    & Hlast & Hrun); [lia |].
        exists ((e, l1) :: fs), w1, r, w2, l2.
        split; [simpl; lia |].
        split; [constructor; [exact Hs | exact Hr] |].
        split; [apply fails_cons with (w1 := w'); assumption |].
        split; [exact Hlast |].
        rewrite (retry_again op n Hop Hlt Hs), Hrun. simpl.
        rewrite Nat.add_succ_r, delay_backoff, <- app_assoc.
        reflexivity.
Qed.

End Runs.

Lemma fails_logs W T (op : M W T) (P : list event -> Prop) w fs w1 :
  (forall w r w' l, op w = (r, w', l) -> P l) ->
  fails op w fs w1 -> Forall (fun f => P (snd f)) fs.
Proof.
  intros HP. induction 1 as [| w e l w1 fs w' Hop _ IH]; constructor; auto.
  simpl. exact (HP _ _ _ _ Hop).
Qed.

(** X4. Every run of [retryWithBackoff] is made of at most three failed
    attempts with retryable errors, each followed by its backoff wait, and
    one last attempt, whose result is surfaced: at most four attempts in
    all.  When the operation does not wait itself, the waits of the run
    are the first of 1000, 2000 and 4000 ms, 7 seconds at most. *)
Theorem retryWithBackoff_runs W T (op : M W T) w :
  exists fs w1 r1 w' l1,
    List.length fs <= 3
    /\ Forall retryable fs
    /\ fails op w fs w1
    /\ op w1 = (r1, w', l1)
    /\ retryWithBackoff op 0 w
       = (surfaced (List.length fs) r1, w', retry_log 0 fs ++ l1)
    /\ ((forall w r w' l, op w = (r, w', l) -> waits l = []) ->
        waits (snd (retryWithBackoff op 0 w))
        = firstn (List.length fs) [1000; 2000; 4000]%Z
        /\ (total_wait (snd (retryWithBackoff op 0 w)) <= 7000)%Z).
Proof.
  destruct (retry_trace W T op 3 0 w eq_refl)
    as (fs & w1 & r1 & w' & l1 & Hl & Hr & Hf & Hlast & Hrun).
  exists fs, w1, r1, w', l1.
  split; [exact Hl |]. split; [exact Hr |]. split; [exact Hf |].
  split; [exact Hlast |]. split; [exact Hrun |].
  intros Hquiet.
  assert (Hw : waits (snd (retryWithBackoff op 0 w))
               = firstn (List.length fs) [1000; 2000; 4000]%Z).
  { rewrite Hrun. simpl. rewrite waits_app.
    rewrite (Hquiet _ _ _ _ Hlast), app_nil_r.
    rewrite (@waits_retry_log fs
               (fails_logs W T op (fun l => waits l = []) w fs w1
                  Hquiet Hf) 0).
    destruct fs as [| ? [| ? [| ? [| ? ?]]]]; simpl in *;
      try reflexivity; lia. }
  split; [exact Hw |].
  unfold total_wait. rewrite Hw.
  destruct fs as [| ? [| ? [| ? [| ? ?]]]]; simpl in *;
    try (vm_compute; discriminate); lia.
Qed.

(** ** The three generation routines, call by call *)

Section Routines.

Variable W : Type.
Variable openai : OpenAI W.

Lemma generateText_run messages w :
  let request := ChatCompletionsCreate (textInstruction :: messages) 1000 in
  generateText openai messages w =
  match chat_completions_create openai (textInstruction :: messages) 1000 w
  with
  | (Ok (Some (c :: t)), w') => (Ok (c :: t), w', [Call request])
  | (Ok _, w') =>
      (Throw (Error ERROR_MESSAGES.NO_RESPONSE), w',
       [Call request; text_failed])
  | (Throw e, w') => (Throw e, w', [Call request; text_failed])
  end.
Proof.
  cbv zeta. unfold generateText, try_catch, bind, call.
  destruct (chat_completions_create _ _ _ w) as [[[[| c t] |] | e] w'];
    reflexivity.
Qed.

Lemma generateImage_run prompt w :
  let safePrompt :=
    js "Create a safe, appropriate image of: " ++ sanitizePrompt prompt in
  generateImage openai prompt w =
  match images_generate openai safePrompt w with
  | (Ok (Some (c :: t)), w') =>
      (Ok (js "data:image/png;base64," ++ c :: t), w',
       [Call (ImagesGenerate safePrompt)])
  | (Ok _, w') =>
      (Throw (Error ERROR_MESSAGES.NO_RESPONSE), w',
       [Call (ImagesGenerate safePrompt); image_failed])
  | (Throw (APIError status code message), w') =>
      (Throw (if opt_str_eqb code (js "content_policy_violation")
              then Error ERROR_MESSAGES.CONTENT_POLICY
              else APIError status code message), w',
       [Call (ImagesGenerate safePrompt); image_failed])
  | (Throw e, w') =>
      (Throw e, w', [Call (ImagesGenerate safePrompt); image_failed])
  end.
Proof.
  cbv zeta. unfold generateImage, try_catch, bind, call.
  destruct (images_generate _ _ w) as [[[[| c t] |] | e] w'];
    try reflexivity.
  destruct e as [status code message | message |]; try reflexivity.
  cbv beta iota. unfold console_error, emit, throw.
  destruct (opt_str_eqb code _); reflexivity.
Qed.

Lemma generateSpeech_run messages w :
  let request := ChatCompletionsCreate (speechInstruction :: messages) 150 in
  generateSpeech openai messages w =
  match chat_completions_create openai (speechInstruction :: messages) 150 w
  with
  | (Ok (Some (c :: t)), w1) =>
      let cleanText := sanitizePrompt (c :: t) in
      match audio_speech_create openai cleanText w1 with
      | (Ok mp3, w2) =>
          (Ok {| speech_url := js "data:audio/mp3;base64," ++ mp3;
                 speech_text := cleanText |}, w2,
           [Call request; Call (AudioSpeechCreate cleanText)])
      | (Throw e, w2) =>
          (Throw e, w2,
           [Call request; Call (AudioSpeechCreate cleanText); speech_failed])
      end
  | (Ok _, w1) =>
      (Throw (Error ERROR_MESSAGES.NO_RESPONSE), w1,
       [Call request; speech_failed])
  | (Throw e, w1) => (Throw e, w1, [Call request; speech_failed])
  end.
Proof.
  cbv zeta. unfold generateSpeech, try_catch, bind, call.
  destruct (chat_completions_create _ _ _ w) as [[[[| c t] |] | e] w1];
    try reflexivity.
  cbv beta iota. unfold required, ret.
  destruct (audio_speech_create _ _ w1) as [[mp3 | e] w2]; reflexivity.
Qed.

(** The generation block, class by class. *)
Lemma dispatch_text messageText history w :
  determineResponseType messageText = text ->
  dispatch openai messageText history w =
  let '(r, w1, l1) :=
    retryWithBackoff
      (generateText openai
         (history ++ [{| role := user; content := messageText |}])) 0 w in
  match r with
  | Ok (c :: t) =>
      (Ok {| status := 200; body := Generated text (c :: t) None |}, w1, l1)
  | Ok [] =>
      (Ok (error_response 500 ERROR_MESSAGES.NO_RESPONSE), w1,
       l1 ++ [generation_failed])
  | Throw e => (Ok (generationFailure e), w1, l1 ++ [generation_failed])
  end.
Proof.
  intros Hc. unfold dispatch. rewrite Hc. unfold try_catch, bind.
  destruct (retryWithBackoff _ 0 w) as [[[[| c t] | e] w1] l1];
    simpl; rewrite ?app_nil_r; reflexivity.
Qed.

Lemma dispatch_image messageText history w :
  determineResponseType messageText = image ->
  dispatch openai messageText history w =
  let '(r, w1, l1) :=
    retryWithBackoff (generateImage openai messageText) 0 w in
  match r with
  | Ok imageUrl =>
      (Ok {| status := 200;
             body := Generated image (js "Here's the image you requested:")
                       (Some imageUrl) |}, w1, l1)
  | Throw e => (Ok (generationFailure e), w1, l1 ++ [generation_failed])
  end.
Proof.
  intros Hc. unfold dispatch. rewrite Hc. unfold try_catch, bind.
  destruct (retryWithBackoff _ 0 w) as [[[v | e] w1] l1];
    simpl; rewrite ?app_nil_r; reflexivity.
Qed.

Lemma dispatch_audio messageText history w :
  determineResponseType messageText = audio ->
  dispatch openai messageText history w =
  let '(r, w1, l1) :=
    retryWithBackoff
      (generateSpeech openai
         (history ++ [{| role := user; content := messageText |}])) 0 w in
  match r with
  | Ok audioResult =>
      (Ok {| status := 200;
             body := Generated audio (js "Generated speech response:")
                       (Some (speech_url audioResult)) |}, w1, l1)
  | Throw e => (Ok (generationFailure e), w1, l1 ++ [generation_failed])
  end.
Proof.
  intros Hc. unfold dispatch. rewrite Hc. unfold try_catch, bind.
  destruct (retryWithBackoff _ 0 w) as [[[v | e] w1] l1];
    simpl; rewrite ?app_nil_r; reflexivity.
Qed.

End Routines.

(** ** What a successful answer looks like *)

Lemma retry_ok_inv W T (op : M W T) w v w' l :
  retryWithBackoff op 0 w = (Ok v, w', l) ->
  exists w1 l1, op w1 = (Ok v, w', l1).
Proof.
  intros H.
  destruct (retry_trace W T op 3 0 w eq_refl)
    as (fs & w1 & r1 & w2 & l1 & _ & _ & _ & Hlast & Hrun).
  rewrite Hrun in H. injection H as Hr <- _.
  exists w1, l1. rewrite Hlast.
  destruct r1 as [v1 | e]; unfold surfaced in Hr.
  - now injection Hr as ->.
  - destruct (Nat.leb _ _); [discriminate |].
    destruct (nonRetryable e); discriminate.
Qed.

Section Answers.

Variable W : Type.
Variable openai : OpenAI W.

Lemma generateText_ok messages w v w' l :
  generateText openai messages w = (Ok v, w', l) -> v <> [].
Proof.
  rewrite generateText_run.
  destruct (chat_completions_create _ _ _ w) as [[[[| c t] |] | e] w1];
    intros [= <- _ _]. discriminate.
Qed.

Lemma generateImage_ok prompt w v w' l :
  generateImage openai prompt w = (Ok v, w', l) ->
  exists b, b <> [] /\ v = js "data:image/png;base64," ++ b.
Proof.
  rewrite generateImage_run.
  destruct (images_generate _ _ w) as [[[[| c t] |] | e] w1];
    try discriminate.
  - intros [= <- _ _]. exists (c :: t). split; [discriminate | reflexivity].
  - destruct e; discriminate.
Qed.

Lemma generateSpeech_ok messages w v w' l :
  generateSpeech openai messages w = (Ok v, w', l) ->
  exists mp3, speech_url v = js "data:audio/mp3;base64," ++ mp3.
Proof.
  rewrite generateSpeech_run.
  destruct (chat_completions_create _ _ _ w) as [[[[| c t] |] | e] w1];
    try discriminate.
  cbv zeta.
  destruct (audio_speech_create _ _ w1) as [[mp3 | e] w2]; try discriminate.
  intros [= <- _ _]. now exists mp3.
Qed.

Lemma generationFailure_error e :
  exists status message,
    generationFailure e = error_response status message.
Proof.
  destruct e as [s code m | m |]; simpl; eauto.
  destruct (opt_str_eqb code _); eauto.
Qed.

Lemma dispatch_success_shape messageText history w response w' l type c url :
  dispatch openai messageText history w = (Ok response, w', l) ->
  body response = Generated type c url ->
  status response = 200%Z
  /\ type = determineResponseType messageText
  /\ well_formed type c url.
Proof.
  destruct (determineResponseType messageText) eqn:Hc.
  - rewrite (dispatch_image W openai messageText history w Hc).
    destruct (retryWithBackoff _ 0 w) as [[[v | e] w1] l1] eqn:Hr.
    + intros [= <- _ _]. simpl. intros [= <- <- <-].
      apply retry_ok_inv in Hr as (w2 & l2 & Hop).
      apply generateImage_ok in Hop as (b & Hb & ->).
      repeat split; try discriminate. now exists b.
    + destruct (generationFailure_error e) as (s & m & ->).
      intros [= <- _ _]. discriminate.
  - rewrite (dispatch_audio W openai messageText history w Hc).
    destruct (retryWithBackoff _ 0 w) as [[[v | e] w1] l1] eqn:Hr.
    + intros [= <- _ _]. simpl. intros [= <- <- <-].
      apply retry_ok_inv in Hr as (w2 & l2 & Hop).
      apply generateSpeech_ok in Hop as (mp3 & ->).
      repeat split; try discriminate. now exists mp3.
    + destruct (generationFailure_error e) as (s & m & ->).
      intros [= <- _ _]. discriminate.
  - rewrite (dispatch_text W openai messageText history w Hc).
    destruct (retryWithBackoff _ 0 w) as [[[[| c0 t] | e] w1] l1] eqn:Hr.
    + intros [= <- _ _]. discriminate.
    + intros [= <- _ _]. simpl. intros [= <- <- <-].
      repeat split; discriminate.
    + destruct (generationFailure_error e) as (s & m & ->).
      intros [= <- _ _]. discriminate.
Qed.

(** X5. An answer of the route with a generated body has status 200, the
    class of its trimmed message, a content that is not empty, no URL for
    text, a PNG data URL with a payload for an image and an MP3 data URL
    for audio. *)
Theorem POST_success_shape env req w response w' l type c url :
  POST openai env req w = (Ok response, w', l) ->
  body response = Generated type c url ->
  status response = 200%Z
  /\ well_formed type c url
  /\ exists formData m,
       req = Form formData
       /\ get (js "message") formData = Some (FString m)
       /\ type = determineResponseType (trim m).
Proof.
  intros Hpost Hbody.
  destruct (configured env) eqn:Hc.
  - destruct req as [error | formData].
    + rewrite (POST_unreadable W openai env error w Hc) in Hpost.
      injection Hpost as <- _ _. discriminate.
    + destruct (validMessage (get (js "message") formData))
        as [messageText |] eqn:Hv.
      * apply validMessage_some in Hv as (m & Hm & Ht & Hne).
        subst messageText.
        rewrite (POST_valid openai env formData w Hc Hm Hne) in Hpost.
        destruct (readHistory _) as [history logged].
        destruct (dispatch openai (trim m) history w) as [[r w1] l1] eqn:Hd.
        injection Hpost as -> -> _.
        destruct (dispatch_success_shape _ _ _ _ _ _ _ _ _ Hd Hbody)
          as (Hs & Hty & Hwf).
        split; [exact Hs |]. split; [exact Hwf |].
        now exists formData, m.
      * rewrite (POST_invalid W openai env formData w Hc Hv) in Hpost.
        injection Hpost as <- _ _. discriminate.
  - rewrite (POST_unconfigured W openai env req w Hc) in Hpost.
    injection Hpost as <- _ _. discriminate.
Qed.

End Answers.

Lemma POST_success_shape_witness :
  well_formed image (js "Here's the image you requested:")
              (Some (js "data:image/png;base64,iVBORw0KGgo=")).
Proof.
  apply (POST_success_shape nat steady production
           (Form [(js "message", FString (js "draw a picture of a cat"))])
           0%nat
           {| status := 200;
              body := Generated image (js "Here's the image you requested:")
                        (Some (js "data:image/png;base64,iVBORw0KGgo=")) |}
           1%nat
           [Call (ImagesGenerate
                    (js "Create a safe, appropriate image of: draw a picture of a cat"))]
           image (js "Here's the image you requested:")
           (Some (js "data:image/png;base64,iVBORw0KGgo="))).
  - vm_compute. reflexivity.
  - reflexivity.
Defined.

(** ** What is sent to the provider, and how much *)

Lemma calls_retry_log (P : ApiRequest -> Prop) fs : forall n,
  Forall (fun f => Forall P (calls (snd f))) fs ->
  Forall P (calls (retry_log n fs)).
Proof.
  induction fs as [| [e l] fs IH]; intros n H; simpl; [constructor |].
  inversion H as [| ? ? Hl H']; subst. simpl in Hl.
  rewrite calls_app. apply Forall_app. split; [exact Hl |].
  simpl. now apply IH.
Qed.

Lemma count_calls_retry_log k fs : forall n,
  Forall (fun f => List.length (calls (snd f)) <= k) fs ->
  List.length (calls (retry_log n fs)) <= k * List.length fs.
Proof.
  induction fs as [| [e l] fs IH]; intros n H; simpl; [lia |].
  inversion H as [| ? ? Hl H']; subst. simpl in Hl.
  rewrite calls_app, length_app. simpl.
  specialize (IH (S n) H'). lia.
Qed.

Section Outgoing.

Variables (W T : Type) (op : M W T).

Lemma retry_calls (P : ApiRequest -> Prop) w :
  (forall w r w' l, op w = (r, w', l) -> Forall P (calls l)) ->
  Forall P (calls (snd (retryWithBackoff op 0 w))).
Proof.
  intros HP.
  destruct (retry_trace W T op 3 0 w eq_refl)
    as (fs & w1 & r1 & w2 & l1 & _ & _ & Hf & Hlast & Hrun).
  rewrite Hrun. simpl. rewrite calls_app. apply Forall_app. split.
  - apply calls_retry_log.
    exact (fails_logs W T op (fun l => Forall P (calls l)) w fs w1 HP Hf).
  - exact (HP _ _ _ _ Hlast).
Qed.

Lemma retry_budget k w :
  (forall w r w' l, op w = (r, w', l) ->
                    List.length (calls l) <= k /\ waits l = []) ->
  List.length (calls (snd (retryWithBackoff op 0 w))) <= 4 * k
  /\ (total_wait (snd (retryWithBackoff op 0 w)) <= 7000)%Z.
Proof.
  intros HP.
  destruct (retry_trace W T op 3 0 w eq_refl)
    as (fs & w1 & r1 & w2 & l1 & Hl & _ & Hf & Hlast & Hrun).
  rewrite Hrun. simpl. split.
  - rewrite calls_app, length_app.
    pose proof (count_calls_retry_log k fs 0
                  (fails_logs W T op
                     (fun l => List.length (calls l) <= k) w fs w1
                     (fun a b c d H => proj1 (HP a b c d H)) Hf)) as Hc.
    pose proof (proj1 (HP _ _ _ _ Hlast)). nia.
  - unfold total_wait. rewrite waits_app.
    rewrite (proj2 (HP _ _ _ _ Hlast)), app_nil_r.
    rewrite (@waits_retry_log fs
               (fails_logs W T op (fun l => waits l = []) w fs w1
                  (fun a b c d H => proj2 (HP a b c d H)) Hf) 0).
    destruct fs as [| ? [| ? [| ? [| ? ?]]]]; simpl in *;
      try (vm_compute; discriminate); lia.
Qed.

End Outgoing.

Lemma to_message_role msg m : to_message msg = Some m -> role m <> system.
Proof.
  unfold to_message.
  destruct (match property (js "content") msg with
            | Some v => if truthy v then String_of v else Some []
            | None => Some []
            end) as [c |]; [| discriminate].
  intros [= <-]. simpl.
  destruct (property (js "role") msg) as [[] |]; try discriminate.
  destruct (str_eqb s (js "user")); [discriminate |].
  destruct (str_eqb s (js "assistant")); discriminate.
Qed.

Lemma map_throwing_Forall A B (f : A -> option B) (P : B -> Prop) l :
  (forall x y, f x = Some y -> P y) ->
  forall l', map_throwing f l = Some l' -> Forall P l'.
Proof.
  intros Hf. induction l as [| x l IH]; simpl; intros l'.
  - intros [= <-]. constructor.
  - destruct (f x) as [y |] eqn:E; [| discriminate].
    destruct (map_throwing f l) as [t |]; [| discriminate].
    intros [= <-]. constructor; [exact (Hf _ _ E) | now apply IH].
Qed.

Lemma readHistory_roles historyJson :
  Forall (fun m => role m <> system) (fst (readHistory historyJson)).
Proof.
  unfold readHistory.
  destruct historyJson as [[[| c t] | size] |]; try constructor.
  destruct (JSON.parse (c :: t)) as [[] |]; try constructor.
  destruct (map_throwing _ _) as [history |] eqn:E; [| constructor].
  exact (map_throwing_Forall _ _ to_message _ _ to_message_role _ E).
Qed.

Lemma readHistory_waits historyJson : waits (snd (readHistory historyJson)) = [].
Proof.
  unfold readHistory.
  destruct historyJson as [[[| c t] | size] |]; try reflexivity.
  destruct (JSON.parse (c :: t)) as [[] |]; try reflexivity.
  destruct (map_throwing _ _); reflexivity.
Qed.

Section Requests.

Variable W : Type.
Variable openai : OpenAI W.

Lemma generateText_requests m h w r w' l :
  generateText openai (h ++ [{| role := user; content := m |}]) w
  = (r, w', l) ->
  Forall (route_request m h) (calls l)
  /\ List.length (calls l) <= 1 /\ waits l = [].
Proof.
  rewrite generateText_run.
  destruct (chat_completions_create _ _ _ w) as [[[[| c t] |] | e] w1];
    intros [= _ _ <-]; simpl; repeat split; auto;
    repeat constructor; left; auto.
Qed.

Lemma generateImage_requests m h w r w' l :
  generateImage openai m w = (r, w', l) ->
  Forall (route_request m h) (calls l)
  /\ List.length (calls l) <= 1 /\ waits l = [].
Proof.
  rewrite generateImage_run.
  destruct (images_generate _ _ w) as [[[[| c t] |] | [? ? ? | ? |]] w1];
    intros [= _ _ <-]; simpl; repeat split; auto;
    repeat constructor.
Qed.

Lemma generateSpeech_requests m h w r w' l :
  generateSpeech openai (h ++ [{| role := user; content := m |}]) w
  = (r, w', l) ->
  Forall (route_request m h) (calls l)
  /\ List.length (calls l) <= 2 /\ waits l = [].
Proof.
  rewrite generateSpeech_run.
  destruct (chat_completions_create _ _ _ w) as [[[[| c t] |] | e] w1];
    cbv zeta;
    try (intros [= _ _ <-]; simpl; repeat split; auto;
         repeat constructor; right; auto).
  destruct (audio_speech_create _ _ w1) as [[mp3 | e] w2];
    intros [= _ _ <-]; simpl; repeat split; auto;
    repeat constructor; try (right; split; reflexivity);
    now exists (c :: t).
Qed.

Lemma dispatch_outgoing m h w :
  Forall (route_request m h) (calls (snd (dispatch openai m h w)))
  /\ List.length (calls (snd (dispatch openai m h w)))
     <= match determineResponseType m with audio => 8 | _ => 4 end
  /\ (total_wait (snd (dispatch openai m h w)) <= 7000)%Z.
Proof.
  destruct (determineResponseType m) eqn:Hc.
  - rewrite (dispatch_image W openai m h w Hc).
    pose proof (retry_calls W _ (generateImage openai m)
                  (route_request m h) w
                  (fun a b c d H =>
                     proj1 (generateImage_requests m h a b c d H))) as H1.
    pose proof (retry_budget W _ (generateImage openai m) 1 w
                  (fun a b c d H =>
                     proj2 (generateImage_requests m h a b c d H)))
      as [H2 H3].
    destruct (retryWithBackoff _ 0 w) as [[[v | e] w1] l1]; simpl in *;
      unfold total_wait in *;
      rewrite ?calls_app, ?waits_app, ?app_nil_r; simpl;
      rewrite ?app_nil_r; auto.
  - rewrite (dispatch_audio W openai m h w Hc).
    pose proof (retry_calls W _
                  (generateSpeech openai
                     (h ++ [{| role := user; content := m |}]))
                  (route_request m h) w
                  (fun a b c d H =>
                     proj1 (generateSpeech_requests m h a b c d H))) as H1.
    pose proof (retry_budget W _
                  (generateSpeech openai
                     (h ++ [{| role := user; content := m |}])) 2 w
                  (fun a b c d H =>
                     proj2 (generateSpeech_requests m h a b c d H)))
      as [H2 H3].
    destruct (retryWithBackoff _ 0 w) as [[[v | e] w1] l1]; simpl in *;
      unfold total_wait in *;
      rewrite ?calls_app, ?waits_app, ?app_nil_r; simpl;
      rewrite ?app_nil_r; auto.
  - rewrite (dispatch_text W openai m h w Hc).
    pose proof (retry_calls W _
                  (generateText openai
                     (h ++ [{| role := user; content := m |}]))
                  (route_request m h) w
                  (fun a b c d H =>
                     proj1 (generateText_requests m h a b c d H))) as H1.
    pose proof (retry_budget W _
                  (generateText openai
                     (h ++ [{| role := user; content := m |}])) 1 w
                  (fun a b c d H =>
                     proj2 (generateText_requests m h a b c d H)))
      as [H2 H3].
    destruct (retryWithBackoff _ 0 w) as [[[[| c0 t] | e] w1] l1];
      simpl in *; unfold total_wait in *;
      rewrite ?calls_app, ?waits_app, ?app_nil_r; simpl;
      rewrite ?app_nil_r; auto.
Qed.

(** X6. Whatever the form holds, a chat completion asked of the provider
    is made of one of the two instructions of the route, as its only
    system message, then the history read from the form, then the trimmed
    message as the last user turn; an image is asked for the fixed
    preamble and the sanitized message; speech is asked for a sanitized
    text.  The history never holds a system message. *)
Theorem POST_requests env formData m w :
  configured env = true ->
  get (js "message") formData = Some (FString m) ->
  trim m <> [] ->
  let history := fst (readHistory (get (js "history") formData)) in
  Forall (route_request (trim m) history)
         (calls (snd (POST openai env (Form formData) w)))
  /\ Forall (fun msg => role msg <> system) history.
Proof.
  intros Hc Hm Hne history. split; [| apply readHistory_roles].
  rewrite (POST_valid openai env formData w Hc Hm Hne).
  pose proof (readHistory_calls (get (js "history") formData)) as Hl.
  unfold history. destruct (readHistory _) as [h logged].
  pose proof (dispatch_outgoing (trim m) h w) as [Hd _].
  destruct (dispatch openai (trim m) h w) as [[r w'] l].
  simpl in *. rewrite calls_app, Hl. exact Hd.
Qed.

(** X7. Answering one request takes at most four requests to the
    provider, eight when the answer is spoken, and at most seven seconds
    of waiting between them. *)
Theorem POST_budget env req w :
  List.length (calls (snd (POST openai env req w))) <= 8
  /\ (total_wait (snd (POST openai env req w)) <= 7000)%Z
  /\ (forall formData m,
        req = Form formData ->
        get (js "message") formData = Some (FString m) ->
        determineResponseType (trim m) <> audio ->
        List.length (calls (snd (POST openai env req w))) <= 4).
Proof.
  destruct (configured env) eqn:Hc.
  - destruct req as [error | formData].
    + rewrite (POST_unreadable W openai env error w Hc). simpl.
      repeat split; try lia; discriminate.
    + destruct (validMessage (get (js "message") formData))
        as [messageText |] eqn:Hv.
      * apply validMessage_some in Hv as (m & Hm & Ht & Hne).
        subst messageText.
        rewrite (POST_valid openai env formData w Hc Hm Hne).
        pose proof (readHistory_calls (get (js "history") formData)) as Hl.
        pose proof (readHistory_waits (get (js "history") formData)) as Hw.
        destruct (readHistory _) as [h logged].
        pose proof (dispatch_outgoing (trim m) h w) as (_ & Hn & Ht).
        destruct (dispatch openai (trim m) h w) as [[r w'] l].
        simpl in *. unfold total_wait in *.
        rewrite calls_app, waits_app, Hl, Hw. simpl.
        split; [destruct (determineResponseType (trim m)); lia |].
        split; [exact Ht |].
        intros fd m' [= <-] Hm' Hna. rewrite Hm in Hm'.
        injection Hm' as <-.
        destruct (determineResponseType (trim m)); try lia. congruence.
      * rewrite (POST_invalid W openai env formData w Hc Hv). simpl.
        repeat split; try lia; discriminate.
  - rewrite (POST_unconfigured W openai env req w Hc). simpl.
    repeat split; try lia; discriminate.
Qed.

End Requests.

Lemma POST_requests_witness :
  Forall (route_request (js "hello") [])
         (calls (snd (POST steady production
                        (Form [(js "message", FString (js " hello "))])
                        0%nat))).
Proof.
  apply (POST_requests nat steady production
           [(js "message", FString (js " hello "))] (js " hello ") 0%nat).
  - reflexivity.
  - reflexivity.
  - vm_compute. discriminate.
Defined.

(** ** Provider errors, as the client sees them *)

Section Statuses.

Variable W : Type.
Variable openai : OpenAI W.

(** X8. A text request whose first chat completion is refused by the
    provider with status 401, status 429 or the content-policy code is
    answered after that single call, without a wait, and with status 500:
    the wrapper has replaced the provider's error by a plain error, so the
    provider's status is not passed on; the body carries the specific
    message. *)
Theorem text_refused_at_once m h w status code message w' :
  determineResponseType m = text ->
  let request :=
    ChatCompletionsCreate
      (textInstruction :: h ++ [{| role := user; content := m |}]) 1000 in
  chat_completions_create openai
    (textInstruction :: h ++ [{| role := user; content := m |}]) 1000 w
  = (Throw (APIError status code message), w') ->
  forall specific,
    nonRetryable (APIError status code message) = Some (Error specific) ->
    dispatch openai m h w
    = (Ok {| status := 500; body := ErrorBody specific |}, w',
       [Call request; text_failed; generation_failed])
    /\ (status = Some 401%Z -> specific = ERROR_MESSAGES.INVALID_API_KEY)
    /\ (status = Some 429%Z -> specific = ERROR_MESSAGES.RATE_LIMIT)
    /\ (status <> Some 401%Z -> status <> Some 429%Z ->
        specific = ERROR_MESSAGES.CONTENT_POLICY).
Proof.
  intros Hc request Hcall specific Hs.
  assert (Hop : generateText openai
                  (h ++ [{| role := user; content := m |}]) w
                = (Throw (APIError status code message), w',
                   [Call request; text_failed])).
  { rewrite generateText_run, Hcall. reflexivity. }
  split.
  - rewrite (dispatch_text W openai m h w Hc).
    rewrite (retry_abort _ 0 Hop (Nat.lt_0_succ _) Hs). reflexivity.
  - destruct (nonRetryable_cases status code message) as (H1 & H2 & H3).
    repeat split.
    + intros E. rewrite (H1 E) in Hs. now injection Hs.
    + intros E. rewrite (H2 E) in Hs. now injection Hs.
    + intros E1 E2. unfold nonRetryable in Hs.
      destruct status as [z |]; simpl in Hs.
      * destruct (Z.eqb_spec z 401); [congruence |].
        destruct (Z.eqb_spec z 429); [congruence |].
        destruct (opt_str_eqb code _); [now injection Hs | discriminate].
      * destruct (opt_str_eqb code _); [now injection Hs | discriminate].
Qed.

(** X9. When the same refusal comes on the fourth attempt, after three
    retryable failures, the provider's error reaches the [catch] of the
    route as it is, and the answer carries the provider's status with the
    specific message: 401 for bad credentials, 429 for the rate limit, and
    400 for a content-policy violation. *)
Theorem text_refused_on_last_attempt m h w fs w1 status code message w2 l :
  determineResponseType m = text ->
  let op :=
    generateText openai (h ++ [{| role := user; content := m |}]) in
  List.length fs = 3 ->
  Forall retryable fs ->
  fails op w fs w1 ->
  op w1 = (Throw (APIError status code message), w2, l) ->
  dispatch openai m h w
  = (Ok (generationFailure (APIError status code message)), w2,
     (retry_log 0 fs ++ l) ++ [generation_failed])
  /\ (code = Some (js "content_policy_violation") ->
      generationFailure (APIError status code message)
      = {| status := 400;
           body := ErrorBody ERROR_MESSAGES.CONTENT_POLICY |})
  /\ (opt_str_eqb code (js "content_policy_violation") = false ->
      (status = Some 401%Z ->
       generationFailure (APIError status code message)
       = {| status := 401;
            body := ErrorBody ERROR_MESSAGES.INVALID_API_KEY |})
      /\ (status = Some 429%Z ->
          generationFailure (APIError status code message)
          = {| status := 429;
               body := ErrorBody ERROR_MESSAGES.RATE_LIMIT |})).
Proof.
  intros Hc op Hk Hr Hf Hop. split; [| split].
  - rewrite (dispatch_text W openai m h w Hc). fold op.
    rewrite (retry_run op 0 (Nat.eq_le_incl _ _ Hk) Hr Hf). simpl Nat.add.
    rewrite (retry_exhausted op _ Hop); [reflexivity |].
    rewrite Hk. apply Nat.le_refl.
  - intros ->. unfold generationFailure. reflexivity.
  - intros Hcode. unfold generationFailure. rewrite Hcode.
    split; intros ->; reflexivity.
Qed.

Lemma always_failing T (op : M W T) e l0 :
  nonRetryable e = None ->
  (forall w, exists w', op w = (Throw e, w', l0)) ->
  forall w, exists w',
    retryWithBackoff op 0 w
    = (Throw e, w',
       l0 ++ Wait 1000 :: l0 ++ Wait 2000 :: l0 ++ Wait 4000 :: l0).
Proof.
  intros He Hop w.
  destruct (Hop w) as [w1 H1]. destruct (Hop w1) as [w2 H2].
  destruct (Hop w2) as [w3 H3]. destruct (Hop w3) as [w4 H4].
  exists w4.
  assert (Hf : fails op w [(e, l0); (e, l0); (e, l0)] w3).
  { apply fails_cons with (w1 := w1); [exact H1 |].
    apply fails_cons with (w1 := w2); [exact H2 |].
    apply fails_cons with (w1 := w3); [exact H3 |]. constructor. }
  assert (Hr : Forall retryable [(e, l0); (e, l0); (e, l0)]).
  { repeat constructor; exact He. }
  rewrite (retry_run op 0 (fs := [(e, l0); (e, l0); (e, l0)])
             (Nat.le_refl 3) Hr Hf). simpl Nat.add.
  rewrite (retry_exhausted op 3 H4 (Nat.le_refl 3)).
  cbn [retry_log].
  change (backoff 0) with 1000%Z. change (backoff 1) with 2000%Z.
  change (backoff 2) with 4000%Z. f_equal.
  repeat (rewrite <- app_assoc || rewrite <- app_comm_cons).
  reflexivity.
Qed.

(** X10. An image request that the provider refuses every time for its
    content is not stopped at the first refusal: [generateImage] turns the
    provider's error into a plain error, which the wrapper retries.  The
    provider is asked four times, 7 seconds are spent waiting, and the
    answer has status 500 with the content-policy message. *)
Theorem image_refusal_is_retried m h w :
  determineResponseType m = image ->
  let request :=
    ImagesGenerate (js "Create a safe, appropriate image of: "
                    ++ sanitizePrompt m) in
  (forall w, exists status message w',
      images_generate openai
        (js "Create a safe, appropriate image of: " ++ sanitizePrompt m) w
      = (Throw (APIError status (Some (js "content_policy_violation"))
                         message), w')) ->
  exists w' l,
    dispatch openai m h w
    = (Ok {| status := 500;
             body := ErrorBody ERROR_MESSAGES.CONTENT_POLICY |}, w', l)
    /\ calls l = [request; request; request; request]
    /\ waits l = [1000; 2000; 4000]%Z.
Proof.
  intros Hc request Hrefuse.
  assert (Hop : forall w, exists w',
             generateImage openai m w
             = (Throw (Error ERROR_MESSAGES.CONTENT_POLICY), w',
                [Call request; image_failed])).
  { intros w0. destruct (Hrefuse w0) as (status & message & w' & H).
    exists w'. rewrite generateImage_run. cbv zeta. rewrite H.
    reflexivity. }
  destruct (always_failing _ (generateImage openai m)
              (Error ERROR_MESSAGES.CONTENT_POLICY)
              [Call request; image_failed] eq_refl Hop w)
    as [w' Hrun].
  rewrite (dispatch_image W openai m h w Hc), Hrun.
  eexists. eexists. split; [reflexivity |]. split; reflexivity.
Qed.

End Statuses.

Lemma text_refused_at_once_witness :
  dispatch throttled (js "hello") [] 0%nat
  = (Ok {| status := 500; body := ErrorBody ERROR_MESSAGES.RATE_LIMIT |},
     1%nat,
     [Call (ChatCompletionsCreate
              [textInstruction; {| role := user; content := js "hello" |}]
              1000);
      text_failed; generation_failed]).
Proof.
  apply (text_refused_at_once nat throttled (js "hello") [] 0%nat
           (Some 429%Z) (Some (js "rate_limit_exceeded"))
           (js "Rate limit reached.") 1%nat).
  - vm_compute. reflexivity.
  - reflexivity.
  - reflexivity.
Defined.

Lemma text_refused_on_last_attempt_witness :
  dispatch strict (js "hello") [] 0%nat
  = (Ok {| status := 401;
           body := ErrorBody ERROR_MESSAGES.INVALID_API_KEY |},
     4%nat,
     snd (dispatch strict (js "hello") [] 0%nat)).
Proof.
  pose (request :=
          ChatCompletionsCreate
            [textInstruction; {| role := user; content := js "hello" |}]
            1000).
  destruct (text_refused_on_last_attempt nat strict (js "hello") [] 0%nat
              [(boom, [Call request; text_failed]);
               (boom, [Call request; text_failed]);
               (boom, [Call request; text_failed])]
              3%nat (Some 401%Z) (Some (js "invalid_api_key"))
              (js "Incorrect API key provided.") 4%nat
              [Call request; text_failed]) as (H & _ & H401).
  - vm_compute. reflexivity.
  - reflexivity.
  - repeat constructor.
  - apply fails_cons with (w1 := 1%nat); [reflexivity |].
    apply fails_cons with (w1 := 2%nat); [reflexivity |].
    apply fails_cons with (w1 := 3%nat); [reflexivity |].
    constructor.
  - reflexivity.
  - rewrite H. simpl snd.
    rewrite (proj1 (H401 eq_refl) eq_refl). reflexivity.
Defined.

Lemma image_refusal_is_retried_witness :
  exists w' l,
    dispatch strict (js "draw a picture of a cat") [] 0%nat
    = (Ok {| status := 500;
             body := ErrorBody ERROR_MESSAGES.CONTENT_POLICY |}, w', l)
    /\ List.length (calls l) = 4
    /\ waits l = [1000; 2000; 4000]%Z.
Proof.
  destruct (image_refusal_is_retried nat strict
              (js "draw a picture of a cat") [] 0%nat)
    as (w' & l & H & Hcalls & Hwaits).
  - vm_compute. reflexivity.
  - intros w. exists (Some 400%Z).
    exists (js "Your request was rejected by the safety system.").
    exists (S w). reflexivity.
  - exists w', l. rewrite Hcalls. auto.
Defined.

(** ** The texts of the error bodies *)

Lemma nonRetryable_tabled e specific :
  nonRetryable e = Some specific -> tabled specific.
Proof.
  destruct e as [status code message | |]; simpl; try discriminate.
  destruct (opt_Z_eqb status 401);
    [| destruct (opt_Z_eqb status 429);
       [| destruct (opt_str_eqb code _); [| discriminate]]];
    intros [= <-]; right; eexists; (split; [reflexivity |]);
    unfold sent_texts; simpl; auto 10.
Qed.

Lemma generationFailure_tabled e :
  tabled e ->
  exists status message,
    generationFailure e = error_response status message
    /\ In message sent_texts.
Proof.
  intros [Ha | (m & -> & Hm)].
  - destruct e as [status code message | |]; try contradiction.
    unfold generationFailure.
    destruct (opt_str_eqb code _).
    + do 2 eexists. split; [reflexivity |].
      unfold sent_texts; simpl; auto 10.
    + do 2 eexists. split; [reflexivity |].
      destruct (opt_Z_eqb status 429);
        [| destruct (opt_Z_eqb status 401)];
        unfold sent_texts; simpl; auto 10.
  - do 2 eexists. split; [reflexivity | exact Hm].
Qed.

Lemma retry_throws W T (op : M W T) w e w' l :
  (forall w e w' l, op w = (Throw e, w', l) -> tabled e) ->
  retryWithBackoff op 0 w = (Throw e, w', l) -> tabled e.
Proof.
  intros Hop H.
  destruct (retry_trace W T op 3 0 w eq_refl)
    as (fs & w1 & r1 & w2 & l1 & _ & _ & _ & Hlast & Hrun).
  rewrite Hrun in H. injection H as Hr _ _.
  destruct r1 as [v | e1]; unfold surfaced in Hr; [discriminate |].
  pose proof (Hop _ _ _ _ Hlast) as He1.
  destruct (Nat.leb _ _); [now injection Hr as <- |].
  destruct (nonRetryable e1) as [specific |] eqn:Hn.
  - injection Hr as <-. exact (nonRetryable_tabled _ _ Hn).
  - now injection Hr as <-.
Qed.

Section Texts.

Variable W : Type.
Variable openai : OpenAI W.
Hypothesis provider : api_errors_only openai.

Lemma no_response_tabled : tabled (Error ERROR_MESSAGES.NO_RESPONSE).
Proof.
  right. eexists. split; [reflexivity |].
  unfold sent_texts; simpl; auto 10.
Qed.

Lemma generateText_throws messages w e w' l :
  generateText openai messages w = (Throw e, w', l) -> tabled e.
Proof.
  rewrite generateText_run.
  destruct (chat_completions_create _ _ _ w) as [[[[| c t] |] | e1] w1] eqn:Hc;
    intros [= <- _ _]; try apply no_response_tabled.
  left. exact (proj1 provider _ _ _ _ _ Hc).
Qed.

Lemma generateImage_throws prompt w e w' l :
  generateImage openai prompt w = (Throw e, w', l) -> tabled e.
Proof.
  rewrite generateImage_run.
  destruct (images_generate _ _ w) as [[[[| c t] |] | e1] w1] eqn:Hc;
    try (intros [= <- _ _]; apply no_response_tabled).
  pose proof (proj1 (proj2 provider) _ _ _ _ Hc) as Ha.
  destruct e1 as [status code message | |]; try contradiction.
  intros [= <- _ _].
  destruct (opt_str_eqb code _); [| now left].
  right. eexists. split; [reflexivity |].
  unfold sent_texts; simpl; auto 10.
Qed.

Lemma generateSpeech_throws messages w e w' l :
  generateSpeech openai messages w = (Throw e, w', l) -> tabled e.
Proof.
  rewrite generateSpeech_run.
  destruct (chat_completions_create _ _ _ w) as [[[[| c t] |] | e1] w1] eqn:Hc;
    try (intros [= <- _ _]; apply no_response_tabled).
  - cbv zeta.
    destruct (audio_speech_create _ _ w1) as [[mp3 | e2] w2] eqn:Ha;
      intros [= <- _ _].
    left. exact (proj2 (proj2 provider) _ _ _ _ Ha).
  - intros [= <- _ _]. left. exact (proj1 provider _ _ _ _ _ Hc).
Qed.

Lemma dispatch_texts messageText history w response w' l error :
  dispatch openai messageText history w = (Ok response, w', l) ->
  body response = ErrorBody error -> In error sent_texts.
Proof.
  destruct (determineResponseType messageText) eqn:Hc.
  - rewrite (dispatch_image W openai messageText history w Hc).
    destruct (retryWithBackoff _ 0 w) as [[[v | e] w1] l1] eqn:Hr.
    + intros [= <- _ _]. discriminate.
    + apply retry_throws in Hr;
        [| intros; eapply generateImage_throws; eassumption].
      destruct (generationFailure_tabled e Hr) as (s & m & -> & Hm).
      intros [= <- _ _]. simpl. now intros [= <-].
  - rewrite (dispatch_audio W openai messageText history w Hc).
    destruct (retryWithBackoff _ 0 w) as [[[v | e] w1] l1] eqn:Hr.
    + intros [= <- _ _]. discriminate.
    + apply retry_throws in Hr;
        [| intros; eapply generateSpeech_throws; eassumption].
      destruct (generationFailure_tabled e Hr) as (s & m & -> & Hm).
      intros [= <- _ _]. simpl. now intros [= <-].
  - rewrite (dispatch_text W openai messageText history w Hc).
    destruct (retryWithBackoff _ 0 w) as [[[[| c0 t] | e] w1] l1] eqn:Hr.
    + intros [= <- _ _]. simpl. intros [= <-].
      unfold sent_texts; simpl; auto 10.
    + intros [= <- _ _]. discriminate.
    + apply retry_throws in Hr;
        [| intros; eapply generateText_throws; eassumption].
      destruct (generationFailure_tabled e Hr) as (s & m & -> & Hm).
      intros [= <- _ _]. simpl. now intros [= <-].
Qed.

(** X21. The route answers every request whose form can be read and
    throws nothing; when the provider fails with API errors only, the text
    of an error body is one of seven texts of [ERROR_MESSAGES], so the
    provider's own message never reaches the client. *)
Theorem POST_error_texts env formData w :
  exists response w' l,
    POST openai env (Form formData) w = (Ok response, w', l)
    /\ forall error, body response = ErrorBody error -> In error sent_texts.
Proof.
  destruct (configured env) eqn:Hc.
  - destruct (validMessage (get (js "message") formData))
      as [messageText |] eqn:Hv.
    + apply validMessage_some in Hv as (m & Hm & Ht & Hne).
      subst messageText.
      rewrite (POST_valid openai env formData w Hc Hm Hne).
      destruct (readHistory _) as [history logged].
      destruct (dispatch_responds openai (trim m) history w)
        as [response Hr].
      destruct (dispatch openai (trim m) history w) as [[r w1] l1] eqn:Hd.
      simpl in Hr. subst r.
      exists response, w1, (logged ++ l1). split; [reflexivity |].
      intros error. exact (dispatch_texts _ _ _ _ _ _ _ Hd).
    + rewrite (POST_invalid W openai env formData w Hc Hv).
      do 3 eexists. split; [reflexivity |].
      simpl. intros error [= <-]. unfold sent_texts; simpl; auto 10.
  - rewrite (POST_unconfigured W openai env (Form formData) w Hc).
    do 3 eexists. split; [reflexivity |].
    simpl. intros error [= <-]. unfold sent_texts; simpl; auto 10.
Qed.

End Texts.

Lemma throttled_api_errors_only : api_errors_only throttled.
Proof.
  repeat split; simpl; intros; match goal with
    | H : (Throw _, _) = (Throw _, _) |- _ => injection H as <- _
    end; exact I.
Qed.

Lemma POST_error_texts_witness :
  exists response w' l,
    POST throttled production
         (Form [(js "message", FString (js "hello"))]) 0%nat
    = (Ok response, w', l)
    /\ forall error, body response = ErrorBody error -> In error sent_texts.
Proof.
  exact (POST_error_texts nat throttled throttled_api_errors_only production
           [(js "message", FString (js "hello"))] 0%nat).
Defined.

(* ===================================================================== *)
(** * From the client to the route *)
(* ===================================================================== *)

Module Wire.

Import Stringify.

Local Open Scope N_scope.

Example stringify_example :
  stringify [(Client.from_user, jsq "say 'hi'");
             (Client.from_assistant, [104; 105; 10])]
  = jsq "[{'role':'user','content':'say \'hi\''},{'role':'assistant','content':'hi\n'}]".
Proof. vm_compute. reflexivity. Qed.

(** ** Strings *)

Lemma string_chars_literal f c r :
  c <> 34 -> c <> 92 ->
  string_chars (S f) (c :: r) =
  if c <? 32 then None
  else match string_chars f r with
       | Some (cs, r') => Some (c :: cs, r')
       | None => None
       end.
Proof.
  intros H34 H92.
  destruct c as [| p]; [reflexivity |].
  do 7 (try (destruct p as [p | p |]); try reflexivity);
    try (exfalso; apply H34; reflexivity);
    try (exfalso; apply H92; reflexivity).
Qed.

Lemma string_chars_simple f e c r :
  In (e, c) [(34, 34); (92, 92); (98, 8); (102, 12); (110, 10);
             (114, 13); (116, 9)] ->
  string_chars (S f) (92 :: e :: r) =
  match string_chars f r with
  | Some (cs, r') => Some (c :: cs, r')
  | None => None
  end.
Proof.
  simpl. intros H.
  repeat (destruct H as [[= <- <-] | H]; [reflexivity |]).
  contradiction.
Qed.

Lemma string_chars_unicode f r :
  string_chars (S f) (92 :: 117 :: r) =
  match hex4 r with
  | Some (c, r') =>
      match string_chars f r' with
      | Some (cs, r'') => Some (c :: cs, r'')
      | None => None
      end
  | None => None
  end.
Proof. reflexivity. Qed.

Lemma hex_value_digit d : d < 16 -> hex_value (hex_digit d) = Some d.
Proof.
  intros Hd. unfold hex_digit, hex_value, is_digit, in_range.
  destruct (d <? 10) eqn:E.
  - apply N.ltb_lt in E.
    replace (48 <=? 48 + d) with true by (symmetry; apply N.leb_le; lia).
    replace (48 + d <=? 57) with true by (symmetry; apply N.leb_le; lia).
    cbn [andb]. f_equal. lia.
  - apply N.ltb_ge in E.
    replace (87 + d <=? 57) with false by (symmetry; apply N.leb_gt; lia).
    rewrite andb_false_r.
    replace (97 <=? 87 + d) with true by (symmetry; apply N.leb_le; lia).
    replace (87 + d <=? 102) with true by (symmetry; apply N.leb_le; lia).
    cbn [andb]. f_equal. lia.
Qed.

Lemma hex4_escape c r :
  c < 65536 ->
  hex4 (skipn 2 (unicode_escape c) ++ r) = Some (c, r).
Proof.
  intros Hc. unfold unicode_escape. cbn [skipn app]. unfold hex4.
  assert (H1 : c / 4096 < 16) by (apply N.Div0.div_lt_upper_bound; lia).
  assert (H2 : (c / 256) mod 16 < 16) by (apply N.mod_lt; lia).
  assert (H3 : (c / 16) mod 16 < 16) by (apply N.mod_lt; lia).
  assert (H4 : c mod 16 < 16) by (apply N.mod_lt; lia).
  rewrite !hex_value_digit by assumption.
  f_equal. f_equal.
  pose proof (N.div_mod c 16). pose proof (N.div_mod (c / 16) 16).
  pose proof (N.div_mod (c / 256) 16).
  assert (E1 : c / 16 / 16 = c / 256)
    by (rewrite N.Div0.div_div; reflexivity).
  assert (E2 : c / 256 / 16 = c / 4096)
    by (rewrite N.Div0.div_div; reflexivity).
  lia.
Qed.

(** Reading back one escaped code unit. *)
Lemma string_chars_escape_one f c r :
  string_chars (S f) (escape_one c ++ r) =
  match string_chars f r with
  | Some (cs, r') => Some (c :: cs, r')
  | None => None
  end.
Proof.
  unfold escape_one, cu_eqb.
  destruct (N.eqb_spec c 8) as [-> |];
    [apply (string_chars_simple f 98 8); simpl; tauto |].
  destruct (N.eqb_spec c 9) as [-> |];
    [apply (string_chars_simple f 116 9); simpl; tauto |].
  destruct (N.eqb_spec c 10) as [-> |];
    [apply (string_chars_simple f 110 10); simpl; tauto |].
  destruct (N.eqb_spec c 12) as [-> |];
    [apply (string_chars_simple f 102 12); simpl; tauto |].
  destruct (N.eqb_spec c 13) as [-> |];
    [apply (string_chars_simple f 114 13); simpl; tauto |].
  destruct (N.eqb_spec c 34) as [-> |];
    [apply (string_chars_simple f 34 34); simpl; tauto |].
  destruct (N.eqb_spec c 92) as [-> |];
    [apply (string_chars_simple f 92 92); simpl; tauto |].
  destruct ((c <? 32) || is_high_surrogate c || is_low_surrogate c) eqn:E.
  - assert (Hc : c < 65536).
    { unfold is_high_surrogate, is_low_surrogate, in_range in E.
      apply orb_true_iff in E as [E | E];
        [apply orb_true_iff in E as [E | E] |].
      - apply N.ltb_lt in E. lia.
      - apply andb_true_iff in E as [_ E]. apply N.leb_le in E. lia.
      - apply andb_true_iff in E as [_ E]. apply N.leb_le in E. lia. }
    change (unicode_escape c ++ r)
      with (92 :: 117 :: skipn 2 (unicode_escape c) ++ r).
    rewrite string_chars_unicode, (hex4_escape c r Hc). reflexivity.
  - apply orb_false_iff in E as [E _].
    apply orb_false_iff in E as [E _].
    cbn [app]. rewrite string_chars_literal by assumption. now rewrite E.
Qed.

Lemma surrogate_literal c :
  is_high_surrogate c = true \/ is_low_surrogate c = true ->
  c <> 34 /\ c <> 92 /\ (c <? 32) = false.
Proof.
  unfold is_high_surrogate, is_low_surrogate, in_range.
  intros [E | E]; apply andb_true_iff in E as [E _];
    apply N.leb_le in E; repeat split; try lia; apply N.ltb_ge; lia.
Qed.

Lemma quote_chars_length s : (List.length s <= List.length (quote_chars s))%nat.
Proof.
  assert (H1 : forall c, (1 <= List.length (escape_one c))%nat).
  { intros c. unfold escape_one, unicode_escape.
    repeat (match goal with
            | |- context [if ?b then _ else _] => destruct b
            end; simpl; try lia). }
  assert (H : forall n s, (List.length s <= n)%nat ->
                          (List.length s <= List.length (quote_chars s))%nat).
  { clear s. induction n as [| n IH]; intros s Hn.
    - destruct s; [simpl; lia | simpl in Hn; lia].
    - destruct s as [| c [| d s']]; [simpl; lia | |].
      + simpl. apply H1.
      + cbn [quote_chars].
        destruct (is_high_surrogate c && is_low_surrogate d).
        * simpl in *. specialize (IH s'). lia.
        * rewrite length_app. specialize (H1 c).
          specialize (IH (d :: s')). simpl in *. lia. }
  exact (H _ s (Nat.le_refl _)).
Qed.

(** The parser reads a quoted string back, given fuel for each of its
    code units and one for the closing quote. *)
Lemma string_chars_quote s : forall f rest,
  (List.length s < f)%nat ->
  string_chars f (quote_chars s ++ 34 :: rest) = Some (s, rest).
Proof.
  assert (H : forall n s, (List.length s <= n)%nat -> forall f rest,
             (List.length s < f)%nat ->
             string_chars f (quote_chars s ++ 34 :: rest) = Some (s, rest)).
  { clear s. induction n as [| n IH]; intros s Hn f rest Hf.
    - destruct s; [| simpl in Hn; lia].
      destruct f; [simpl in Hf; lia | reflexivity].
    - destruct s as [| c [| d s']].
      + destruct f; [simpl in Hf; lia | reflexivity].
      + destruct f as [| f]; [simpl in Hf; lia |].
        cbn [quote_chars]. rewrite string_chars_escape_one.
        change (34 :: rest) with (quote_chars [] ++ 34 :: rest).
        rewrite (IH [] (Nat.le_0_l _) f rest); [reflexivity |].
        simpl in *. lia.
      + destruct f as [| [| f]]; try (simpl in Hf; lia).
        cbn [quote_chars].
        destruct (is_high_surrogate c && is_low_surrogate d) eqn:E.
        * apply andb_true_iff in E as [Ec Ed].
          destruct (surrogate_literal c (or_introl Ec)) as (A1 & A2 & A3).
          destruct (surrogate_literal d (or_intror Ed)) as (B1 & B2 & B3).
          cbn [app].
          rewrite (string_chars_literal (S f) c _ A1 A2), A3.
          rewrite (string_chars_literal f d _ B1 B2), B3.
          rewrite (IH s'); [reflexivity | simpl in *; lia | simpl in *; lia].
        * rewrite <- app_assoc, string_chars_escape_one.
          rewrite (IH (d :: s')); [reflexivity | simpl in *; lia |
                                    simpl in *; lia]. }
  intros f rest. exact (H _ s (Nat.le_refl _) f rest).
Qed.

(** ** Values *)

Lemma value_string f r :
  value (S f) (34 :: r) =
  match string_chars (S (List.length r)) r with
  | Some (cs, r') => Some (JString cs, r')
  | None => None
  end.
Proof. reflexivity. Qed.

Lemma value_quote f s rest :
  value (S f) (quote s ++ rest) = Some (JString s, rest).
Proof.
  unfold quote. cbn [app]. rewrite <- app_assoc. cbn [app].
  rewrite value_string, string_chars_quote; [reflexivity |].
  rewrite length_app. pose proof (quote_chars_length s). simpl. lia.
Qed.

Lemma members_quote f key r :
  members (S f) (quote key ++ 58 :: r) =
  match value f r with
  | Some (v, r3) =>
      match skip_ws r3 with
      | 125 :: r4 => Some ([(key, v)], r4)
      | 44 :: r4 =>
          match members f r4 with
          | Some (ms, r5) => Some ((key, v) :: ms, r5)
          | None => None
          end
      | _ => None
      end
  | None => None
  end.
Proof.
  unfold quote. cbn [app]. rewrite <- app_assoc. cbn [app].
  change (members (S f) (34 :: quote_chars key ++ 34 :: 58 :: r))
    with (match string_chars
                  (S (List.length (quote_chars key ++ 34 :: 58 :: r)))
                  (quote_chars key ++ 34 :: 58 :: r) with
          | Some (k, r1) =>
              match skip_ws r1 with
              | 58 :: r2 =>
                  match value f r2 with
                  | Some (v, r3) =>
                      match skip_ws r3 with
                      | 125 :: r4 => Some ([(k, v)], r4)
                      | 44 :: r4 =>
                          match members f r4 with
                          | Some (ms, r5) => Some ((k, v) :: ms, r5)
                          | None => None
                          end
                      | _ => None
                      end
                  | None => None
                  end
              | _ => None
              end
          | None => None
          end).
  rewrite string_chars_quote; [reflexivity |].
  rewrite length_app. pose proof (quote_chars_length key). simpl. lia.
Qed.

Lemma entry_text e :
  entry e = 123 :: quote (js "role") ++ 58 :: quote (role_text (fst e))
            ++ 44 :: quote (js "content") ++ 58 :: quote (snd e) ++ [125].
Proof.
  unfold entry.
  change (jsq "{'role':") with (123 :: quote (js "role") ++ [58]).
  change (jsq ",'content':") with (44 :: quote (js "content") ++ [58]).
  change (js "}") with [125].
  repeat (rewrite <- app_assoc || rewrite <- app_comm_cons || cbn [app]).
  reflexivity.
Qed.

Lemma value_object f r :
  value (S f) (123 :: 34 :: r) =
  match members f (34 :: r) with
  | Some (ms, r') => Some (JObject ms, r')
  | None => None
  end.
Proof. reflexivity. Qed.

Lemma value_object_quote f key r :
  value (S f) (123 :: quote key ++ r) =
  match members f (quote key ++ r) with
  | Some (ms, r') => Some (JObject ms, r')
  | None => None
  end.
Proof. unfold quote. cbn [app]. apply value_object. Qed.

Lemma skip_ws_comma r : skip_ws (44 :: r) = 44 :: r.
Proof. reflexivity. Qed.

Lemma skip_ws_brace r : skip_ws (125 :: r) = 125 :: r.
Proof. reflexivity. Qed.

Lemma skip_ws_bracket r : skip_ws (93 :: r) = 93 :: r.
Proof. reflexivity. Qed.

Lemma value_entry f e tail :
  value (S (S (S (S f)))) (entry e ++ tail) = Some (entry_value e, tail).
Proof.
  rewrite entry_text.
  repeat (rewrite <- app_assoc || rewrite <- app_comm_cons || cbn [app]).
  rewrite value_object_quote, members_quote, value_quote, skip_ws_comma.
  cbv beta iota.
  rewrite members_quote, value_quote, skip_ws_brace.
  reflexivity.
Qed.

Lemma elements_unfold f s :
  elements (S f) s =
  match value f s with
  | Some (v, r) =>
      match skip_ws r with
      | 93 :: r' => Some ([v], r')
      | 44 :: r' =>
          match elements f r' with
          | Some (vs, r'') => Some (v :: vs, r'')
          | None => None
          end
      | _ => None
      end
  | None => None
  end.
Proof. reflexivity. Qed.

Lemma elements_entries more : forall e f rest,
  (List.length more + 5 <= f)%nat ->
  elements f (entries_text e more rest)
  = Some (map entry_value (e :: more), rest).
Proof.
  induction more as [| e' more IH]; intros e f rest Hf;
    (destruct f as [| [| [| [| [| f]]]]]; [simpl in Hf; lia .. |]);
    cbn [entries_text]; rewrite elements_unfold, value_entry.
  - rewrite skip_ws_bracket. reflexivity.
  - rewrite skip_ws_comma. cbv beta iota.
    rewrite IH; [reflexivity | simpl in *; lia].
Qed.

Lemma stringify_entries e more :
  stringify (e :: more) = 91 :: entries_text e more [].
Proof.
  unfold stringify. change (js "[") with [91]. change (js "]") with [93].
  change (js ",") with [44]. cbn [app]. f_equal.
  revert e. induction more as [| e' more IH]; intros e.
  - simpl. reflexivity.
  - cbn [map join entries_text] in *.
    rewrite <- !app_assoc. f_equal. cbn [app]. f_equal.
    specialize (IH e'). cbn [map] in IH. exact IH.
Qed.

Lemma entries_text_length e more rest :
  (List.length more < List.length (entries_text e more rest))%nat.
Proof.
  revert e. induction more as [| e' more IH]; intros e;
    cbn [entries_text]; rewrite length_app; simpl; [lia |].
  specialize (IH e'). lia.
Qed.

Lemma value_array f e more rest :
  value (S f) (91 :: entries_text e more rest) =
  match elements f (entries_text e more rest) with
  | Some (vs, r') => Some (JArray vs, r')
  | None => None
  end.
Proof.
  destruct more; cbn [entries_text]; rewrite entry_text;
    unfold quote; cbn [app]; reflexivity.
Qed.

(** [JSON.parse] reads the serialized history back as the array of its
    entries. *)
Lemma parse_stringify history :
  JSON.parse (stringify history) = Some (JArray (map entry_value history)).
Proof.
  destruct history as [| e more]; [reflexivity |].
  rewrite stringify_entries. unfold JSON.parse.
  pose proof (entries_text_length e more []) as Hlen.
  match goal with |- context [value ?n _] => remember n as fuel end.
  destruct fuel as [| fuel]; [simpl in Heqfuel; lia |].
  rewrite value_array, elements_entries; [reflexivity |].
  simpl in Heqfuel. lia.
Qed.

Lemma to_message_entry e :
  to_message (entry_value e)
  = Some {| role := match fst e with
                    | Client.from_user => user
                    | Client.from_assistant => assistant
                    end;
            content := snd e |}.
Proof.
  destruct e as [[] [| c t]]; reflexivity.
Qed.

Lemma readHistory_stringify history :
  readHistory (Some (FString (stringify history)))
  = (route_history history, []).
Proof.
  unfold readHistory.
  destruct (stringify history) as [| c t] eqn:Hs; [discriminate |].
  rewrite <- Hs, parse_stringify.
  assert (Hf : filter is_object (map entry_value history)
               = map entry_value history).
  { clear Hs. induction history as [| e h IH]; [reflexivity |].
    cbn [map filter entry_value is_object]. now f_equal. }
  assert (Hm : map_throwing to_message (map entry_value history)
               = Some (route_history history)).
  { clear Hs Hf. induction history as [| e h IH]; [reflexivity |].
    cbn [map map_throwing route_history]. rewrite to_message_entry.
    fold (route_history h). now rewrite IH. }
  now rewrite Hf, Hm.
Qed.

(** *** What the multipart encoding does to the two texts *)

Lemma toUSVString_unit c s :
  is_surrogate c = false -> toUSVString (c :: s) = c :: toUSVString s.
Proof.
  intros Hc. apply orb_false_elim in Hc as Hhl. destruct Hhl as [Hh _].
  destruct s as [| d s']; simpl; rewrite Hc; [reflexivity |].
  now rewrite Hh.
Qed.

Lemma toUSVString_pair h l s :
  is_high_surrogate h = true -> is_low_surrogate l = true ->
  toUSVString (h :: l :: s) = h :: l :: toUSVString s.
Proof. intros Hh Hl. simpl. now rewrite Hh, Hl. Qed.

Lemma surrogate_no_newline c :
  is_surrogate c = true -> cu_eqb c 13 = false /\ cu_eqb c 10 = false.
Proof.
  unfold is_surrogate, is_high_surrogate, is_low_surrogate, in_range, cu_eqb.
  intros H. split; apply N.eqb_neq; intros ->; discriminate.
Qed.

Lemma normalize_newlines_other c s :
  cu_eqb c 13 = false -> cu_eqb c 10 = false ->
  normalize_newlines (c :: s) = c :: normalize_newlines s.
Proof. intros H13 H10. simpl. now rewrite H13, H10. Qed.

Lemma wire_safe_received s : wire_safe s -> received s = s.
Proof.
  unfold received. induction 1 as [| c s Hc H13 H10 _ IH | h l s Hh Hl _ IH].
  - reflexivity.
  - rewrite (toUSVString_unit _ _ Hc), (normalize_newlines_other _ _ H13 H10).
    now rewrite IH.
  - rewrite (toUSVString_pair _ _ _ Hh Hl).
    assert (Hsh : is_surrogate h = true)
      by (unfold is_surrogate; now rewrite Hh).
    assert (Hsl : is_surrogate l = true)
      by (unfold is_surrogate; rewrite Hl; apply orb_true_r).
    destruct (surrogate_no_newline _ Hsh) as [A B].
    destruct (surrogate_no_newline _ Hsl) as [C D].
    rewrite (normalize_newlines_other _ _ A B).
    rewrite (normalize_newlines_other _ _ C D). now rewrite IH.
Qed.

Lemma wire_safe_app a b : wire_safe a -> wire_safe b -> wire_safe (a ++ b).
Proof.
  induction 1; intros Hb; simpl;
    [exact Hb | apply wire_safe_unit; auto | apply wire_safe_pair; auto].
Qed.

Lemma plain_safe s : forallb plain s = true -> wire_safe s.
Proof.
  induction s as [| c s IH]; simpl; [constructor |].
  rewrite andb_true_iff. intros [Hc Hs]. unfold plain in Hc.
  apply andb_true_iff in Hc as [Hc H10].
  apply andb_true_iff in Hc as [Hlt H13].
  apply N.ltb_lt in Hlt. apply negb_true_iff in H13, H10.
  constructor; auto.
  unfold is_surrogate, is_high_surrogate, is_low_surrogate, in_range.
  apply orb_false_iff. split; apply andb_false_iff; left;
    apply N.leb_gt; lia.
Qed.

Lemma hex_digit_plain d : d < 16 -> plain (hex_digit d) = true.
Proof.
  intros Hd. unfold hex_digit, plain, cu_eqb.
  destruct (d <? 10) eqn:E;
    [apply N.ltb_lt in E | apply N.ltb_ge in E];
    repeat (apply andb_true_iff; split);
    try (apply N.ltb_lt; lia);
    apply negb_true_iff, N.eqb_neq; lia.
Qed.

Lemma unicode_escape_safe c : c < 65536 -> wire_safe (unicode_escape c).
Proof.
  intros Hc. apply plain_safe. unfold unicode_escape.
  cbn [forallb].
  assert (H1 : c / 4096 < 16) by (apply N.Div0.div_lt_upper_bound; lia).
  rewrite !hex_digit_plain; [reflexivity | | | | exact H1];
    apply N.mod_lt; discriminate.
Qed.

Lemma escape_one_safe c : wire_safe (escape_one c).
Proof.
  unfold escape_one.
  repeat match goal with
         | |- context [if cu_eqb c ?k then _ else _] =>
             destruct (cu_eqb c k) eqn:?;
               [apply plain_safe; reflexivity |]
         end.
  destruct (c <? 32) eqn:E32; simpl.
  - apply unicode_escape_safe. apply N.ltb_lt in E32. lia.
  - destruct (is_high_surrogate c) eqn:Hh; simpl.
    + apply unicode_escape_safe.
      unfold is_high_surrogate, in_range in Hh.
      apply andb_true_iff in Hh as [_ Hh]. apply N.leb_le in Hh. lia.
    + destruct (is_low_surrogate c) eqn:Hl.
      * apply unicode_escape_safe.
        unfold is_low_surrogate, in_range in Hl.
        apply andb_true_iff in Hl as [_ Hl]. apply N.leb_le in Hl. lia.
      * constructor; [| assumption | assumption | constructor].
        unfold is_surrogate. now rewrite Hh, Hl.
Qed.

Lemma quote_chars_two c d s :
  quote_chars (c :: d :: s)
  = if is_high_surrogate c && is_low_surrogate d
    then c :: d :: quote_chars s
    else escape_one c ++ quote_chars (d :: s).
Proof. reflexivity. Qed.

Lemma quote_chars_safe s : wire_safe (quote_chars s).
Proof.
  assert (H : forall n s, (List.length s <= n)%nat ->
                          wire_safe (quote_chars s)).
  { clear s. induction n as [| n IH]; intros s Hn.
    - destruct s; [constructor | simpl in Hn; lia].
    - destruct s as [| c [| d s']]; [constructor | apply escape_one_safe |].
      rewrite quote_chars_two.
      destruct (is_high_surrogate c && is_low_surrogate d) eqn:E.
      + apply andb_true_iff in E as [Hh Hl].
        apply wire_safe_pair; auto. apply IH. simpl in Hn. lia.
      + apply wire_safe_app; [apply escape_one_safe |].
        apply IH. simpl in Hn. simpl. lia. }
  exact (H _ s (Nat.le_refl _)).
Qed.

Lemma quote_safe s : wire_safe (quote s).
Proof.
  unfold quote. apply (wire_safe_app [34]); [apply plain_safe; reflexivity |].
  apply wire_safe_app; [apply quote_chars_safe | apply plain_safe; reflexivity].
Qed.

Lemma entry_safe e : wire_safe (entry e).
Proof.
  unfold entry.
  repeat (apply wire_safe_app);
    try apply quote_safe; apply plain_safe; reflexivity.
Qed.

Lemma join_safe sep fields :
  wire_safe sep -> Forall wire_safe fields -> wire_safe (join sep fields).
Proof.
  intros Hsep. induction 1 as [| f fs Hf Hfs IH]; [constructor |].
  destruct fs as [| g fs]; [exact Hf |].
  change (join sep (f :: g :: fs)) with (f ++ sep ++ join sep (g :: fs)).
  repeat apply wire_safe_app; auto.
Qed.

Lemma stringify_safe history : wire_safe (stringify history).
Proof.
  unfold stringify.
  apply wire_safe_app; [apply plain_safe; reflexivity |].
  apply wire_safe_app; [| apply plain_safe; reflexivity].
  apply join_safe; [apply plain_safe; reflexivity |].
  apply Forall_forall. intros f Hf. apply in_map_iff in Hf as (e & <- & _).
  apply entry_safe.
Qed.

(** [JSON.stringify] escapes what the encoding would change. *)
Lemma received_stringify history :
  received (stringify history) = stringify history.
Proof. apply wire_safe_received, stringify_safe. Qed.

(** *** White space on the way *)

Lemma dropWhile_nil f s : dropWhile f s = [] <-> forallb f s = true.
Proof.
  induction s as [| c s IH]; simpl; [tauto |].
  destruct (f c); simpl; [exact IH |]. split; discriminate.
Qed.

Lemma trim_nil s : trim s = [] <-> forallb is_space s = true.
Proof.
  unfold trim. split.
  - intros H. apply (f_equal (@rev _)) in H. rewrite rev_involutive in H.
    simpl in H. apply dropWhile_nil in H.
    pose proof (dropWhile_head is_space s) as Hh.
    destruct (dropWhile is_space s) as [| c t] eqn:E.
    + now apply dropWhile_nil.
    + rewrite forallb_forall in H.
      rewrite (H c) in Hh; [discriminate |].
      apply in_rev. rewrite rev_involutive. now left.
  - intros H. apply dropWhile_nil in H. now rewrite H.
Qed.

Lemma surrogate_no_space c : is_surrogate c = true -> is_space c = false.
Proof.
  unfold is_surrogate, is_high_surrogate, is_low_surrogate, is_space,
    in_range, cu_eqb.
  intros H.
  assert (Hc : 55296 <= c <= 57343).
  { apply orb_true_iff in H as [H | H];
      apply andb_true_iff in H as [H1 H2];
      apply N.leb_le in H1; apply N.leb_le in H2; lia. }
  repeat (apply orb_false_iff; split);
    try (apply N.eqb_neq; lia);
    apply andb_false_iff;
    first [left; apply N.leb_gt; lia | right; apply N.leb_gt; lia].
Qed.

Lemma toUSVString_two c d s :
  toUSVString (c :: d :: s)
  = if is_high_surrogate c && is_low_surrogate d
    then c :: d :: toUSVString s
    else (if is_surrogate c then 65533 else c) :: toUSVString (d :: s).
Proof. reflexivity. Qed.

Lemma normalize_newlines_cons c rest :
  normalize_newlines (c :: rest)
  = if cu_eqb c 13 then
      13 :: 10 ::
        match rest with
        | d :: s' =>
            if cu_eqb d 10 then normalize_newlines s'
            else normalize_newlines rest
        | [] => []
        end
    else if cu_eqb c 10 then 13 :: 10 :: normalize_newlines rest
    else c :: normalize_newlines rest.
Proof. reflexivity. Qed.

Lemma toUSVString_spaces s :
  forallb is_space (toUSVString s) = forallb is_space s.
Proof.
  assert (H : forall n s, (List.length s <= n)%nat ->
                forallb is_space (toUSVString s) = forallb is_space s).
  { clear s. induction n as [| n IH]; intros s Hn.
    - destruct s; [reflexivity | simpl in Hn; lia].
    - assert (Hone : forall c,
                is_space (if is_surrogate c then 65533 else c) = is_space c).
      { intros c. destruct (is_surrogate c) eqn:E; [| reflexivity].
        now rewrite (surrogate_no_space _ E). }
      destruct s as [| c [| d s']]; [reflexivity | |].
      + simpl. now rewrite Hone.
      + rewrite toUSVString_two.
        destruct (is_high_surrogate c && is_low_surrogate d) eqn:E.
        * apply andb_true_iff in E as [Hh Hl].
          assert (Hc : is_space c = false).
          { apply surrogate_no_space. unfold is_surrogate. now rewrite Hh. }
          cbn [forallb]. now rewrite Hc.
        * cbn [forallb]. rewrite Hone. f_equal.
          apply IH. simpl in Hn. simpl. lia. }
  exact (H _ s (Nat.le_refl _)).
Qed.

Lemma normalize_newlines_spaces s :
  forallb is_space (normalize_newlines s) = forallb is_space s.
Proof.
  assert (H : forall n s, (List.length s <= n)%nat ->
                forallb is_space (normalize_newlines s)
                = forallb is_space s).
  { clear s. induction n as [| n IH]; intros s Hn.
    - destruct s; [reflexivity | simpl in Hn; lia].
    - destruct s as [| c rest]; [reflexivity |].
      rewrite normalize_newlines_cons.
      destruct (cu_eqb c 13) eqn:E13.
      + apply N.eqb_eq in E13. subst c.
        destruct rest as [| d s']; [reflexivity |].
        destruct (cu_eqb d 10) eqn:E10.
        * apply N.eqb_eq in E10. subst d.
          cbn [forallb]. change (is_space 13) with true.
          change (is_space 10) with true. cbn [andb].
          apply IH. simpl in Hn. lia.
        * cbn [forallb]. change (is_space 13) with true.
          change (is_space 10) with true. cbn [andb].
          rewrite IH; [reflexivity | simpl in Hn; simpl; lia].
      + destruct (cu_eqb c 10) eqn:E10.
        * apply N.eqb_eq in E10. subst c.
          cbn [forallb]. change (is_space 13) with true.
          change (is_space 10) with true. cbn [andb].
          apply IH. simpl in Hn. lia.
        * cbn [forallb]. f_equal. apply IH. simpl in Hn. lia. }
  exact (H _ s (Nat.le_refl _)).
Qed.

(** A text is blank for the route exactly when it is blank for the
    client. *)
Lemma trim_received s : trim (received s) = [] <-> trim s = [].
Proof.
  rewrite !trim_nil. unfold received.
  now rewrite normalize_newlines_spaces, toUSVString_spaces.
Qed.

Example received_newlines :
  received (js "a" ++ [10] ++ js "b" ++ [13] ++ js "c" ++ [13; 10])
  = js "a" ++ [13; 10] ++ js "b" ++ [13; 10] ++ js "c" ++ [13; 10].
Proof. vm_compute. reflexivity. Qed.

Example received_surrogates :
  received [55357; 56832; 97; 55357; 98; 56832]
  = [55357; 56832; 97; 65533; 98; 65533].
Proof. vm_compute. reflexivity. Qed.

(** X11. The history that the client serializes with [JSON.stringify] is
    parsed by [JSON.parse] into the array of its entries, and the route
    reads it as the same sequence of roles and contents, whatever the
    contents hold (quotes, backslashes, control characters, lone
    surrogates); nothing is logged. *)
Theorem history_round_trip history :
  JSON.parse (stringify history) = Some (JArray (map entry_value history))
  /\ readHistory (Some (FString (stringify history)))
     = (route_history history, []).
Proof.
  split.
  - apply parse_stringify.
  - apply readHistory_stringify.
Qed.

End Wire.

Set Implicit Arguments.

(* ===================================================================== *)
(** * Properties of the client session manager *)
(* ===================================================================== *)

Module ClientFacts.
Import Client.

(* --------------------------------------------------------------------- *)
(** ** Examples *)
(* --------------------------------------------------------------------- *)

Example title_short : generateChatTitle (js "Hello there") = js "Hello there".
Proof. vm_compute. reflexivity. Qed.

Example title_question :
  generateChatTitle (js "What is the capital of France?")
  = js "What is the capital of France?...".
Proof. vm_compute. reflexivity. Qed.

Example title_long_question :
  generateChatTitle (js "How do I center a div in CSS? I tried everything.")
  = js "How do I center a div in CSS?...".
Proof. vm_compute. reflexivity. Qed.

Example title_statement :
  generateChatTitle (js "The quick brown fox jumps over the lazy dog today.")
  = js "The quick brown fox...".
Proof. vm_compute. reflexivity. Qed.

Example title_do_before_does :
  generateChatTitle (js "Does? it matter? I am really not so sure")
  = js "Does?...".
Proof. vm_compute. reflexivity. Qed.

(* --------------------------------------------------------------------- *)
(** ** What the question pattern matches *)
(* --------------------------------------------------------------------- *)

Lemma str_eqb_eq a b : str_eqb a b = true <-> a = b.
Proof.
  revert b. induction a as [| x a IH]; intros [| y b]; simpl;
    try (split; [discriminate | discriminate]); [tauto |].
  rewrite andb_true_iff, IH. unfold cu_eqb. rewrite N.eqb_eq.
  split; [intros [-> ->]; reflexivity | intros [= -> ->]; auto].
Qed.

Lemma str_eqb_refl a : str_eqb a a = true.
Proof. now apply str_eqb_eq. Qed.

Lemma canonicalize_question_mark c :
  cu_eqb (canonicalize c) (canonicalize question_mark) = true ->
  c = question_mark.
Proof.
  unfold canonicalize, cu_eqb, question_mark, is_lower, in_range. simpl.
  destruct (97 <=? c)%N eqn:E1; destruct (c <=? 122)%N eqn:E2; simpl;
    rewrite N.eqb_eq; try (intros ->; reflexivity).
  apply N.leb_le in E1. apply N.leb_le in E2. lia.
Qed.

Lemma eat_spec w : forall prev s prev' s',
  eat w prev s = Some (prev', s') ->
  exists kw, s = kw ++ s' /\ map canonicalize kw = map canonicalize w.
Proof.
  induction w as [| pc w IH]; intros prev s prev' s' H; simpl in H.
  - injection H as _ ->. now exists [].
  - destruct s as [| c s0]; [discriminate |].
    destruct (cu_eqb (canonicalize c) (canonicalize pc)) eqn:E;
      [| discriminate].
    destruct (IH _ _ _ _ H) as (kw & -> & Hkw).
    exists (c :: kw). simpl. apply N.eqb_eq in E. now rewrite E, Hkw.
Qed.

Lemma match_question_mark prev s n :
  match_at [Lit [question_mark]] prev s = Some n ->
  exists rest, s = question_mark :: rest /\ n = 1.
Proof.
  simpl. destruct s as [| c rest]; [discriminate |].
  destruct (cu_eqb (canonicalize c) (canonicalize question_mark)) eqn:E;
    [| discriminate].
  apply canonicalize_question_mark in E. subst c.
  intros [= <-]. now exists rest.
Qed.

Lemma match_question_mark_here prev rest :
  match_at [Lit [question_mark]] prev (question_mark :: rest) = Some 1.
Proof. reflexivity. Qed.

Lemma match_lazy_cons p prev c s :
  match_at (AnyPlusLazy :: p) prev (c :: s) =
  if is_line_terminator c then None
  else match match_at p (Some c) s with
       | Some n => Some (S n)
       | None => option_map S (match_at (AnyPlusLazy :: p) (Some c) s)
       end.
Proof. reflexivity. Qed.

Lemma match_alt_nil p prev s : match_at (Alt [] :: p) prev s = None.
Proof. reflexivity. Qed.

Lemma match_alt_cons w ws p prev s :
  match_at (Alt (w :: ws) :: p) prev s =
  match eat w prev s with
  | Some (prev', s') =>
      match match_at p prev' s' with
      | Some n => Some (List.length w + n)
      | None => match_at (Alt ws :: p) prev s
      end
  | None => match_at (Alt ws :: p) prev s
  end.
Proof. reflexivity. Qed.

(** The lazy [.+?] before a question mark stops at the first question
    mark behind its first character and crosses no line terminator. *)
Lemma lazy_question_spec : forall s prev n,
  match_at [AnyPlusLazy; Lit [question_mark]] prev s = Some n ->
  exists c body rest,
    s = c :: body ++ question_mark :: rest
    /\ n = S (S (List.length body))
    /\ Forall (fun x => is_line_terminator x = false) (c :: body)
    /\ ~ In question_mark body.
Proof.
  induction s as [| c s' IH]; intros prev n H; [discriminate |].
  rewrite match_lazy_cons in H.
  destruct (is_line_terminator c) eqn:Hc; [discriminate |].
  destruct (match_at [Lit [question_mark]] (Some c) s') as [m |] eqn:E.
  - injection H as <-.
    destruct (match_question_mark _ _ E) as (rest & -> & ->).
    exists c, [], rest. repeat split; auto.
  - destruct (match_at [AnyPlusLazy; Lit [question_mark]] (Some c) s')
      as [k |] eqn:Ek; [| discriminate].
    injection H as <-.
    destruct (IH _ _ Ek) as (c' & body & rest & -> & -> & Hlt & Hq).
    exists c, (c' :: body), rest. repeat split; auto.
    intros [-> | Hin]; [| contradiction].
    rewrite match_question_mark_here in E. discriminate.
Qed.

Lemma alt_spec ws p prev s n :
  match_at (Alt ws :: p) prev s = Some n ->
  exists w prev' s' n',
    In w ws /\ eat w prev s = Some (prev', s')
    /\ match_at p prev' s' = Some n' /\ n = List.length w + n'.
Proof.
  induction ws as [| w ws IH]; intros H.
  - rewrite match_alt_nil in H. discriminate.
  - rewrite match_alt_cons in H.
    destruct (eat w prev s) as [[prev' s'] |] eqn:Ee.
    + destruct (match_at p prev' s') as [n' |] eqn:Em.
      * injection H as <-. exists w, prev', s', n'. simpl. auto.
      * destruct (IH H) as (w0 & a & b & c & Hin & ?).
        exists w0, a, b, c. simpl. tauto.
    + destruct (IH H) as (w0 & a & b & c & Hin & ?).
      exists w0, a, b, c. simpl. tauto.
Qed.

(** A pattern that begins with [^] matches at the start or nowhere. *)
Lemma search_bol p s : forall c, search (Bol :: p) (Some c) s = None.
Proof.
  induction s as [| d s IH]; intros c; simpl; [reflexivity |].
  now rewrite IH.
Qed.

Lemma match0_bol p s q :
  match0 (Bol :: p) s = Some q ->
  exists n, match_at p None s = Some n /\ q = firstn n s.
Proof.
  unfold match0. destruct s as [| c s']; simpl.
  - destruct (match_at p None []) as [n |]; [| discriminate].
    intros [= <-]. now exists n.
  - destruct (match_at p None (c :: s')) as [n |].
    + intros [= <-]. now exists n.
    + now rewrite search_bol.
Qed.

Lemma firstn_through (a b : jsstring) c x rest :
  firstn (List.length a + S (S (List.length b))) (a ++ c :: b ++ x :: rest)
  = a ++ c :: b ++ [x].
Proof.
  rewrite firstn_app_2. simpl. do 2 f_equal.
  induction b as [| y b IH]; simpl; [reflexivity | now rewrite IH].
Qed.

(** [match[0]] of the question pattern: a question word in any case, at
    least one more character, and everything up to the first question
    mark behind that character, all on one line. *)
Lemma questionMatch_spec message q :
  match0 questionPattern message = Some q ->
  exists w kw c body rest,
    In w questionWords
    /\ map canonicalize kw = map canonicalize (js w)
    /\ message = q ++ rest
    /\ q = kw ++ c :: body ++ [question_mark]
    /\ Forall (fun x => is_line_terminator x = false) (c :: body)
    /\ ~ In question_mark body.
Proof.
  intros H. apply match0_bol in H as (n & Hm & ->).
  apply alt_spec in Hm as (w' & prev' & s' & n' & Hin & He & Hl & ->).
  apply in_map_iff in Hin as (w & <- & Hw).
  apply eat_spec in He as (kw & -> & Hkw).
  change (js "?") with [question_mark] in Hl.
  apply lazy_question_spec in Hl as (c & body & rest & -> & -> & Hlt & Hq).
  assert (Hlen : List.length (js w) = List.length kw).
  { rewrite <- (length_map canonicalize kw), Hkw.
    now rewrite (length_map canonicalize (js w)). }
  rewrite Hlen, firstn_through.
  exists w, kw, c, body, rest. repeat split; auto.
  rewrite <- app_assoc. simpl. now rewrite <- app_assoc.
Qed.

(** The pattern matches every such question: the converse. *)
Lemma eat_complete w : forall prev kw s,
  map canonicalize kw = map canonicalize w ->
  exists prev', eat w prev (kw ++ s) = Some (prev', s).
Proof.
  induction w as [| pc w IH]; intros prev [| k kw] s H; try discriminate.
  - now exists prev.
  - injection H as Hk Hkw. simpl. unfold cu_eqb. rewrite Hk, N.eqb_refl.
    apply IH. exact Hkw.
Qed.

Lemma startsWith_refl_app (a x : jsstring) : startsWith a (a ++ x) = true.
Proof.
  induction a as [| c a IH]; [reflexivity |].
  simpl. unfold cu_eqb. now rewrite N.eqb_refl.
Qed.

Lemma common_start (a b x y : jsstring) :
  a ++ x = b ++ y -> startsWith a b || startsWith b a = true.
Proof.
  revert b. induction a as [| c a IH]; intros [| d b] H; try reflexivity.
  injection H as -> H. simpl. unfold cu_eqb. rewrite N.eqb_refl. simpl.
  exact (IH _ H).
Qed.

Lemma eat_comparable w' w prev kw tail :
  map canonicalize kw = map canonicalize w ->
  comparable w' w = false ->
  eat w' prev (kw ++ tail) = None.
Proof.
  intros Hkw Hc. destruct (eat w' prev (kw ++ tail)) as [[prev' s'] |] eqn:E;
    [| reflexivity].
  apply eat_spec in E as (kw' & Hs & Hkw').
  apply (f_equal (map canonicalize)) in Hs.
  rewrite !map_app, Hkw, Hkw' in Hs. symmetry in Hs.
  apply common_start in Hs. unfold comparable in Hc. congruence.
Qed.

Lemma alt_picks ws : forall w p prev kw tail n,
  first_choice w ws = true ->
  map canonicalize kw = map canonicalize w ->
  (forall prev', match_at p prev' tail = Some n) ->
  match_at (Alt ws :: p) prev (kw ++ tail) = Some (List.length w + n).
Proof.
  induction ws as [| x ws IH]; intros w p prev kw tail n Hf Hkw Hp;
    [discriminate |].
  rewrite match_alt_cons. simpl in Hf.
  destruct (str_eqb x w) eqn:E.
  - apply str_eqb_eq in E. subst x.
    destruct (eat_complete w prev kw tail Hkw) as [prev' ->].
    now rewrite Hp.
  - apply andb_true_iff in Hf as [Hc Hf]. apply negb_true_iff in Hc.
    rewrite (eat_comparable x w prev kw tail Hkw Hc).
    now apply IH.
Qed.

Lemma not_question_mark prev b rest :
  b <> question_mark ->
  match_at [Lit [question_mark]] prev (b :: rest) = None.
Proof.
  intros Hb. simpl.
  destruct (cu_eqb (canonicalize b) (canonicalize question_mark)) eqn:E;
    [| reflexivity].
  now apply canonicalize_question_mark in E.
Qed.

Lemma lazy_question_complete body : forall prev c rest,
  Forall (fun x => is_line_terminator x = false) (c :: body) ->
  ~ In question_mark body ->
  match_at [AnyPlusLazy; Lit [question_mark]] prev
           (c :: body ++ question_mark :: rest)
  = Some (S (S (List.length body))).
Proof.
  induction body as [| b body IH]; intros prev c rest Hlt Hq;
    rewrite match_lazy_cons; rewrite (Forall_inv Hlt).
  - reflexivity.
  - change ((b :: body) ++ question_mark :: rest)
      with (b :: body ++ question_mark :: rest).
    rewrite not_question_mark by (intros ->; apply Hq; now left).
    rewrite IH; [reflexivity | exact (Forall_inv_tail Hlt) |].
    intros Hin. apply Hq. now right.
Qed.

Lemma search_hit p prev s n :
  match_at p prev s = Some n -> search p prev s = Some (0, n).
Proof. intros H. destruct s; simpl; now rewrite H. Qed.

Lemma opener_first_choice w :
  In w question_openers -> first_choice (js w) (map js questionWords) = true.
Proof.
  unfold question_openers. intros Hin.
  repeat (destruct Hin as [<- | Hin]; [vm_compute; reflexivity |]).
  contradiction.
Qed.

(** [match[0]] for a message that opens with a question. *)
Lemma questionMatch_complete message question :
  opens_with_question message question ->
  match0 questionPattern message = Some question.
Proof.
  intros (w & kw & c & body & rest & Hw & Hkw & -> & -> & Hlt & Hq).
  unfold match0, questionPattern.
  assert (Hlen : List.length (js w) = List.length kw).
  { rewrite <- (length_map canonicalize kw), Hkw.
    now rewrite (length_map canonicalize (js w)). }
  rewrite (@search_hit _ None _ (List.length (js w)
                                  + S (S (List.length body)))).
  - simpl skipn. rewrite Hlen. now rewrite firstn_through.
  - change (match_at (Bol :: ?p) None ?s) with (match_at p None s).
    apply alt_picks; [now apply opener_first_choice | exact Hkw |].
    intros prev'. now apply lazy_question_complete.
Qed.

Lemma line_terminator_canonical x :
  is_line_terminator x = true -> canonicalize x = x.
Proof.
  unfold is_line_terminator, canonicalize, is_lower, in_range, cu_eqb.
  intros H.
  repeat (apply orb_true_iff in H as [H | H]);
    apply N.eqb_eq in H; subst x; reflexivity.
Qed.

Lemma letter_on_line x (letter : code_unit) :
  canonicalize x = letter -> is_line_terminator letter = false ->
  is_line_terminator x = false.
Proof.
  intros Hx Hl. destruct (is_line_terminator x) eqn:E; [| reflexivity].
  rewrite (line_terminator_canonical _ E) in Hx. congruence.
Qed.

Lemma letter_no_question_mark x (letter : code_unit) :
  canonicalize x = letter -> letter <> question_mark -> x <> question_mark.
Proof. intros Hx Hl ->. now apply Hl. Qed.

(** Up to the first question mark of a line, if there is one. *)
Lemma first_question_mark (s : jsstring) : forall rest body,
  s = body ++ question_mark :: rest ->
  Forall (fun x => is_line_terminator x = false) body ->
  exists body' rest',
    s = body' ++ question_mark :: rest'
    /\ Forall (fun x => is_line_terminator x = false) body'
    /\ ~ In question_mark body'.
Proof.
  induction s as [| x s IH]; intros rest body Hs Hlt.
  - destruct body; discriminate.
  - destruct (N.eq_dec x question_mark) as [-> | Hx].
    + exists [], s. repeat split; auto.
    + destruct body as [| b body]; [injection Hs as -> _; contradiction |].
      injection Hs as <- Hs.
      destruct (IH _ _ Hs (Forall_inv_tail Hlt))
        as (body' & rest' & -> & Hlt' & Hq').
      exists (x :: body'), rest'. repeat split.
      * constructor; [exact (Forall_inv Hlt) | exact Hlt'].
      * intros [Heq | Hin]; [now apply Hx | now apply Hq'].
Qed.

(** What the pattern matches opens with a question: [does] reads as [do]
    and two more characters. *)
Lemma questionMatch_opens message q :
  match0 questionPattern message = Some q ->
  exists question, opens_with_question message question.
Proof.
  intros H.
  apply questionMatch_spec in H
    as (w & kw & c & body & rest & Hw & Hkw & Hm & -> & Hlt & Hq).
  assert (Hmsg : message = kw ++ c :: body ++ question_mark :: rest).
  { rewrite Hm, <- app_assoc. simpl. now rewrite <- app_assoc. }
  assert (Hopen : In w question_openers -> exists question,
                    opens_with_question message question).
  { intros Hin. eexists. exists w, kw, c, body, rest.
    repeat split; eauto. }
  unfold questionWords in Hw.
  repeat (destruct Hw as [<- | Hw];
          [first [apply Hopen; unfold question_openers; simpl; tauto
                 | idtac] |]);
    [| contradiction].
  destruct kw as [| k1 [| k2 [| k3 [| k4 [| k5 kw]]]]]; try discriminate.
  injection Hkw as H1 H2 H3 H4.
  destruct (@first_question_mark
              (k4 :: c :: body ++ question_mark :: rest)
              rest (k4 :: c :: body) eq_refl)
    as (body' & rest' & Hs & Hlt' & Hq').
  { constructor; [| exact Hlt].
    apply (letter_on_line _ H4). reflexivity. }
  exists ([k1; k2] ++ k3 :: body' ++ [question_mark]).
  exists "do"%string, [k1; k2], k3, body', rest'.
  split; [unfold question_openers; simpl; tauto |].
  split; [simpl; now rewrite H1, H2 |].
  split; [rewrite Hmsg; simpl; do 3 f_equal; exact Hs |].
  split; [reflexivity |].
  split; [| exact Hq'].
  constructor; [| exact Hlt'].
  apply (letter_on_line _ H3). reflexivity.
Qed.

(* --------------------------------------------------------------------- *)
(** ** The chat list under the updaters *)
(* --------------------------------------------------------------------- *)

Lemma insert_chat_In x c l : In x (insert_chat c l) <-> x = c \/ In x l.
Proof.
  induction l as [| d l IH]; simpl; [intuition auto |].
  destruct (Z.leb (updatedAt d) (updatedAt c)); simpl;
    [| rewrite IH]; intuition auto.
Qed.

Lemma sort_chats_In x l : In x (sort_chats l) <-> In x l.
Proof.
  induction l as [| c l IH]; simpl; [tauto |].
  rewrite insert_chat_In, IH. intuition auto.
Qed.





(** The state that [sendMessage] leaves is one of three; a chat is
    created only when none is selected. *)
Lemma sendMessage_chats st message file d :
  let st' := fst (sendMessage st message file d) in
  let created :=
    createNewChat (chat_uuid d) (chat_created d) (chat_updated d) st in
  st' = st \/ (selected st = false /\ st' = created)
  \/ exists chatId st1,
       (st1 = st \/ (selected st = false /\ st1 = created))
       /\ chats st' = appendUserMessage chatId (newMessage message file d)
                        message (sent_at d) (chats st1).
Proof.
  cbv zeta. unfold sendMessage, selected.
  set (created :=
         createNewChat (chat_uuid d) (chat_created d) (chat_updated d) st).
  assert (H : forall (P : Prop) chatId st1, (st1 = st \/ (P /\ st1 = created)) ->
    let r := match find_chat chatId (chats st) with
             | None => (st1, Dropped)
             | Some chat =>
                 if match file with
                    | Some f => N.ltb sizeLimit (size f)
                    | None => false
                    end
                 then (st1, Rejected (js "File size exceeds 10MB limit"))
                 else
                   ({| chats := appendUserMessage chatId
                                  (newMessage message file d) message
                                  (sent_at d) (chats st1);
                       currentChatId := currentChatId st1;
                       isLoading := true |},
                    Fetching chatId
                      {| form_message := toUSVString message;
                         form_history :=
                           map (fun msg => (msg_role msg, msg_content msg))
                               (messages chat);
                         form_file := file |})
             end in
    fst r = st \/ (P /\ fst r = created)
    \/ exists chatId st1,
         (st1 = st \/ (P /\ st1 = created))
         /\ chats (fst r) = appendUserMessage chatId
                              (newMessage message file d) message
                              (sent_at d) (chats st1)).
  { intros P chatId st1 Hst1. cbv zeta.
    destruct (find_chat chatId (chats st));
      [| simpl; destruct Hst1; auto].
    destruct (match file with Some f => _ | None => _ end);
      [simpl; destruct Hst1; auto |].
    right. right. exists chatId, st1. simpl. auto. }
  destruct (trim message) as [| c t]; destruct file as [f |];
    try (left; reflexivity);
    destruct (currentChatId st) as [[| x current] |];
    try (apply (H (false = false) (chat_uuid d) created); auto);
    apply (H (true = false) (x :: current) st); auto.
Qed.




(* --------------------------------------------------------------------- *)
(** ** Sending and titles *)
(* --------------------------------------------------------------------- *)

(** A send that reaches [fetch] found its chat in the list of its render
    and ran the first updater on that list or on the list with the new
    chat in front. *)
Lemma sendMessage_fetching st message file d st' chatId body :
  sendMessage st message file d = (st', Fetching chatId body) ->
  exists chat st1,
    find_chat chatId (chats st) = Some chat
    /\ (forall c, In c (chats st) -> In c (chats st1))
    /\ chats st' = appendUserMessage chatId (newMessage message file d)
                     message (sent_at d) (chats st1)
    /\ isLoading st' = true.
Proof.
  unfold sendMessage.
  set (created :=
         createNewChat (chat_uuid d) (chat_created d) (chat_updated d) st).
  assert (H : forall cid st1, (forall c, In c (chats st) -> In c (chats st1)) ->
    match find_chat cid (chats st) with
    | None => (st1, Dropped)
    | Some chat =>
        if match file with
           | Some f => N.ltb sizeLimit (size f)
           | None => false
           end
        then (st1, Rejected (js "File size exceeds 10MB limit"))
        else
          ({| chats := appendUserMessage cid (newMessage message file d)
                         message (sent_at d) (chats st1);
              currentChatId := currentChatId st1;
              isLoading := true |},
           Fetching cid
             {| form_message := toUSVString message;
                form_history :=
                  map (fun msg => (msg_role msg, msg_content msg))
                      (messages chat);
                form_file := file |})
    end = (st', Fetching chatId body) ->
    exists chat st1,
      find_chat chatId (chats st) = Some chat
      /\ (forall c, In c (chats st) -> In c (chats st1))
      /\ chats st' = appendUserMessage chatId (newMessage message file d)
                       message (sent_at d) (chats st1)
      /\ isLoading st' = true).
  { intros cid st1 Hsub.
    destruct (find_chat cid (chats st)) as [chat |] eqn:Hf; [| discriminate].
    destruct (match file with Some f => _ | None => _ end); [discriminate |].
    intros [= <- <- <-]. exists chat, st1. auto. }
  destruct (trim message) as [| c t]; destruct file as [f |];
    try discriminate;
    destruct (currentChatId st) as [[| x current] |];
    try (apply (H (chat_uuid d) created); simpl; auto);
    apply (H (x :: current) st); auto.
Qed.

Lemma find_chat_id chatId l chat :
  find_chat chatId l = Some chat -> In chat l /\ id chat = chatId.
Proof.
  intros H. apply find_some in H as [Hin He].
  now apply str_eqb_eq in He.
Qed.

(** A send that reaches the network writes to every chat of its render
    that carries the target id: the user message is appended, and the
    title is set when the chat was empty. *)
Lemma sendMessage_writes st message file d st' chatId body :
  sendMessage st message file d = (st', Fetching chatId body) ->
  forall chat, In chat (chats st) -> id chat = chatId ->
    exists chat',
      In chat' (chats st') /\ id chat' = chatId
      /\ messages chat' = messages chat ++ [newMessage message file d]
      /\ title chat' = match messages chat with
                       | [] => generateChatTitle message
                       | _ :: _ => title chat
                       end.
Proof.
  intros Hsend chat Hin Hid.
  destruct (sendMessage_fetching _ _ _ _ Hsend)
    as (found & st1 & _ & Hsub & Hchats & _).
  exists {| id := id chat;
            title := match messages chat with
                     | [] => generateChatTitle message
                     | _ :: _ => title chat
                     end;
            messages := messages chat ++ [newMessage message file d];
            createdAt := createdAt chat;
            updatedAt := sent_at d |}.
  simpl. repeat split; auto.
  rewrite Hchats. unfold appendUserMessage.
  apply sort_chats_In, in_map_iff. exists chat.
  split; [| now apply Hsub].
  rewrite Hid, str_eqb_refl. reflexivity.
Qed.

(** C6, as stated, fails: when a question mark follows the question word
    at once, the title does not stop at the first question mark of the
    message. *)
Lemma title_skips_an_immediate_question_mark :
  let message := js "what? is the capital city of France?" in
  match0 questionPattern message = Some message
  /\ generateChatTitle message = js "what? is the capital city of F..."
  /\ generateChatTitle message
     <> slice0 30 (up_to_first question_mark message) ++ ellipsis.
Proof.
  cbv zeta. split; [vm_compute; reflexivity |].
  split; [vm_compute; reflexivity | vm_compute; discriminate].
Qed.

(** C6, amended. A send that reaches the network gives every chat it
    writes to the user message, and a title exactly when the chat was
    empty: later sends keep the title.  The title is the message itself
    when it has fewer than 30 code units.  A longer message that opens
    with a question (one of the words what, who, how, why, when, where,
    can, could, would, will, should, is, are, do, did in any case, at
    least one more character and then, with no line break in between, a
    question mark) gets the message up to the first question mark behind
    that character, cut to 30 code units, plus an ellipsis; every other
    longer message gets its first four fields between single spaces,
    joined by spaces, plus an ellipsis. *)
Theorem title_from_first_message st message file d st' chatId body :
  sendMessage st message file d = (st', Fetching chatId body) ->
  (forall chat, In chat (chats st) -> id chat = chatId ->
     exists chat',
       In chat' (chats st') /\ id chat' = chatId
       /\ messages chat' = messages chat ++ [newMessage message file d]
       /\ title chat' = match messages chat with
                        | [] => generateChatTitle message
                        | _ :: _ => title chat
                        end)
  /\ (List.length message < 30 -> generateChatTitle message = message)
  /\ (30 <= List.length message ->
      forall question, opens_with_question message question ->
        generateChatTitle message = slice0 30 question ++ js "...")
  /\ (30 <= List.length message ->
      (forall question, ~ opens_with_question message question) ->
      generateChatTitle message
      = join (js " ") (firstn 4 (split_on 32 message)) ++ js "...").
Proof.
  intros Hsend. split; [| split; [| split]].
  - exact (sendMessage_writes _ _ _ _ Hsend).
  - intros Hlt. unfold generateChatTitle.
    apply Nat.ltb_lt in Hlt. now rewrite Hlt.
  - intros Hge question Hq. unfold generateChatTitle.
    apply Nat.ltb_ge in Hge.
    now rewrite Hge, (questionMatch_complete Hq).
  - intros Hge Hno. unfold generateChatTitle.
    apply Nat.ltb_ge in Hge. rewrite Hge.
    destruct (match0 questionPattern message) as [q |] eqn:Hq;
      [| reflexivity].
    destruct (questionMatch_opens _ Hq) as [question Hopen].
    now elim (Hno question).
Qed.

Lemma title_from_first_message_witness :
  exists chat',
    In chat' (chats (fst (sendMessage one_empty_chat
                            (js "What is the capital of France?") None
                            draws1)))
    /\ title chat' = js "What is the capital of France?...".
Proof.
  destruct (@title_from_first_message one_empty_chat
              (js "What is the capital of France?") None draws1
              (fst (sendMessage one_empty_chat
                      (js "What is the capital of France?") None draws1))
              (js "chat-1")
              {| form_message := js "What is the capital of France?";
                 form_history := [];
                 form_file := None |}) as [H _].
  - vm_compute. reflexivity.
  - destruct (H {| id := js "chat-1"; title := js "New Chat";
                   messages := []; createdAt := 1000; updatedAt := 1000 |})
      as (chat' & Hin & _ & _ & Ht).
    + left. reflexivity.
    + reflexivity.
    + exists chat'. split; [exact Hin |].
      rewrite Ht. vm_compute. reflexivity.
Defined.

(** With a chat selected that is in the list, a valid send appends the
    user message to it at once and goes on to the network. *)
Lemma sendMessage_with_chat st message file d x current chat :
  currentChatId st = Some (x :: current) ->
  find_chat (x :: current) (chats st) = Some chat ->
  (trim message <> [] /\ file = None)
  \/ (exists f, file = Some f /\ (size f <= sizeLimit)%N) ->
  exists st' body,
    sendMessage st message file d = (st', Fetching (x :: current) body)
    /\ exists chat',
         In chat' (chats st')
         /\ id chat' = x :: current
         /\ messages chat' = messages chat ++ [newMessage message file d].
Proof.
  intros Hcur Hfind Hvalid.
  assert (Hsend : exists st' body,
             sendMessage st message file d
             = (st', Fetching (x :: current) body)).
  { unfold sendMessage. rewrite Hcur, Hfind.
    destruct Hvalid as [[Ht ->] | (f & -> & Hf)].
    - destruct (trim message); [congruence |]. eauto.
    - apply N.ltb_ge in Hf. rewrite Hf.
      destruct (trim message); eauto. }
  destruct Hsend as (st' & body & Hsend). exists st', body.
  split; [exact Hsend |].
  destruct (find_chat_id _ _ Hfind) as [Hin Hid].
  destruct (sendMessage_writes _ _ _ _ Hsend chat Hin Hid)
    as (chat' & ? & ? & ? & _).
  eauto.
Qed.

(** Without a selected chat, a send creates a chat and stops there when
    the new id is not in the list of the render: nothing is appended and
    nothing is fetched. *)
Lemma sendMessage_without_chat st message file d :
  currentChatId st = None ->
  trim message <> [] \/ file <> None ->
  find_chat (chat_uuid d) (chats st) = None ->
  sendMessage st message file d
  = (createNewChat (chat_uuid d) (chat_created d) (chat_updated d) st,
     Dropped).
Proof.
  intros Hcur Hvalid Hfresh. unfold sendMessage. rewrite Hcur, Hfresh.
  destruct (trim message); destruct file; try reflexivity.
  destruct Hvalid; congruence.
Qed.

(** C5 fails on the first message of a session: no chat is selected, a
    chat is created and selected, and the send returns at [if (!chat)]
    because the list of the render does not hold the new chat.  The new
    chat stays empty and no request is made. *)
Theorem first_message_without_chat_is_dropped :
  sendMessage initial (js "hello") None draws0
  = ({| chats := [{| id := js "chat-1"; title := js "New Chat";
                     messages := [];
                     createdAt := 1000; updatedAt := 1000 |}];
        currentChatId := Some (js "chat-1");
        isLoading := false |},
     Dropped).
Proof. vm_compute. reflexivity. Qed.

(** C10. No chat selected and an attachment above 10 MB: the send ends
    before the network, and without a message appended anywhere, but the
    state has changed: a new empty chat leads the list and is current. *)
Theorem oversized_send_without_chat st message f d :
  currentChatId st = None ->
  (sizeLimit < size f)%N ->
  let newChat :=
    {| id := chat_uuid d; title := js "New Chat"; messages := [];
       createdAt := chat_created d; updatedAt := chat_updated d |} in
  exists outcome,
    sendMessage st message (Some f) d
    = ({| chats := newChat :: chats st;
          currentChatId := Some (chat_uuid d);
          isLoading := isLoading st |}, outcome)
    /\ (outcome = Dropped
        \/ outcome = Rejected (js "File size exceeds 10MB limit")).
Proof.
  intros Hcur Hsize newChat. unfold sendMessage. rewrite Hcur.
  apply N.ltb_lt in Hsize. rewrite Hsize.
  destruct (find_chat (chat_uuid d) (chats st));
    destruct (trim message); eauto.
Qed.

Lemma oversized_send_without_chat_witness :
  exists outcome,
    sendMessage initial (js "look at this") (Some big_file) draws0
    = ({| chats := [{| id := js "chat-1"; title := js "New Chat";
                       messages := [];
                       createdAt := 1000; updatedAt := 1000 |}];
          currentChatId := Some (js "chat-1");
          isLoading := false |}, outcome)
    /\ (outcome = Dropped
        \/ outcome = Rejected (js "File size exceeds 10MB limit")).
Proof.
  apply (@oversized_send_without_chat initial (js "look at this")
           big_file draws0).
  - reflexivity.
  - vm_compute. reflexivity.
Defined.

(* --------------------------------------------------------------------- *)
(** ** Further properties of the session *)
(* --------------------------------------------------------------------- *)

Unset Implicit Arguments.

Lemma find_chat_filter_other chatId other l :
  other <> chatId ->
  find_chat other (filter (fun c => negb (str_eqb (id c) chatId)) l)
  = find_chat other l.
Proof.
  intros Hne. unfold find_chat.
  induction l as [| c l IH]; simpl; [reflexivity |].
  destruct (str_eqb (id c) chatId) eqn:E; simpl.
  - apply str_eqb_eq in E.
    destruct (str_eqb (id c) other) eqn:E'; [| exact IH].
    apply str_eqb_eq in E'. congruence.
  - destruct (str_eqb (id c) other); [reflexivity | exact IH].
Qed.

Lemma find_chat_filter_same chatId l :
  find_chat chatId (filter (fun c => negb (str_eqb (id c) chatId)) l) = None.
Proof.
  unfold find_chat. induction l as [| c l IH]; simpl; [reflexivity |].
  destruct (str_eqb (id c) chatId) eqn:E; simpl; [exact IH |].
  now rewrite E.
Qed.

Lemma filter_twice (f : Chat -> bool) l : filter f (filter f l) = filter f l.
Proof.
  induction l as [| c l IH]; simpl; [reflexivity |].
  destruct (f c) eqn:E; simpl; [rewrite E; now f_equal | exact IH].
Qed.

(** X12. [removeChat] removes every chat of the given id and no other;
    it clears the selection when the removed chat was selected and keeps
    it otherwise; removing twice is removing once. *)
Theorem removeChat_spec chatId st :
  find_chat chatId (chats (removeChat chatId st)) = None
  /\ (forall other, other <> chatId ->
        find_chat other (chats (removeChat chatId st))
        = find_chat other (chats st))
  /\ (currentChatId st = Some chatId ->
      currentChatId (removeChat chatId st) = None)
  /\ (currentChatId st <> Some chatId ->
      currentChatId (removeChat chatId st) = currentChatId st)
  /\ removeChat chatId (removeChat chatId st) = removeChat chatId st.
Proof.
  split; [apply find_chat_filter_same |].
  split; [intros other Hne; now apply find_chat_filter_other |].
  split; [| split].
  - intros Hc. simpl. now rewrite Hc, str_eqb_refl.
  - intros Hc. simpl. destruct (currentChatId st) as [current |];
      [| reflexivity].
    destruct (str_eqb current chatId) eqn:E; [| reflexivity].
    apply str_eqb_eq in E. congruence.
  - unfold removeChat. simpl. rewrite filter_twice. f_equal.
    destruct (currentChatId st) as [current |]; [| reflexivity].
    destruct (str_eqb current chatId) eqn:E; [reflexivity |].
    now rewrite E.
Qed.

Lemma removeChat_spec_witness :
  currentChatId (removeChat (js "chat-1") one_empty_chat) = None.
Proof.
  apply (removeChat_spec (js "chat-1") one_empty_chat). reflexivity.
Defined.

(** The body that a send hands to [fetch]. *)
Lemma sendMessage_submission st message file d st' chatId body :
  sendMessage st message file d = (st', Fetching chatId body) ->
  exists chat,
    find_chat chatId (chats st) = Some chat
    /\ chatId = sendTarget st d
    /\ body = {| form_message := toUSVString message;
                 form_history :=
                   map (fun msg => (msg_role msg, msg_content msg))
                       (messages chat);
                 form_file := file |}
    /\ (trim message <> [] \/ file <> None)
    /\ (forall f, file = Some f -> (size f <= sizeLimit)%N).
Proof.
  unfold sendMessage, sendTarget.
  set (created :=
         createNewChat (chat_uuid d) (chat_created d) (chat_updated d) st).
  assert (H : forall cid st1,
    trim message <> [] \/ file <> None ->
    match find_chat cid (chats st) with
    | None => (st1, Dropped)
    | Some chat =>
        if match file with
           | Some f => N.ltb sizeLimit (size f)
           | None => false
           end
        then (st1, Rejected (js "File size exceeds 10MB limit"))
        else
          ({| chats := appendUserMessage cid (newMessage message file d)
                         message (sent_at d) (chats st1);
              currentChatId := currentChatId st1;
              isLoading := true |},
           Fetching cid
             {| form_message := toUSVString message;
                form_history :=
                  map (fun msg => (msg_role msg, msg_content msg))
                      (messages chat);
                form_file := file |})
    end = (st', Fetching chatId body) ->
    exists chat,
      find_chat chatId (chats st) = Some chat
      /\ chatId = cid
      /\ body = {| form_message := toUSVString message;
                   form_history :=
                     map (fun msg => (msg_role msg, msg_content msg))
                         (messages chat);
                   form_file := file |}
      /\ (trim message <> [] \/ file <> None)
      /\ (forall f, file = Some f -> (size f <= sizeLimit)%N)).
  { intros cid st1 Hvalid.
    destruct (find_chat cid (chats st)) as [chat |] eqn:Hf; [| discriminate].
    destruct (match file with Some f => _ | None => _ end) eqn:Hsize;
      [discriminate |].
    intros [= <- <- <-]. exists chat. repeat split; auto.
    intros f ->. now apply N.ltb_ge in Hsize. }
  destruct (trim message) as [| c t] eqn:Ht; destruct file as [f |];
    try discriminate;
    destruct (currentChatId st) as [[| x current] |];
    apply H; (left; discriminate) || (right; discriminate).
Qed.

(** X13. A send goes to the network exactly when there is a text that
    is not empty after trimming or a file, the target chat (the selected
    one, else the chat created on the spot) is in the list of the render,
    and the file, if any, has at most 10 MB.  The form then holds the
    message as [append] stores it, every lone surrogate replaced by
    U+FFFD, the roles and contents of the target's earlier messages, and
    the file. *)
Theorem sendMessage_fetches_iff st message file d :
  ((exists st' chatId body,
      sendMessage st message file d = (st', Fetching chatId body))
  <-> ((trim message <> [] \/ file <> None)
       /\ (exists chat, find_chat (sendTarget st d) (chats st) = Some chat)
       /\ (forall f, file = Some f -> (size f <= sizeLimit)%N)))
  /\ (forall st' chatId body,
        sendMessage st message file d = (st', Fetching chatId body) ->
        chatId = sendTarget st d
        /\ form_message body = toUSVString message
        /\ form_file body = file
        /\ exists chat,
             find_chat chatId (chats st) = Some chat
             /\ form_history body
                = map (fun msg => (msg_role msg, msg_content msg))
                      (messages chat)).
Proof.
  split; [| intros st' chatId body H;
            apply sendMessage_submission in H
              as (chat & Hf & -> & -> & _ & _);
            repeat split; now exists chat].
  split.
  - intros (st' & chatId & body & H).
    apply sendMessage_submission in H
      as (chat & Hf & -> & _ & Hv & Hs).
    split; [exact Hv |]. split; [now exists chat | exact Hs].
  - intros (Hv & (chat & Hf) & Hs).
    unfold sendMessage. unfold sendTarget in Hf.
    assert (Hsize : match file with
                    | Some f => N.ltb sizeLimit (size f)
                    | None => false
                    end = false).
    { destruct file as [f |]; [| reflexivity].
      apply N.ltb_ge. now apply Hs. }
    destruct (trim message) as [| c t]; destruct file as [f |];
      try (destruct Hv; congruence);
      destruct (currentChatId st) as [[| x current] |];
      rewrite Hf; try rewrite Hsize; eauto.
Qed.

Lemma sendMessage_fetches_iff_witness :
  exists st' chatId body,
    sendMessage one_empty_chat (js "hello") None draws1
    = (st', Fetching chatId body).
Proof.
  apply (proj1 (sendMessage_fetches_iff one_empty_chat (js "hello") None
                  draws1)).
  split; [left; vm_compute; discriminate |].
  split; [eexists; vm_compute; reflexivity | discriminate].
Defined.

(** *** Messages are only ever appended *)

Lemma appendUserMessage_origin chatId m message now prev c' :
  In c' (appendUserMessage chatId m message now prev) ->
  exists c, In c prev
            /\ (c' = c
                \/ (id c' = id c /\ createdAt c' = createdAt c
                    /\ messages c' = messages c ++ [m])).
Proof.
  intros H. apply sort_chats_In, in_map_iff in H as (c & <- & Hc).
  exists c. destruct (str_eqb (id c) chatId); simpl; auto.
Qed.

Lemma appendAssistantMessage_origin chatId uuid data now prev c' :
  In c' (appendAssistantMessage chatId uuid data now prev) ->
  exists c, In c prev
            /\ (c' = c
                \/ (id c' = id c /\ createdAt c' = createdAt c
                    /\ title c' = title c
                    /\ exists m, msg_role m = from_assistant
                                 /\ messages c' = messages c ++ [m])).
Proof.
  intros H. apply sort_chats_In, in_map_iff in H as (c & <- & Hc).
  exists c. destruct (str_eqb (id c) chatId); simpl; auto.
  split; [exact Hc |]. right. repeat split.
  eexists. split; [| reflexivity]. reflexivity.
Qed.

(** X14. No operation of the session removes, replaces or reorders a
    message.  After [createNewChat] every chat is a chat of the list
    before or the new chat, which is empty; [removeChat] leaves chats of
    the list before.  After a send every chat is a chat of the list
    before, or the empty chat that the send created when none was
    selected, either as it was or with the new user message added at the
    end.  After a reply every chat is a chat of the list before, as it
    was or with one assistant message added at the end. *)
Theorem messages_append_only st :
  (forall uuid created updated c',
      In c' (chats (createNewChat uuid created updated st)) ->
      In c' (chats st)
      \/ c' = {| id := uuid; title := js "New Chat"; messages := [];
                 createdAt := created; updatedAt := updated |})
  /\ (forall chatId c',
        In c' (chats (removeChat chatId st)) -> In c' (chats st))
  /\ (forall message file d c',
        In c' (chats (fst (sendMessage st message file d))) ->
        exists c,
          (In c (chats st)
           \/ (selected st = false
               /\ c = {| id := chat_uuid d; title := js "New Chat";
                         messages := []; createdAt := chat_created d;
                         updatedAt := chat_updated d |}))
          /\ (c' = c
              \/ (id c' = id c /\ createdAt c' = createdAt c
                  /\ messages c' = messages c
                                   ++ [newMessage message file d])))
  /\ (forall chatId reply uuid now c',
        In c' (chats (receiveReply chatId reply uuid now st)) ->
        exists c,
          In c (chats st)
          /\ (c' = c
              \/ (id c' = id c /\ createdAt c' = createdAt c
                  /\ title c' = title c
                  /\ exists m, msg_role m = from_assistant
                               /\ messages c' = messages c ++ [m]))).
Proof.
  split; [| split; [| split]].
  - intros uuid created updated c' [<- | Hin]; auto.
  - intros chatId c' Hin. now apply filter_In in Hin as [Hin _].
  - intros message file d c' Hin.
    pose proof (sendMessage_chats st message file d) as Hs. cbv zeta in Hs.
    destruct Hs as [Hs | [[Hsel Hs] | (chatId & st1 & Hst1 & Hs)]];
      rewrite Hs in Hin.
    + exists c'. auto.
    + destruct Hin as [<- | Hin]; eexists; eauto.
    + apply appendUserMessage_origin in Hin as (c & Hc & Hmsg).
      exists c. split; [| exact Hmsg].
      destruct Hst1 as [-> | [Hsel ->]]; [now left |].
      destruct Hc as [<- | Hc]; [right | left]; auto.
  - intros chatId [data | notice] uuid now c' Hin; simpl in Hin.
    + now apply appendAssistantMessage_origin in Hin.
    + exists c'. auto.
Qed.

(** *** No chat is lost *)

Lemma insert_chat_perm c l : Permutation (insert_chat c l) (c :: l).
Proof.
  induction l as [| d l IH]; simpl; [reflexivity |].
  destruct (Z.leb (updatedAt d) (updatedAt c)); [reflexivity |].
  rewrite IH. apply perm_swap.
Qed.

Lemma sort_chats_perm l : Permutation (sort_chats l) l.
Proof.
  induction l as [| c l IH]; simpl; [reflexivity |].
  rewrite insert_chat_perm. now constructor.
Qed.

(** X15. The updaters of [sendMessage] keep the chats: after the user
    message and after the reply the list holds the same ids, titles apart,
    as before, in some order, and a failed reply leaves the list as it
    is. *)
Theorem updaters_keep_chats chatId prev :
  (forall m message now,
      Permutation (map id (appendUserMessage chatId m message now prev))
                  (map id prev))
  /\ (forall uuid data now,
      Permutation
        (map (fun c => (id c, title c))
             (appendAssistantMessage chatId uuid data now prev))
        (map (fun c => (id c, title c)) prev))
  /\ (forall st notice uuid now,
      chats (receiveReply chatId (Failure notice) uuid now st) = chats st).
Proof.
  split; [| split].
  - intros m message now. unfold appendUserMessage.
    rewrite (Permutation_map id (sort_chats_perm _)), map_map.
    erewrite map_ext; [reflexivity |].
    intros c. simpl. now destruct (str_eqb (id c) chatId).
  - intros uuid data now. unfold appendAssistantMessage.
    rewrite (Permutation_map _ (sort_chats_perm _)), map_map.
    erewrite map_ext; [reflexivity |].
    intros c. simpl. now destruct (str_eqb (id c) chatId).
  - reflexivity.
Qed.

(** *** Titles are cut from the message *)

Lemma split_on_nonempty sep s : split_on sep s <> [].
Proof.
  destruct s as [| c s]; simpl; [discriminate |].
  destruct (cu_eqb c sep); [discriminate |].
  destruct (split_on sep s); discriminate.
Qed.

Lemma join_cons_char sep c f fs :
  join sep ((c :: f) :: fs) = c :: join sep (f :: fs).
Proof. destruct fs; reflexivity. Qed.

Lemma join_nil_cons sep f fs :
  join sep ([] :: f :: fs) = sep ++ join sep (f :: fs).
Proof. reflexivity. Qed.

Lemma join_cons_cons sep f g gs :
  join sep (f :: g :: gs) = f ++ sep ++ join sep (g :: gs).
Proof. reflexivity. Qed.

(** [s.split(' ').join(' ')] is [s]. *)
Lemma join_split s : join [32%N] (split_on 32%N s) = s.
Proof.
  induction s as [| c s IH]; [reflexivity |].
  cbn [split_on]. pose proof (split_on_nonempty 32%N s) as Hne.
  destruct (split_on 32%N s) as [| f fs]; [congruence |].
  destruct (cu_eqb c 32) eqn:E.
  - apply N.eqb_eq in E. subst c.
    rewrite join_nil_cons. cbn [app]. f_equal. exact IH.
  - rewrite join_cons_char. f_equal. exact IH.
Qed.

Lemma join_firstn sep : forall fields k,
  exists rest, join sep fields = join sep (firstn k fields) ++ rest.
Proof.
  induction fields as [| f fs IH]; intros k.
  - exists []. now rewrite firstn_nil.
  - destruct k as [| k]; [now exists (join sep (f :: fs)) |].
    cbn [firstn]. destruct fs as [| g gs].
    + rewrite firstn_nil. exists []. now rewrite app_nil_r.
    + destruct (IH k) as [rest Hrest].
      destruct k as [| k].
      * exists (sep ++ join sep (g :: gs)). reflexivity.
      * cbn [firstn] in *.
        rewrite !join_cons_cons.
        exists rest. rewrite Hrest. now rewrite <- !app_assoc.
Qed.

(** X16. A title never holds text that is not in the message: it is the
    message itself when that has fewer than 30 code units, and otherwise
    a prefix of the message followed by an ellipsis; for a message that
    the question pattern matches, the prefix has at most 30 code units. *)
Theorem title_is_cut_from_message message :
  (List.length message < 30 -> generateChatTitle message = message)
  /\ (30 <= List.length message ->
      exists body,
        generateChatTitle message = body ++ ellipsis
        /\ begins_with message body
        /\ (match0 questionPattern message <> None ->
            List.length body <= 30)).
Proof.
  unfold generateChatTitle. split.
  - intros H. apply Nat.ltb_lt in H. now rewrite H.
  - intros H. apply Nat.ltb_ge in H. rewrite H.
    destruct (match0 questionPattern message) as [q |] eqn:Hq.
    + exists (slice0 30 q). split; [reflexivity |]. split.
      * destruct (questionMatch_spec _ Hq)
          as (w & kw & c & body & rest & _ & _ & Hm & _).
        exists (skipn 30 q ++ rest). unfold slice0.
        now rewrite app_assoc, firstn_skipn.
      * intros _. unfold slice0. apply firstn_le_length.
    + exists (join (js " ") (firstn 4 (split_on 32 message))).
      split; [reflexivity |]. split; [| congruence].
      destruct (join_firstn (js " ") (split_on 32%N message) 4)
        as [rest Hrest].
      exists rest. rewrite <- Hrest. symmetry. apply join_split.
Qed.

Lemma title_is_cut_from_message_witness :
  exists body,
    generateChatTitle (js "The quick brown fox jumps over the lazy dog today.")
    = body ++ ellipsis
    /\ begins_with (js "The quick brown fox jumps over the lazy dog today.")
                   body.
Proof.
  destruct (proj2 (title_is_cut_from_message
                     (js "The quick brown fox jumps over the lazy dog today.")))
    as (body & H1 & H2 & _).
  - vm_compute. lia.
  - exists body. split; assumption.
Defined.

(** *** The chat written to comes first *)




Set Implicit Arguments.

End ClientFacts.

(* ===================================================================== *)
(** * The input box, the session and the route together *)
(* ===================================================================== *)

Module EndToEnd.

Unset Implicit Arguments.

Lemma sendMessage_outcomes st message file d :
  let o := snd (Client.sendMessage st message file d) in
  (o = Client.Rejected empty_notice /\ trim message = [] /\ file = None)
  \/ (o = Client.Rejected size_notice
      /\ exists f, file = Some f /\ (Client.sizeLimit < Client.size f)%N)
  \/ accepted o.
Proof.
  cbv zeta. unfold Client.sendMessage, accepted.
  assert (H : forall cid st1,
    let o := snd
      match Client.find_chat cid (Client.chats st) with
      | None => (st1, Client.Dropped)
      | Some chat =>
          if match file with
             | Some f => N.ltb Client.sizeLimit (Client.size f)
             | None => false
             end
          then (st1, Client.Rejected size_notice)
          else
            ({| Client.chats :=
                  Client.appendUserMessage cid
                    (Client.newMessage message file d) message
                    (Client.sent_at d) (Client.chats st1);
                Client.currentChatId := Client.currentChatId st1;
                Client.isLoading := true |},
             Client.Fetching cid
               {| Client.form_message := toUSVString message;
                  Client.form_history :=
                    map (fun msg => (Client.msg_role msg,
                                     Client.msg_content msg))
                        (Client.messages chat);
                  Client.form_file := file |})
      end in
    (o = Client.Rejected size_notice
     /\ exists f, file = Some f /\ (Client.sizeLimit < Client.size f)%N)
    \/ (o = Client.Dropped
        \/ exists chatId body, o = Client.Fetching chatId body)).
  { intros cid st1. cbv zeta.
    destruct (Client.find_chat cid (Client.chats st)); [| simpl; auto].
    destruct file as [f |]; [| simpl; eauto].
    destruct (N.ltb Client.sizeLimit (Client.size f)) eqn:E; simpl.
    - left. split; [reflexivity |]. exists f. split; [reflexivity |].
      now apply N.ltb_lt.
    - eauto. }
  destruct (trim message) as [| c t]; destruct file as [f |];
    try (left; repeat split; reflexivity);
    right; destruct (Client.currentChatId st) as [[| x current] |];
    apply H.
Qed.

(** X18. The input box calls [sendMessage] only when no request is in
    flight and there is a text (not empty after trimming) or an
    attachment; it passes the text as typed and empties itself.  Such a
    call is never turned away for being empty. *)
Theorem handleSubmit_sends isLoading ist ist' message file :
  ChatInput.handleSubmit isLoading ist = (ist', Some (message, file)) ->
  isLoading = false
  /\ message = ChatInput.input ist
  /\ file = ChatInput.mediaFile ist
  /\ (trim message <> [] \/ file <> None)
  /\ ist' = {| ChatInput.input := []; ChatInput.mediaFile := None;
               ChatInput.preview := None |}
  /\ forall st d,
       snd (Client.sendMessage st message file d)
       <> Client.Rejected empty_notice.
Proof.
  unfold ChatInput.handleSubmit. intros H.
  destruct isLoading.
  - rewrite andb_false_r in H. discriminate.
  - rewrite andb_true_r in H.
    destruct (trim (ChatInput.input ist)) as [| c t] eqn:Ht;
      destruct (ChatInput.mediaFile ist) as [f |] eqn:Hf;
      simpl in H; try discriminate;
      injection H as <- <- <-; rewrite ?Ht;
      repeat split; auto;
      try (left; discriminate); try (right; discriminate);
      intros st d Hr;
      destruct (sendMessage_outcomes st (ChatInput.input ist)
                  (ChatInput.mediaFile ist) d)
        as [(_ & Ht' & Hf') | [(Hs & _) | [Hd | (ci & b & Hd)]]];
      rewrite ?Hf in *; try congruence;
      try (rewrite Hr in Hs; discriminate).
Qed.

(** X19. A file that the input box has accepted has at most 5 MB, so the
    10 MB check of [sendMessage] never turns it away: a send with it is
    dropped for want of a chat or goes to the network. *)
Theorem accepted_upload_passes f ist ist' :
  ChatInput.handleFileChange (Some f) ist = (ist', None) ->
  ChatInput.mediaFile ist' = Some f
  /\ (Client.size f <= ChatInput.uploadLimit)%N
  /\ forall st message d,
       accepted (snd (Client.sendMessage st message (Some f) d)).
Proof.
  unfold ChatInput.handleFileChange.
  destruct (N.ltb ChatInput.uploadLimit (Client.size f)) eqn:E;
    [discriminate |].
  intros [= <-]. apply N.ltb_ge in E.
  split; [reflexivity |]. split; [exact E |].
  intros st message d.
  destruct (sendMessage_outcomes st message (Some f) d)
    as [(_ & _ & Hf) | [(_ & g & [= <-] & Hg) | H]];
    [discriminate | | exact H].
  unfold ChatInput.uploadLimit, Client.sizeLimit in *. lia.
Qed.

Section Together.

Variable W : Type.
Variable openai : OpenAI W.

(** X20. What a send hands to [fetch], the route takes apart again.
    The route receives the message with every lone surrogate replaced by
    U+FFFD and every newline written as CR LF; it is blank for the route
    exactly when it is blank for the client.  On a configured server the
    answer to the form is the one of the generation block for that text,
    trimmed, and for the roles and contents of the earlier messages of
    the target chat, in their order.  A send without text, which the
    client lets through when a file is attached, is refused by the route
    with status 400.  A message in which every surrogate is paired and
    that has no CR and no LF is received as it was typed. *)
Theorem send_reaches_route st message file d st' chatId body env w :
  Client.sendMessage st message file d
  = (st', Client.Fetching chatId body) ->
  configured env = true ->
  exists chat,
    Client.find_chat chatId (Client.chats st) = Some chat
    /\ (trim (received message) = [] <-> trim message = [])
    /\ (trim message <> [] ->
        POST openai env (Form (formData_of body)) w
        = dispatch openai (trim (received message))
            (route_history
               (map (fun msg => (Client.msg_role msg,
                                 Client.msg_content msg))
                    (Client.messages chat))) w)
    /\ (trim message = [] ->
        POST openai env (Form (formData_of body)) w
        = (Ok {| status := 400;
                 body := ErrorBody ERROR_MESSAGES.INVALID_REQUEST |},
           w, []))
    /\ (wire_safe message -> received message = message).
Proof.
  intros Hsend Hc.
  destruct (ClientFacts.sendMessage_submission _ _ _ _ _ _ _ Hsend)
    as (chat & Hfind & _ & -> & _ & _).
  exists chat. split; [exact Hfind |].
  set (history := map (fun msg => (Client.msg_role msg,
                                   Client.msg_content msg))
                      (Client.messages chat)).
  set (form := formData_of _).
  assert (Hm : get (js "message") form = Some (FString (received message)))
    by reflexivity.
  assert (Hh : get (js "history") form
               = Some (FString (Stringify.stringify history))).
  { change (get (js "history") form)
      with (Some (FString (received (Stringify.stringify history)))).
    now rewrite Wire.received_stringify. }
  split; [apply Wire.trim_received |].
  split; [| split].
  - intros Hne.
    assert (Hne' : trim (received message) <> []).
    { intros H. apply Hne. now apply Wire.trim_received. }
    rewrite (@POST_valid W openai env form (received message) w Hc Hm Hne'),
      Hh.
    rewrite Wire.readHistory_stringify.
    destruct (dispatch openai (trim (received message)) _ w) as [[r w'] l].
    reflexivity.
  - intros He.
    apply (POST_invalid W openai env form w Hc).
    rewrite Hm. unfold validMessage.
    now rewrite (proj2 (Wire.trim_received message) He).
  - apply Wire.wire_safe_received.
Qed.

End Together.

Lemma handleSubmit_sends_witness :
  snd (Client.sendMessage Client.one_empty_chat (js "hello") None
         Client.draws1)
  <> Client.Rejected empty_notice.
Proof.
  apply (handleSubmit_sends false
           {| ChatInput.input := js "hello"; ChatInput.mediaFile := None;
              ChatInput.preview := None |}
           {| ChatInput.input := []; ChatInput.mediaFile := None;
              ChatInput.preview := None |}
           (js "hello") None).
  vm_compute. reflexivity.
Defined.

Lemma accepted_upload_passes_witness :
  accepted (snd (Client.sendMessage Client.one_empty_chat (js "look")
                   (Some small_file) Client.draws1)).
Proof.
  apply (accepted_upload_passes small_file
           {| ChatInput.input := []; ChatInput.mediaFile := None;
              ChatInput.preview := None |}
           {| ChatInput.input := []; ChatInput.mediaFile := Some small_file;
              ChatInput.preview := None |}).
  vm_compute. reflexivity.
Defined.

Lemma send_reaches_route_witness :
  POST steady production
       (Form (formData_of
                {| Client.form_message := js "hello";
                   Client.form_history := [];
                   Client.form_file := None |})) 0%nat
  = dispatch steady (js "hello") [] 0%nat.
Proof.
  destruct (send_reaches_route nat steady Client.one_empty_chat
              (js "hello") None Client.draws1
              (fst (Client.sendMessage Client.one_empty_chat (js "hello")
                      None Client.draws1))
              (js "chat-1")
              {| Client.form_message := js "hello";
                 Client.form_history := [];
                 Client.form_file := None |}
              production 0%nat) as (chat & Hfind & _ & Hpost & _).
  - vm_compute. reflexivity.
  - reflexivity.
  - injection Hfind as <-. apply Hpost. vm_compute. discriminate.
Defined.

End EndToEnd.
